(** * Verification of [utils/parse.py]: the argument splitter [split_args]

    The module is one function, [split_args], driven by two compiled
    regular expressions.  Python strings are sequences of Unicode code
    points, so a string is modelled as a list of code points; the regular
    expressions are transcribed as syntax trees and run by a backtracking
    matcher that follows the order in which Python's [re] engine explores
    alternatives and repetitions. *)

From Stdlib Require Import String Ascii.
From Stdlib Require Import List NArith Bool Arith Lia Sorted.
Import ListNotations.

Set Implicit Arguments.

(** ** Strings *)

Definition char := N.
Definition str := list char.

Definition lit (s : string) : str :=
  List.map N_of_ascii (list_ascii_of_string s).
Arguments lit s%_string.

Definition dq : char := 34%N.          (* the double quote *)
Definition bs : char := 92%N.          (* the backslash *)
Definition nl : char := 10%N.          (* line feed *)
Definition comma : char := 44%N.       (* , *)
Definition fwcomma : char := 65292%N.  (* the full-width comma U+FF0C *)

(** [\s] on a [str] pattern, and each character test of [str.isspace]:
    the code points Python classifies as whitespace. *)
Definition is_space (c : char) : bool :=
  (((9 <=? c) && (c <=? 13)) || ((28 <=? c) && (c <=? 32))
   || (c =? 133) || (c =? 160) || (c =? 5760)
   || ((8192 <=? c) && (c <=? 8202))
   || (c =? 8232) || (c =? 8233) || (c =? 8239) || (c =? 8287)
   || (c =? 12288))%N.

(** The class of the two commas, ASCII and full-width. *)
Definition is_comma (c : char) : bool := ((c =? comma) || (c =? fwcomma))%N.

(** The class of unquoted text: neither whitespace nor a comma. *)
Definition text_char (c : char) : bool := negb (is_space c || is_comma c).

(** The class of every character but the double quote. *)
Definition not_dq (c : char) : bool := negb (c =? dq)%N.

(** The class of every character but the backslash. *)
Definition not_bs (c : char) : bool := negb (c =? bs)%N.

(** [str.isspace]: non-empty and every character is whitespace. *)
Definition isspace (s : str) : bool :=
  match s with
  | [] => false
  | _ => forallb is_space s
  end.

(** ** Regular expressions *)

(** The groups the two patterns capture: the three named groups of the
    splitter and group 1 of the unescaping pattern. *)
Inductive gname := quoted_text | text | tail | group1.

Definition gname_eqb (a b : gname) : bool :=
  match a, b with
  | quoted_text, quoted_text | text, text | tail, tail | group1, group1 => true
  | _, _ => false
  end.

Inductive regex :=
| Eps
| Cls (p : char -> bool)          (* one character of a class *)
| Cat (r1 r2 : regex)
| Alt (r1 r2 : regex)             (* r1|r2, r1 tried first *)
| Star (r : regex)                (* greedy r* *)
| Group (g : gname) (r : regex)
| Bol                             (* ^ *)
| Eol.                            (* $ *)

Definition Lit (c : char) : regex := Cls (N.eqb c).
Definition Plus (r : regex) : regex := Cat r (Star r).

(** A position in the subject string: the index and the text from there on. *)
Record cursor := Cursor { pos : nat; rest : str }.

Definition genv := gname -> option str.
Definition no_groups : genv := fun _ => None.
Definition set_group (g : gname) (v : str) (e : genv) : genv :=
  fun g' => if gname_eqb g g' then Some v else e g'.

(** The text between two cursors. *)
Definition span (c c' : cursor) : str := firstn (pos c' - pos c) (rest c).

Definition cont := cursor -> genv -> option (cursor * genv).

(** One greedy repetition: try the body once more, and only if that path
    fails, go on with what follows.  An iteration that consumed nothing
    does not start another one (the engine's zero-width protection).
    [n] bounds the iterations; the length of the remaining text is enough
    ([star_loop_fuel]). *)
Fixpoint star_loop (body : cursor -> genv -> cont -> option (cursor * genv))
    (n : nat) (c : cursor) (e : genv) (k : cont) : option (cursor * genv) :=
  match body c e (fun c' e' =>
                    match n with
                    | S n' => if pos c' =? pos c then k c' e'
                              else star_loop body n' c' e' k
                    | O => k c' e'
                    end) with
  | Some x => Some x
  | None => k c e
  end.

(** The backtracking matcher, in continuation-passing style: [k] is the
    rest of the pattern, and [None] makes the caller try its next choice. *)
Fixpoint rmatch (r : regex) (c : cursor) (e : genv) (k : cont)
  : option (cursor * genv) :=
  match r with
  | Eps => k c e
  | Cls p =>
      match rest c with
      | x :: t => if p x then k (Cursor (S (pos c)) t) e else None
      | [] => None
      end
  | Cat r1 r2 => rmatch r1 c e (fun c' e' => rmatch r2 c' e' k)
  | Alt r1 r2 =>
      match rmatch r1 c e k with
      | Some x => Some x
      | None => rmatch r2 c e k
      end
  | Star r1 => star_loop (rmatch r1) (length (rest c)) c e k
  | Group g r1 =>
      rmatch r1 c e (fun c' e' => k c' (set_group g (span c c') e'))
  | Bol => if pos c =? 0 then k c e else None
  | Eol =>
      match rest c with
      | [] => k c e
      | [x] => if (x =? nl)%N then k c e else None
      | _ => None
      end
  end.

(** A match object. *)
Record re_match := Match { m_start : cursor; m_end : cursor; m_groups : genv }.

Definition group0 (m : re_match) : str := span (m_start m) (m_end m).
Definition group (g : gname) (m : re_match) : option str := m_groups m g.

(** The continuation that ends a pattern. *)
Definition final : cont := fun c' e' => Some (c', e').

Definition match_at (r : regex) (c : cursor) : option re_match :=
  match rmatch r c no_groups final with
  | Some (c', e') => Some (Match c c' e')
  | None => None
  end.

(** The search loop shared by [finditer] and [sub]: at each position try a
    match; on success resume after it, otherwise step over one character.
    Neither pattern of the module can match the empty string
    ([splitter_progress], [unescape_progress]), so an empty match is only
    given the treatment that keeps the loop going: it is reported and the
    search steps over one character.  [fuel] bounds the positions tried;
    one more than the length of the text is enough ([scan_fuel]). *)
Inductive item :=
| Skipped (x : char)
| Found (m : re_match).

Fixpoint scan (r : regex) (fuel : nat) (c : cursor) : list item :=
  match fuel with
  | O => []
  | S fuel' =>
      match match_at r c with
      | Some m =>
          Found m ::
            (if pos (m_end m) =? pos c
             then match rest c with
                  | [] => []
                  | x :: t => Skipped x :: scan r fuel' (Cursor (S (pos c)) t)
                  end
             else scan r fuel' (m_end m))
      | None =>
          match rest c with
          | [] => []
          | x :: t => Skipped x :: scan r fuel' (Cursor (S (pos c)) t)
          end
      end
  end.

Definition scan_all (r : regex) (s : str) : list item :=
  scan r (S (length s)) (Cursor 0 s).

Fixpoint found (l : list item) : list re_match :=
  match l with
  | [] => []
  | Found m :: l' => m :: found l'
  | Skipped _ :: l' => found l'
  end.

Definition finditer (r : regex) (s : str) : list re_match :=
  found (scan_all r s).

(** [pattern.sub(template, s)]: skipped characters are kept, each match is
    replaced by the expansion of the template. *)
Definition re_sub (r : regex) (template : re_match -> str) (s : str) : str :=
  concat (List.map (fun it => match it with
                              | Skipped x => [x]
                              | Found m => template m
                              end) (scan_all r s)).

(** ** The two patterns of the module *)

Definition ws : regex := Cls is_space.

(** The splitter.  Written with Q for the double quote, B for the backslash,
    C for the class of the two commas, and blanks that are not part of the
    pattern:
    [\s* (?: (?: Q (?P<quoted_text> (?: (?: (?:BB)* ) | (?:BQ) | (?:[^Q]) )* ) Q )
           | (?: (?P<text> [^\sC]+ ) ) )
         (?P<tail> $ | (?: \s* C \s* ) | (?: \s+ ) )] *)
Definition backslash_pairs : regex := Star (Cat (Lit bs) (Lit bs)).

Definition quoted_item : regex :=
  Alt backslash_pairs (Alt (Cat (Lit bs) (Lit dq)) (Cls not_dq)).

Definition quoted_body : regex := Star quoted_item.

Definition quoted_unit : regex :=
  Cat (Lit dq) (Cat (Group quoted_text quoted_body) (Lit dq)).

Definition text_unit : regex := Group text (Plus (Cls text_char)).

Definition tail_part : regex :=
  Group tail
    (Alt Eol
       (Alt (Cat (Star ws) (Cat (Cls is_comma) (Star ws)))
          (Plus ws))).

Definition _re_arg_splitter : regex :=
  Cat (Star ws) (Cat (Alt quoted_unit text_unit) tail_part).

(** The unescaping pattern, in the same letters:
    [( (?: [^B] | ^ ) (?:BB)* ) BQ] *)
Definition _re_remove_escaped_quote : regex :=
  Cat (Group group1 (Cat (Alt (Cls not_bs) Bol) backslash_pairs))
    (Cat (Lit bs) (Lit dq)).

(** ** [split_args] *)

(** [s.replace(old, new)] for a two-character [old]: the occurrences are
    replaced from left to right, without overlap. *)
Fixpoint replace2 (o1 o2 : char) (new : str) (s : str) : str :=
  match s with
  | a :: t =>
      match t with
      | b :: t' =>
          if ((a =? o1) && (b =? o2))%N then new ++ replace2 o1 o2 new t'
          else a :: replace2 o1 o2 new t
      | [] => [a]
      end
  | [] => []
  end.

(** The replacement template of the source: group 1, then a double quote. *)
Definition quote_template (m : re_match) : str :=
  match group group1 m with
  | Some g => g ++ [dq]
  | None => [dq]
  end.

(** The expression applied to every field on the last line of the source:
    first the substitution of escaped quotes, then the replacement of
    backslash pairs. *)
Definition resolve_escapes (s : str) : str :=
  replace2 bs bs [bs] (re_sub _re_remove_escaped_quote quote_template s).

(** Truth value of an optional string: [None] and the empty string are
    false. *)
Definition truthy (o : option str) : bool :=
  match o with
  | Some (_ :: _) => true
  | _ => false
  end.

(** [m.group(tail) != empty and not m.group(tail).isspace()]; calling
    [isspace] on [None] raises. *)
Definition has_comma_tail (m : re_match) : option bool :=
  match group tail m with
  | Some [] => Some false
  | Some t => Some (negb (isspace t))
  | None => None
  end.

(** The first loop: the flag [comma_separated] after all matches.  The right
    operand of [or] is evaluated only while the flag is still false, and the
    tail is inspected only when [treat_comma_as_space] is false. *)
Fixpoint comma_separated_after (treat_comma_as_space : bool)
    (matches : list re_match) (comma_separated : bool) : option bool :=
  match matches with
  | [] => Some comma_separated
  | m :: matches' =>
      if comma_separated then
        comma_separated_after treat_comma_as_space matches' true
      else if treat_comma_as_space then
        comma_separated_after treat_comma_as_space matches' false
      else
        match has_comma_tail m with
        | Some b => comma_separated_after treat_comma_as_space matches' b
        | None => None
        end
  end.

(** [m.group(text) if m.group(text) is not None else m.group(quoted_text)] *)
Definition payload (m : re_match) : option str :=
  match group text m with
  | Some t => Some t
  | None => group quoted_text m
  end.

(** [join(m.group(0) for m in ms)] on the empty separator. *)
Definition join_group0 (ms : list re_match) : str := concat (List.map group0 ms).

(** The condition of the second loop,
    [match.group(tail) and not match.group(tail).isspace()]. *)
Definition ends_with_comma (m : re_match) : bool :=
  truthy (group tail m) &&
  match group tail m with
  | Some t => negb (isspace t)
  | None => false
  end.

(** The second loop.  [ret] may receive [None] (a missing group appended as
    it is); concatenating a string with [None] raises. *)
Fixpoint combine_loop (matches combine : list re_match)
    (ret : list (option str)) : option (list (option str) * list re_match) :=
  match matches with
  | [] => Some (ret, combine)
  | m :: matches' =>
      if ends_with_comma m then
        if truthy (group text m) then
          match group text m with
          | Some t => combine_loop matches' [] (ret ++ [Some (join_group0 combine ++ t)])
          | None => None
          end
        else
          match combine with
          | [] => combine_loop matches' [] (ret ++ [group quoted_text m])
          | _ :: _ =>
              match group quoted_text m with
              | Some q =>
                  combine_loop matches' [] (ret ++ [Some (join_group0 combine ++ q)])
              | None => None
              end
          end
      else combine_loop matches' (combine ++ [m]) ret
  end.

Definition no_match : re_match := Match (Cursor 0 []) (Cursor 0 []) no_groups.

(** [last_arg] for the matches left in [combine] after the loop: the quoted
    text alone when [combine] is one quoted match, otherwise the raw text of
    all matches but the last, followed by the payload of the last. *)
Definition last_arg (combine : list re_match) : option str :=
  match (if length combine =? 1
         then group quoted_text (hd no_match combine) else None) with
  | Some q => Some q
  | None =>
      match payload (last combine no_match) with
      | Some p => Some (join_group0 (removelast combine) ++ p)
      | None => None
      end
  end.

Definition comma_mode (matches : list re_match) : option (list (option str)) :=
  match combine_loop matches [] [] with
  | Some (ret, []) => Some ret
  | Some (ret, combine) =>
      match last_arg combine with
      | Some a => Some (ret ++ [Some a])
      | None => None
      end
  | None => None
  end.

(** The last comprehension: [sub] on [None] raises. *)
Fixpoint resolve_all (ret : list (option str)) : option (list str) :=
  match ret with
  | [] => Some []
  | Some s :: ret' =>
      match resolve_all ret' with
      | Some l => Some (resolve_escapes s :: l)
      | None => None
      end
  | None :: _ => None
  end.

(** [split_args]; [None] stands for a raised exception. *)
Definition split_args (args : str) (treat_comma_as_space : bool)
  : option (list str) :=
  let matches := finditer _re_arg_splitter args in
  match comma_separated_after treat_comma_as_space matches false with
  | None => None
  | Some false => resolve_all (List.map payload matches)
  | Some true =>
      match comma_mode matches with
      | Some ret => resolve_all ret
      | None => None
      end
  end.

(** ** Reference definitions used in the statements *)

(** The maximal runs of characters that are not delimiters, in order; [cur]
    is the run being read. *)
Fixpoint tokens (delim : char -> bool) (s cur : str) : list str :=
  match s with
  | [] => match cur with [] => [] | _ => [cur] end
  | x :: t =>
      if delim x
      then match cur with
           | [] => tokens delim t []
           | _ => cur :: tokens delim t []
           end
      else tokens delim t (cur ++ [x])
  end.

(** A standard whitespace tokenizer. *)
Definition whitespace_tokens (s : str) : list str := tokens is_space s [].

Definition is_delim (c : char) : bool := is_space c || is_comma c.

(** The raw text an item of the scan stands for. *)
Definition raw (it : item) : str :=
  match it with
  | Skipped x => [x]
  | Found m => group0 m
  end.

(** ** Declarative reading of the patterns *)

(** [Matches r c e c' e']: [r] can match from [c] to [c'], turning the
    groups [e] into [e']. *)
Inductive Matches : regex -> cursor -> genv -> cursor -> genv -> Prop :=
| M_eps c e : Matches Eps c e c e
| M_cls p n x t e : p x = true ->
    Matches (Cls p) (Cursor n (x :: t)) e (Cursor (S n) t) e
| M_cat r1 r2 c e c1 e1 c2 e2 :
    Matches r1 c e c1 e1 -> Matches r2 c1 e1 c2 e2 ->
    Matches (Cat r1 r2) c e c2 e2
| M_alt_l r1 r2 c e c' e' : Matches r1 c e c' e' -> Matches (Alt r1 r2) c e c' e'
| M_alt_r r1 r2 c e c' e' : Matches r2 c e c' e' -> Matches (Alt r1 r2) c e c' e'
| M_star_nil r c e : Matches (Star r) c e c e
| M_star_cons r c e c1 e1 c2 e2 :
    Matches r c e c1 e1 -> Matches (Star r) c1 e1 c2 e2 ->
    Matches (Star r) c e c2 e2
| M_group g r c e c' e' :
    Matches r c e c' e' ->
    Matches (Group g r) c e c' (set_group g (span c c') e')
| M_bol c e : pos c = 0 -> Matches Bol c e c e
| M_eol c e : rest c = [] \/ rest c = [nl] -> Matches Eol c e c e.

(** [c'] is [c] advanced over the text [w]. *)
Definition advances (c : cursor) (w : str) (c' : cursor) : Prop :=
  rest c = w ++ rest c' /\ pos c' = pos c + length w.

(** The groups a pattern can set. *)
Fixpoint binds (r : regex) (g : gname) : bool :=
  match r with
  | Cat r1 r2 | Alt r1 r2 => binds r1 g || binds r2 g
  | Star r1 => binds r1 g
  | Group g' r1 => gname_eqb g' g || binds r1 g
  | _ => false
  end.

(** The three ways a tail can match: nothing at the end of the input,
    whitespace around one comma, or a run of whitespace. *)
Inductive tail_shape (r : str) : str -> Prop :=
| tail_end : r = [] \/ r = [nl] -> tail_shape r []
| tail_comma a x b :
    forallb is_space a = true -> is_comma x = true -> forallb is_space b = true ->
    tail_shape r (a ++ x :: b)
| tail_space w : isspace w = true -> tail_shape r w.

(** The unit [u] of a match is either unquoted text, held by [text], or a
    quoted span, whose inside is held by [quoted_text]. *)
Definition unit_shape (m : re_match) (u : str) : Prop :=
  (group text m = Some u /\ group quoted_text m = None /\
   u <> [] /\ forallb text_char u = true)
  \/ (group text m = None /\
      exists q, group quoted_text m = Some q /\ u = dq :: q ++ [dq]).

(** A character that is neither a double quote nor a backslash. *)
Definition plain (a : char) : bool := not_dq a && not_bs a.

(** Number of double quotes in a string. *)
Definition count_dq (s : str) : nat := count_occ N.eq_dec s dq.

(** Inputs without a comma, without a double quote. *)
Definition no_commas (s : str) : bool := forallb (fun x => negb (is_comma x)) s.
Definition no_quotes (s : str) : bool := forallb not_dq s.

Definition no_comma (s : str) : Prop := forall x, In x s -> is_comma x = false.

(** The only characters the scan may step over are delimiters. *)
Definition skips_only_delims (it : item) : Prop :=
  match it with
  | Skipped x => is_delim x = true
  | Found _ => True
  end.

(** What [split_args] relies on in a match: the tail took part, and so did
    one of [text] and [quoted_text], [text] never being empty. *)
Definition well_formed (m : re_match) : Prop :=
  (exists tl, group tail m = Some tl) /\
  (exists p, payload m = Some p) /\
  (truthy (group text m) = false -> exists q, group quoted_text m = Some q).

Definition is_some (o : option str) : Prop := exists s, o = Some s.

(** One more field is pending while [combine] is not empty. *)
Definition open_field (combine : list re_match) : nat :=
  match combine with [] => 0 | _ => 1 end.

(** Escape resolution as the specification words it.  First step: a
    backslash that stands before a double quote and after an even run of
    backslashes is dropped; every other character is kept.  [held] tells that
    an odd run of backslashes ends just before [s], its last backslash not
    yet written. *)
Fixpoint spec_unescape_quotes (s : str) (held : bool) : str :=
  match s with
  | [] => if held then [bs] else []
  | a :: t =>
      if (a =? bs)%N then
        if held then bs :: bs :: spec_unescape_quotes t false
        else spec_unescape_quotes t true
      else if (a =? dq)%N then dq :: spec_unescape_quotes t false
      else if held then bs :: a :: spec_unescape_quotes t false
      else a :: spec_unescape_quotes t false
  end.

(** Second step: every pair of consecutive backslashes becomes one. *)
Definition spec_resolve_escapes (s : str) : str :=
  replace2 bs bs [bs] (spec_unescape_quotes s false).

(** The anatomy of a match of the splitter: its raw text is leading
    whitespace, then the unit, then the tail. *)
Definition match_anatomy (m : re_match) : Prop :=
  exists w u tl,
    group0 m = w ++ u ++ tl /\ forallb is_space w = true /\
    unit_shape m u /\ group tail m = Some tl /\
    tail_shape (rest (m_end m)) tl.

(** Every double quote of [s] stands right after a backslash; [after_bs]
    tells whether the character before [s] is a backslash. *)
Fixpoint quotes_escaped (after_bs : bool) (s : str) : bool :=
  match s with
  | [] => true
  | a :: t =>
      if (a =? dq)%N then after_bs && quotes_escaped false t
      else quotes_escaped (a =? bs)%N t
  end.

(** The quoted text of a match, when it took part, has no bare quote. *)
Definition quoted_text_escaped (m : re_match) : Prop :=
  match group quoted_text m with
  | Some q => quotes_escaped false q = true
  | None => True
  end.

(** What [sub] writes for an item of the scan, with the template of the
    source. *)
Definition substitute (it : item) : str :=
  match it with
  | Skipped x => [x]
  | Found m => quote_template m
  end.

(** [sep.join(l)] *)
Fixpoint join (sep : str) (l : list str) : str :=
  match l with
  | [] => []
  | a :: t =>
      match t with
      | [] => a
      | _ :: _ => a ++ sep ++ join sep t
      end
  end.

(** An argument that is not empty and holds neither whitespace nor a comma. *)
Definition bare_word (a : str) : Prop := a <> [] /\ forallb text_char a = true.





(** A string without commas. *)
Definition comma_free (a : str) : Prop := forall x, In x a -> is_comma x = false.

(** An argument that is not empty and holds no comma. *)
Definition comma_free_field (a : str) : Prop := a <> [] /\ comma_free a.

(** A match of the splitter on an unquoted input: its unit is unquoted
    text. *)
Definition unquoted_match (m : re_match) : Prop :=
  exists w u tl,
    group0 m = w ++ u ++ tl /\ forallb is_space w = true /\
    group text m = Some u /\ u <> [] /\ forallb text_char u = true /\
    group quoted_text m = None /\
    group tail m = Some tl /\ tail_shape (rest (m_end m)) tl.

(** A word: not empty, made of characters that are neither whitespace, nor
    a comma, nor a double quote, nor a backslash. *)
Definition plain_word (w : str) : bool :=
  match w with
  | [] => false
  | _ => forallb (fun x => text_char x && plain x) w
  end.

(** A field: a non-empty list of words. *)
Definition plain_field (f : list str) : bool :=
  match f with
  | [] => false
  | _ => forallb plain_word f
  end.

Definition space_sep : str := [32%N].

Definition comma_sep : str := [comma; 32%N].

(** The units of a comma-separated text, each with the delimiter that
    follows it: a space inside a field, a comma and a space between fields,
    nothing at the end. *)
Definition stream := list (str * str).

Definition render (l : stream) : str :=
  concat (List.map (fun p => fst p ++ snd p) l).

Inductive stream_ok : stream -> Prop :=
| ok_last w : plain_word w = true -> stream_ok [(w, [])]
| ok_cons w t l :
    plain_word w = true -> t = space_sep \/ t = comma_sep ->
    stream_ok l -> stream_ok ((w, t) :: l).

(** What [split_args] reads of a match: here an unquoted unit [w] with
    tail [t]. *)
Definition describes (m : re_match) (p : str * str) : Prop :=
  group0 m = fst p ++ snd p /\ group text m = Some (fst p) /\
  group quoted_text m = None /\ group tail m = Some (snd p).

(** The fields of a stream; [acc] is the raw text of the field being read. *)
Fixpoint collect (l : stream) (acc : str) : list str :=
  match l with
  | [] => []
  | (w, t) :: l' =>
      match t with
      | [] => [acc ++ w]
      | x :: _ => if is_comma x then (acc ++ w) :: collect l' []
                  else collect l' (acc ++ w ++ t)
      end
  end.

Fixpoint field_stream (f : list str) (last_tail : str) : stream :=
  match f with
  | [] => []
  | w :: f' =>
      match f' with
      | [] => [(w, last_tail)]
      | _ :: _ => (w, space_sep) :: field_stream f' last_tail
      end
  end.

Fixpoint stream_of (fields : list (list str)) : stream :=
  match fields with
  | [] => []
  | f :: fs =>
      match fs with
      | [] => field_stream f []
      | _ :: _ => field_stream f comma_sep ++ stream_of fs
      end
  end.

(** The part of [comma_mode] after the matches are known, from any state of
    the loop. *)
Definition finish (ms combine : list re_match) (ret : list (option str))
  : option (list (option str)) :=
  match combine_loop ms combine ret with
  | Some (ret', []) => Some ret'
  | Some (ret', cmb) =>
      match last_arg cmb with
      | Some a => Some (ret' ++ [Some a])
      | None => None
      end
  | None => None
  end.



(** ** The work of the search *)

(** The search of [rmatch] once more, counting its steps: one step for
    every test of a character against a class and for every test of a
    position ([^], [$]), on the path that succeeds and on every path given
    up before it.  The result is paired with the count. *)
Definition counted := (option (cursor * genv) * nat)%type.

Definition ccont := cursor -> genv -> counted.

(** [x], reached after [t] steps. *)
Definition after (t : nat) (x : counted) : counted := (fst x, t + snd x).

Fixpoint star_loop_cost (body : cursor -> genv -> ccont -> counted)
    (n : nat) (c : cursor) (e : genv) (k : ccont) : counted :=
  match body c e (fun c' e' =>
                    match n with
                    | S n' => if pos c' =? pos c then k c' e'
                              else star_loop_cost body n' c' e' k
                    | O => k c' e'
                    end) with
  | (Some x, t) => (Some x, t)
  | (None, t) => after t (k c e)
  end.

Fixpoint rmatch_cost (r : regex) (c : cursor) (e : genv) (k : ccont)
  : counted :=
  match r with
  | Eps => k c e
  | Cls p =>
      match rest c with
      | x :: t => if p x then after 1 (k (Cursor (S (pos c)) t) e)
                  else (None, 1)
      | [] => (None, 1)
      end
  | Cat r1 r2 => rmatch_cost r1 c e (fun c' e' => rmatch_cost r2 c' e' k)
  | Alt r1 r2 =>
      match rmatch_cost r1 c e k with
      | (Some x, t) => (Some x, t)
      | (None, t) => after t (rmatch_cost r2 c e k)
      end
  | Star r1 => star_loop_cost (rmatch_cost r1) (length (rest c)) c e k
  | Group g r1 =>
      rmatch_cost r1 c e (fun c' e' => k c' (set_group g (span c c') e'))
  | Bol => if pos c =? 0 then after 1 (k c e) else (None, 1)
  | Eol =>
      match rest c with
      | [] => after 1 (k c e)
      | [x] => if (x =? nl)%N then after 1 (k c e) else (None, 1)
      | _ => (None, 1)
      end
  end.

Definition final_cost : ccont := fun c' e' => (Some (c', e'), 0).

(** The steps of one match attempt at [c]. *)
Definition match_cost (r : regex) (c : cursor) : nat :=
  snd (rmatch_cost r c no_groups final_cost).

(** The attempts of the search loop [scan], in order: where each one
    starts and how many steps it takes. *)
Fixpoint scan_attempts (r : regex) (fuel : nat) (c : cursor)
  : list (nat * nat) :=
  match fuel with
  | O => []
  | S fuel' =>
      (pos c, match_cost r c) ::
        match match_at r c with
        | Some m =>
            if pos (m_end m) =? pos c
            then match rest c with
                 | [] => []
                 | x :: t => scan_attempts r fuel' (Cursor (S (pos c)) t)
                 end
            else scan_attempts r fuel' (m_end m)
        | None =>
            match rest c with
            | [] => []
            | x :: t => scan_attempts r fuel' (Cursor (S (pos c)) t)
            end
        end
  end.

Definition finditer_attempts (r : regex) (s : str) : list (nat * nat) :=
  scan_attempts r (S (length s)) (Cursor 0 s).

(** The steps of a whole [finditer] loop over [s]. *)
Definition finditer_cost (r : regex) (s : str) : nat :=
  list_sum (List.map snd (finditer_attempts r s)).

(** A bound on the steps of one attempt of [r] on a text of at most [n]
    characters. *)
Fixpoint budget (r : regex) (n : nat) : nat :=
  match r with
  | Eps | Cls _ | Bol | Eol => 1
  | Cat r1 r2 => budget r1 n * (1 + budget r2 n)
  | Alt r1 r2 => budget r1 n + budget r2 n
  | Star r1 => (1 + budget r1 n) ^ S n
  | Group _ r1 => budget r1 n
  end.

(** * Properties of the matcher *)

Lemma rmatch_sound r : forall c e k x,
  rmatch r c e k = Some x ->
  exists c' e', Matches r c e c' e' /\ k c' e' = Some x.
Proof.
  induction r as [ | p | r1 IH1 r2 IH2 | r1 IH1 r2 IH2 | r1 IH1 | g r1 IH1 | | ];
    intros c e k x H; simpl in H.
  - exists c, e. split; [constructor | exact H].
  - destruct c as [n s]. simpl in H. destruct s as [ | a t]; [discriminate | ].
    destruct (p a) eqn:Hp; [ | discriminate].
    exists (Cursor (S n) t), e. split; [now constructor | exact H].
  - apply IH1 in H. destruct H as (c1 & e1 & M1 & H).
    apply IH2 in H. destruct H as (c2 & e2 & M2 & H).
    exists c2, e2. split; [econstructor; eauto | exact H].
  - destruct (rmatch r1 c e k) eqn:H1.
    + injection H as <-. apply IH1 in H1. destruct H1 as (c' & e' & M & H1).
      exists c', e'. split; [now apply M_alt_l | exact H1].
    + apply IH2 in H. destruct H as (c' & e' & M & H).
      exists c', e'. split; [now apply M_alt_r | exact H].
  - revert H. generalize (length (rest c)). intros n. revert c e.
    induction n as [ | n IHn]; intros c e H; simpl in H.
    + destruct (rmatch r1 c e (fun c' e' => k c' e')) eqn:H1.
      * injection H as <-. apply IH1 in H1. destruct H1 as (c1 & e1 & M & H1).
        exists c1, e1. split; [ | exact H1].
        eapply M_star_cons; [exact M | constructor].
      * exists c, e. split; [constructor | exact H].
    + match type of H with
      | match ?b with _ => _ end = _ => destruct b eqn:H1
      end.
      * injection H as <-. apply IH1 in H1. destruct H1 as (c1 & e1 & M & H1).
        destruct (pos c1 =? pos c).
        -- exists c1, e1. split; [ | exact H1].
           eapply M_star_cons; [exact M | constructor].
        -- apply IHn in H1. destruct H1 as (c2 & e2 & M2 & H2).
           exists c2, e2. split; [ | exact H2].
           eapply M_star_cons; eauto.
      * exists c, e. split; [constructor | exact H].
  - apply IH1 in H. destruct H as (c' & e' & M & H).
    exists c', (set_group g (span c c') e'). split; [now constructor | exact H].
  - destruct (pos c =? 0) eqn:Hp; [ | discriminate].
    exists c, e. split; [constructor; now apply Nat.eqb_eq | exact H].
  - destruct (rest c) as [ | a [ | b t]] eqn:Hr; try discriminate.
    + exists c, e. split; [constructor; now left | exact H].
    + destruct (N.eqb_spec a nl); [subst a | discriminate].
      exists c, e. split; [constructor; now right | exact H].
Qed.

Lemma Matches_advances r c e c' e' :
  Matches r c e c' e' -> exists w, advances c w c'.
Proof.
  induction 1; try (exists []; split; simpl; [reflexivity | lia]).
  - exists [x]. split; simpl; [reflexivity | lia].
  - destruct IHMatches1 as (w1 & R1 & P1), IHMatches2 as (w2 & R2 & P2).
    exists (w1 ++ w2). split.
    + rewrite R1, R2. now rewrite app_assoc.
    + rewrite P2, P1, length_app. lia.
  - assumption.
  - assumption.
  - destruct IHMatches1 as (w1 & R1 & P1), IHMatches2 as (w2 & R2 & P2).
    exists (w1 ++ w2). split.
    + rewrite R1, R2. now rewrite app_assoc.
    + rewrite P2, P1, length_app. lia.
  - assumption.
Qed.

Lemma advances_span c w c' : advances c w c' -> span c c' = w.
Proof.
  intros [R P]. unfold span. rewrite R, P.
  replace (pos c + length w - pos c) with (length w + 0) by lia.
  rewrite firstn_app_2. simpl. apply app_nil_r.
Qed.

Ltac inv H := inversion H; subst; clear H.

Lemma advances_refl c : advances c [] c.
Proof. split; simpl; [reflexivity | lia]. Qed.

Lemma advances_trans c w1 c1 w2 c2 :
  advances c w1 c1 -> advances c1 w2 c2 -> advances c (w1 ++ w2) c2.
Proof.
  intros [R1 P1] [R2 P2]. split.
  - rewrite R1, R2. now rewrite app_assoc.
  - rewrite P2, P1, length_app. lia.
Qed.

Lemma advances_step n x t : advances (Cursor n (x :: t)) [x] (Cursor (S n) t).
Proof. split; simpl; [reflexivity | lia]. Qed.

Lemma advances_inj c w1 w2 c' : advances c w1 c' -> advances c w2 c' -> w1 = w2.
Proof.
  intros H1 H2. apply advances_span in H1, H2. congruence.
Qed.

Lemma Matches_binds r c e c' e' g :
  Matches r c e c' e' -> binds r g = false -> e' g = e g.
Proof.
  induction 1; simpl; intros B; try reflexivity;
    try (apply orb_false_iff in B; destruct B as [B1 B2]).
  - rewrite IHMatches2, IHMatches1; auto.
  - auto.
  - auto.
  - rewrite IHMatches2, IHMatches1; auto.
  - unfold set_group. rewrite B1. auto.
Qed.

Lemma Matches_star_cls p c e c' e' :
  Matches (Star (Cls p)) c e c' e' ->
  e' = e /\ exists w, advances c w c' /\ forallb p w = true.
Proof.
  intros M. remember (Star (Cls p)) as r eqn:E.
  induction M; inversion E; subst.
  - split; [reflexivity | ]. exists []. split; [apply advances_refl | reflexivity].
  - inv M1. destruct (IHM2 eq_refl) as (-> & w & A & F).
    split; [reflexivity | ]. exists (x :: w). split.
    + apply (advances_trans (advances_step n x t) A).
    + simpl. rewrite F. now match goal with H : p x = true |- _ => rewrite H end.
Qed.

(** Inversion of a match along the structure of the pattern. *)
Ltac minv1 :=
  match goal with
  | H : Matches ?r _ _ _ _ |- _ =>
      let r' := eval hnf in r in
      match r' with
      | Star ?b =>
          let b' := eval hnf in b in
          match b' with
          | Cls _ =>
              apply Matches_star_cls in H;
              let w := fresh "w" in
              let A := fresh "A" in
              let F := fresh "F" in
              destruct H as (-> & w & A & F)
          end
      | Cat _ _ => inv H
      | Alt _ _ => inv H
      | Group _ _ => inv H
      | Cls _ => inv H
      | Eol => inv H
      | Bol => inv H
      | Eps => inv H
      end
  end.
Ltac minv := repeat minv1.

Ltac chain :=
  repeat first [ eassumption
               | apply advances_step
               | apply advances_refl
               | eapply advances_trans ].

Lemma Matches_tail c e c' e' :
  Matches tail_part c e c' e' ->
  exists tl, advances c tl c' /\ tail_shape (rest c') tl /\ e' = set_group tail tl e.
Proof.
  intros M. minv.
  - exists []. split; [apply advances_refl | ].
    split; [now constructor | ].
    now rewrite (advances_span (advances_refl c')).
  - assert (A1 : advances c (w0 ++ [x] ++ w) c') by chain.
    exists (w0 ++ [x] ++ w). split; [exact A1 | ].
    split; [now constructor | ].
    now rewrite (advances_span A1).
  - assert (A1 : advances (Cursor n (x :: t)) ([x] ++ w) c') by chain.
    exists ([x] ++ w). split; [exact A1 | ].
    split; [ | now rewrite (advances_span A1)].
    apply tail_space. simpl.
    match goal with H : is_space x = true |- _ => now rewrite H end.
Qed.

Lemma Matches_text_unit c e c' e' :
  Matches text_unit c e c' e' ->
  exists u, advances c u c' /\ u <> [] /\ forallb text_char u = true
            /\ e' = set_group text u e.
Proof.
  intros M. minv.
  assert (A1 : advances (Cursor n (x :: t)) ([x] ++ w) c') by chain.
  exists ([x] ++ w). split; [exact A1 | ].
  split; [discriminate | ]. split.
  - simpl. match goal with H : text_char x = true |- _ => now rewrite H end.
  - now rewrite (advances_span A1).
Qed.

Lemma Matches_quoted_unit c e c' e' :
  Matches quoted_unit c e c' e' ->
  exists q, advances c (dq :: q ++ [dq]) c' /\
            forall g, e' g = set_group quoted_text q e g.
Proof.
  intros M. unfold quoted_unit in M.
  inv M.
  match goal with H : Matches (Lit dq) _ _ _ _ |- _ => inv H end.
  match goal with H : Matches (Cat _ _) _ _ _ _ |- _ => inv H end.
  match goal with H : Matches (Lit dq) _ _ _ _ |- _ => inv H end.
  match goal with H : Matches (Group _ _) _ _ _ _ |- _ => inv H end.
  match goal with H : Matches quoted_body _ _ _ _ |- _ =>
    destruct (Matches_advances H) as (q & A2);
    pose proof (fun g => Matches_binds g H eq_refl) as B
  end.
  repeat match goal with H : (_ =? _)%N = true |- _ =>
    apply N.eqb_eq in H; subst end.
  exists q. split.
  - change (dq :: q ++ [dq]) with ([dq] ++ q ++ [dq]). chain.
  - intros g. rewrite (advances_span A2). unfold set_group.
    destruct (gname_eqb quoted_text g); [reflexivity | apply B].
Qed.

(** ** Success of the unquoted alternative *)

Lemma star_loop_unfold body n c e k :
  star_loop body n c e k =
  match body c e (fun c' e' =>
                    match n with
                    | S n' => if pos c' =? pos c then k c' e'
                              else star_loop body n' c' e' k
                    | O => k c' e'
                    end) with
  | Some x => Some x
  | None => k c e
  end.
Proof. destruct n; reflexivity. Qed.

Lemma star_loop_succeeds body n c e k :
  k c e <> None -> star_loop body n c e k <> None.
Proof.
  intros H. rewrite star_loop_unfold.
  destruct (body c e _); [discriminate | exact H].
Qed.

Lemma rmatch_alt_r r1 r2 c e k :
  rmatch r2 c e k <> None -> rmatch (Alt r1 r2) c e k <> None.
Proof.
  intros H. simpl. destruct (rmatch r1 c e k); [discriminate | exact H].
Qed.

Lemma rmatch_cls p c e k :
  rmatch (Cls p) c e k =
  match rest c with
  | x :: t => if p x then k (Cursor (S (pos c)) t) e else None
  | [] => None
  end.
Proof. reflexivity. Qed.

Lemma rmatch_cat r1 r2 c e k :
  rmatch (Cat r1 r2) c e k = rmatch r1 c e (fun c' e' => rmatch r2 c' e' k).
Proof. reflexivity. Qed.

Lemma rmatch_alt r1 r2 c e k :
  rmatch (Alt r1 r2) c e k =
  match rmatch r1 c e k with
  | Some x => Some x
  | None => rmatch r2 c e k
  end.
Proof. reflexivity. Qed.

Lemma rmatch_star r c e k :
  rmatch (Star r) c e k = star_loop (rmatch r) (length (rest c)) c e k.
Proof. reflexivity. Qed.

Lemma rmatch_group g r c e k :
  rmatch (Group g r) c e k =
  rmatch r c e (fun c' e' => k c' (set_group g (span c c') e')).
Proof. reflexivity. Qed.

Lemma star_cls_fails p n c e k :
  match rest c with [] => True | y :: _ => p y = false end ->
  star_loop (rmatch (Cls p)) n c e k = k c e.
Proof.
  intros H. rewrite star_loop_unfold, rmatch_cls.
  destruct (rest c) as [ | y t]; [reflexivity | ]. now rewrite H.
Qed.

Lemma star_cls_greedy p k x : forall w c n e r,
  rest c = w ++ r -> forallb p w = true ->
  match r with [] => True | y :: _ => p y = false end ->
  length (rest c) <= n ->
  k (Cursor (pos c + length w) r) e = Some x ->
  star_loop (rmatch (Cls p)) n c e k = Some x.
Proof.
  induction w as [ | a w IH]; intros c n e r R F E L K.
  - rewrite star_cls_fails.
    + destruct c as [i s]. simpl in *. subst s. now rewrite Nat.add_0_r in K.
    + simpl in R. now rewrite R.
  - destruct c as [i s]. simpl in R, L, K. subst s.
    simpl in F. apply andb_prop in F. destruct F as [Fa F].
    destruct n as [ | n]; [simpl in L; lia | ].
    rewrite star_loop_unfold, rmatch_cls. cbn [rest pos]. rewrite Fa.
    replace (S i =? i) with false by (symmetry; apply Nat.eqb_neq; lia).
    rewrite (IH (Cursor (S i) (w ++ r)) n e r eq_refl F E).
    + reflexivity.
    + simpl in *. lia.
    + cbn [pos]. now replace (S i + length w) with (i + S (length w)) by lia.
Qed.

Lemma longest_prefix (p : char -> bool) (s : str) :
  exists w r, s = w ++ r /\ forallb p w = true /\
              match r with [] => True | y :: _ => p y = false end.
Proof.
  induction s as [ | a s (w & r & E & F & H)].
  - now exists [], [].
  - destruct (p a) eqn:Pa.
    + exists (a :: w), r. subst s. simpl. now rewrite Pa.
    + now exists [], (a :: s).
Qed.

Lemma comma_not_space x : is_comma x = true -> is_space x = false.
Proof.
  unfold is_comma. intros H. apply orb_prop in H.
  destruct H as [H | H]; apply N.eqb_eq in H; subst x; reflexivity.
Qed.

Lemma tail_part_succeeds c e :
  match rest c with [] => True | y :: _ => text_char y = false end ->
  rmatch tail_part c e final <> None.
Proof.
  intros H. unfold tail_part, Plus, ws.
  rewrite rmatch_group, rmatch_alt.
  destruct (rmatch Eol c e _) eqn:E1; [discriminate | ].
  rewrite rmatch_alt.
  match goal with |- match ?a with _ => _ end <> None => destruct a eqn:E2 end;
    [discriminate | ].
  destruct (rest c) as [ | y t] eqn:R.
  - simpl in E1. rewrite R in E1. discriminate.
  - unfold text_char in H. apply negb_false_iff in H.
    destruct (is_space y) eqn:S.
    + rewrite rmatch_cat, rmatch_cls, R, S, rmatch_star.
      apply star_loop_succeeds. discriminate.
    + exfalso. simpl in H.
      rewrite rmatch_cat, rmatch_star, star_cls_fails in E2
        by (rewrite R; exact S).
      rewrite rmatch_cat, rmatch_cls, R, H, rmatch_star in E2.
      revert E2. apply star_loop_succeeds. discriminate.
Qed.

Lemma text_unit_succeeds c e x t :
  rest c = x :: t -> text_char x = true ->
  rmatch text_unit c e (fun c' e' => rmatch tail_part c' e' final) <> None.
Proof.
  intros R T. unfold text_unit, Plus.
  rewrite rmatch_group, rmatch_cat, rmatch_cls, R, T, rmatch_star.
  destruct (longest_prefix text_char t) as (w & r & -> & F & E).
  match goal with
  | |- star_loop _ _ ?c1 _ ?k <> None =>
      destruct (k (Cursor (pos c1 + length w) r) e) as [y | ] eqn:K
  end.
  - erewrite star_cls_greedy; [discriminate | reflexivity | exact F | exact E
                               | reflexivity | exact K].
  - exfalso. revert K. apply tail_part_succeeds. exact E.
Qed.

Lemma splitter_succeeds c x t :
  rest c = x :: t -> text_char x = true ->
  match_at _re_arg_splitter c <> None.
Proof.
  intros R T. unfold match_at.
  assert (H : rmatch _re_arg_splitter c no_groups final <> None).
  { unfold _re_arg_splitter, ws. rewrite rmatch_cat, rmatch_star, star_cls_fails.
    - rewrite rmatch_cat. apply rmatch_alt_r. now apply text_unit_succeeds with x t.
    - rewrite R. unfold text_char in T. apply negb_true_iff in T.
      now apply orb_false_iff in T. }
  unfold final in H.
  destruct (rmatch _re_arg_splitter c no_groups _) as [[c' e'] | ];
    [discriminate | contradiction].
Qed.

Lemma match_at_sound r c m :
  match_at r c = Some m ->
  m_start m = c /\ Matches r c no_groups (m_end m) (m_groups m).
Proof.
  unfold match_at. intros H.
  destruct (rmatch r c no_groups _) as [[c' e'] | ] eqn:E; [ | discriminate].
  injection H as <-. apply rmatch_sound in E.
  destruct E as (c1 & e1 & M & E). injection E as <- <-. now split.
Qed.

Lemma splitter_shape c m :
  match_at _re_arg_splitter c = Some m ->
  m_start m = c /\
  exists w u tl,
    advances c (w ++ u ++ tl) (m_end m) /\ forallb is_space w = true /\
    unit_shape m u /\ group tail m = Some tl /\ tail_shape (rest (m_end m)) tl.
Proof.
  intros H. apply match_at_sound in H. destruct H as [S M].
  split; [exact S | ]. destruct m as [c0 c' e']. simpl in *. subst c0.
  unfold _re_arg_splitter in M. inv M.
  match goal with H : Matches (Star ws) _ _ _ _ |- _ =>
    apply Matches_star_cls in H; destruct H as (-> & w & Aw & Fw) end.
  match goal with H : Matches (Cat _ _) _ _ _ _ |- _ => inv H end.
  match goal with H : Matches tail_part _ _ _ _ |- _ =>
    apply Matches_tail in H; destruct H as (tl & At & St & ->) end.
  match goal with H : Matches (Alt _ _) _ _ _ _ |- _ => inv H end.
  - match goal with H : Matches quoted_unit _ _ _ _ |- _ =>
      apply Matches_quoted_unit in H; destruct H as (q & Au & Eq) end.
    exists w, (dq :: q ++ [dq]), tl. split; [chain | ].
    split; [exact Fw | ]. split; [ | split; [reflexivity | exact St]].
    right. unfold group. cbn [m_groups]. unfold set_group at 1. cbn [gname_eqb].
    rewrite Eq. split; [reflexivity | ]. exists q. split; [ | reflexivity].
    unfold set_group. cbn [gname_eqb]. now rewrite Eq.
  - match goal with H : Matches text_unit _ _ _ _ |- _ =>
      apply Matches_text_unit in H; destruct H as (u & Au & Nu & Fu & ->) end.
    exists w, u, tl. split; [chain | ].
    split; [exact Fw | ]. split; [ | split; [reflexivity | exact St]].
    left. now repeat split.
Qed.

Lemma match_at_advances r c m :
  match_at r c = Some m -> exists w, advances c w (m_end m) /\ group0 m = w.
Proof.
  intros H. apply match_at_sound in H. destruct H as [S M].
  destruct (Matches_advances M) as (w & A). exists w. split; [exact A | ].
  unfold group0. rewrite S. now apply advances_span.
Qed.

Lemma scan_raw r : forall fuel c,
  length (rest c) < fuel -> concat (List.map raw (scan r fuel c)) = rest c.
Proof.
  induction fuel as [ | fuel IH]; intros c L; [lia | ].
  cbn [scan]. destruct (match_at r c) as [m | ] eqn:E.
  - destruct (match_at_advances _ _ E) as (w & [R P] & G).
    cbn [List.map concat raw]. rewrite G. clear G.
    destruct (pos (m_end m) =? pos c) eqn:Q.
    + apply Nat.eqb_eq in Q.
      assert (w = []) by (destruct w; [reflexivity | simpl in P; lia]). subst w.
      simpl in R. simpl. destruct c as [i [ | x t]]; cbn [rest pos] in *.
      * reflexivity.
      * cbn [List.map concat raw]. rewrite IH by (simpl in *; lia). reflexivity.
    + apply Nat.eqb_neq in Q.
      assert (w <> []) by (intros ->; simpl in P; lia).
      rewrite IH.
      * now rewrite R.
      * rewrite R, length_app in L. destruct w; [contradiction | simpl in L; lia].
  - destruct c as [i [ | x t]]; cbn [rest pos] in *.
    + reflexivity.
    + cbn [List.map concat raw]. rewrite IH by (simpl in *; lia). reflexivity.
Qed.

Lemma found_in_scan r m : forall fuel c,
  In m (found (scan r fuel c)) ->
  exists pre c0, rest c = pre ++ rest c0 /\ match_at r c0 = Some m.
Proof.
  induction fuel as [ | fuel IH]; intros c H; [contradiction | ].
  cbn [scan] in H.
  assert (step : forall x t, rest c = x :: t ->
            In m (found (scan r fuel (Cursor (S (pos c)) t))) ->
            exists pre c0, rest c = pre ++ rest c0 /\ match_at r c0 = Some m).
  { intros x t R I. apply IH in I. destruct I as (pre & c0 & R0 & M0).
    exists (x :: pre), c0. split; [ | exact M0]. rewrite R. simpl in *. now rewrite R0. }
  destruct (match_at r c) as [m' | ] eqn:E.
  - cbn [found] in H. destruct H as [-> | H].
    + exists [], c. now split.
    + destruct (pos (m_end m') =? pos c).
      * destruct (rest c) as [ | x t] eqn:R; [contradiction | ].
        now apply step with x t.
      * apply IH in H. destruct H as (pre & c0 & R0 & M0).
        destruct (match_at_advances _ _ E) as (w & [R P] & G).
        exists (w ++ pre), c0. split; [ | exact M0].
        now rewrite R, R0, app_assoc.
  - destruct (rest c) as [ | x t] eqn:R; [contradiction | ].
    now apply step with x t.
Qed.

(** ** The reference tokenizer *)

Lemma tokens_delims d w s :
  forallb d w = true -> tokens d (w ++ s) [] = tokens d s [].
Proof.
  induction w as [ | x w IH]; simpl; intros F; [reflexivity | ].
  apply andb_prop in F. destruct F as [Fx F]. rewrite Fx. auto.
Qed.

Lemma tokens_run d u : forall s cur,
  forallb (fun x => negb (d x)) u = true ->
  tokens d (u ++ s) cur = tokens d s (cur ++ u).
Proof.
  induction u as [ | x u IH]; simpl; intros s cur F.
  - now rewrite app_nil_r.
  - apply andb_prop in F. destruct F as [Fx F].
    apply negb_true_iff in Fx. rewrite Fx, IH by exact F.
    now rewrite <- app_assoc.
Qed.

Lemma tokens_close d u tl r :
  u <> [] -> forallb d tl = true -> d nl = true ->
  tl <> [] \/ r = [] \/ r = [nl] ->
  tokens d (tl ++ r) u = u :: tokens d r [].
Proof.
  intros Nu F Dn H. destruct tl as [ | x tl].
  - destruct H as [H | [-> | ->]]; [contradiction | | ]; simpl.
    + destruct u; [contradiction | reflexivity].
    + rewrite Dn. destruct u; [contradiction | reflexivity].
  - simpl in *. apply andb_prop in F. destruct F as [Fx F]. rewrite Fx.
    destruct u; [contradiction | ]. now rewrite tokens_delims.
Qed.

Lemma tokens_ext d1 d2 : forall s cur,
  (forall x, In x s -> d1 x = d2 x) -> tokens d1 s cur = tokens d2 s cur.
Proof.
  induction s as [ | x s IH]; simpl; intros cur H; [reflexivity | ].
  rewrite <- (H x) by now left.
  destruct (d1 x); destruct cur; rewrite ?IH; auto.
Qed.

Lemma tokens_Forall (P : char -> Prop) d : forall s cur,
  Forall P s -> Forall P cur -> Forall (Forall P) (tokens d s cur).
Proof.
  induction s as [ | x s IH]; simpl; intros cur Hs Hc.
  - destruct cur; constructor; [exact Hc | constructor].
  - inv Hs. destruct (d x).
    + destruct cur; [now apply IH | ]. constructor; [exact Hc | now apply IH].
    + apply IH; [assumption | ]. apply Forall_app. split; [assumption | now repeat constructor].
Qed.

Lemma forallb_impl (p q : char -> bool) l :
  (forall x, p x = true -> q x = true) -> forallb p l = true -> forallb q l = true.
Proof.
  intros H F. rewrite forallb_forall in *. auto.
Qed.

Lemma tail_shape_delims r tl :
  tail_shape r tl ->
  forallb is_delim tl = true /\ (tl <> [] \/ r = [] \/ r = [nl]).
Proof.
  assert (S : forall x, is_space x = true -> is_delim x = true)
    by (intros x H; unfold is_delim; now rewrite H).
  intros [H | a x b Fa Cx Fb | w Hw].
  - split; [reflexivity | tauto].
  - split; [ | left; now destruct a].
    rewrite forallb_app. simpl. unfold is_delim at 2. rewrite Cx, orb_true_r.
    now rewrite (forallb_impl _ _ _ S Fa), (forallb_impl _ _ _ S Fb).
  - destruct w as [ | y w]; [discriminate | ].
    split; [ | left; discriminate]. unfold isspace in Hw.
    now apply (forallb_impl _ _ _ S).
Qed.

(** ** Inputs on which no quoted unit can match *)

Lemma count_dq_app s t : count_dq (s ++ t) = count_dq s + count_dq t.
Proof. apply count_occ_app. Qed.

Lemma count_dq_quoted q : 2 <= count_dq (dq :: q ++ [dq]).
Proof.
  change (dq :: q ++ [dq]) with ([dq] ++ q ++ [dq]).
  rewrite !count_dq_app. unfold count_dq at 1 3. simpl. lia.
Qed.

Lemma scan_tokens : forall fuel c,
  length (rest c) < fuel -> count_dq (rest c) <= 1 ->
  List.map payload (found (scan _re_arg_splitter fuel c)) =
  List.map Some (tokens is_delim (rest c) []).
Proof.
  induction fuel as [ | fuel IH]; intros c L Q; [lia | ].
  cbn [scan]. destruct (match_at _re_arg_splitter c) as [m | ] eqn:E.
  - destruct (splitter_shape _ E) as (_ & w & u & tl & [R P] & Fw & U & T & S).
    destruct U as [(Ut & Uq & Nu & Fu) | (_ & q & _ & ->)].
    + apply tail_shape_delims in S. destruct S as [Ft S].
      replace (pos (m_end m) =? pos c) with false.
      2:{ symmetry. apply Nat.eqb_neq. rewrite P, !length_app.
          destruct u; [contradiction | simpl; lia]. }
      cbn [found List.map]. rewrite IH.
      * unfold payload at 1. rewrite Ut, R, <- !app_assoc.
        rewrite tokens_delims
          by (apply forallb_impl with (p := is_space); [ | exact Fw];
              intros x H; unfold is_delim; now rewrite H).
        rewrite tokens_run by exact Fu.
        rewrite tokens_close; auto.
      * rewrite R, !length_app in L. destruct u; [contradiction | simpl in L; lia].
      * rewrite R, !count_dq_app in Q. lia.
    + exfalso. rewrite R, !count_dq_app in Q.
      pose proof (count_dq_quoted q). lia.
  - destruct c as [i [ | x t]]; cbn [rest pos] in *; [reflexivity | ].
    cbn [found]. rewrite IH.
    + cbn [rest]. destruct (is_delim x) eqn:D.
      * simpl. now rewrite D.
      * exfalso. revert E. apply splitter_succeeds with x t; [reflexivity | ].
        unfold text_char. fold (is_delim x). now rewrite D.
    + simpl in *. lia.
    + cbn [rest]. unfold count_dq in *. simpl in Q.
      destruct (N.eq_dec x dq); lia.
Qed.

(** ** The loops of [split_args] *)

Lemma resolve_all_some l :
  resolve_all (List.map Some l) = Some (List.map resolve_escapes l).
Proof.
  induction l as [ | s l IH]; simpl; [reflexivity | now rewrite IH].
Qed.

Lemma comma_separated_treat ms :
  comma_separated_after true ms false = Some false.
Proof. induction ms; simpl; auto. Qed.

Lemma comma_separated_none ms :
  Forall (fun m => has_comma_tail m = Some false) ms ->
  comma_separated_after false ms false = Some false.
Proof.
  induction 1 as [ | m ms H _ IH]; simpl; [reflexivity | now rewrite H].
Qed.

Lemma finditer_origin r s m :
  In m (finditer r s) ->
  exists pre c0, s = pre ++ rest c0 /\ match_at r c0 = Some m.
Proof. intros H. apply found_in_scan in H. exact H. Qed.

Lemma no_comma_tail c m :
  no_comma (rest c) -> match_at _re_arg_splitter c = Some m ->
  has_comma_tail m = Some false.
Proof.
  intros N E.
  destruct (splitter_shape _ E) as (_ & w & u & tl & [R P] & Fw & U & T & S).
  unfold has_comma_tail. rewrite T. destruct S as [H | a x b Fa Cx Fb | t Ht].
  - reflexivity.
  - exfalso. rewrite (N x) in Cx; [discriminate | ].
    rewrite R. apply in_or_app; left. apply in_or_app; right.
    apply in_or_app; right. apply in_or_app; right. now left.
  - rewrite Ht. now destruct t.
Qed.

Lemma no_comma_tails s :
  no_comma s ->
  Forall (fun m => has_comma_tail m = Some false) (finditer _re_arg_splitter s).
Proof.
  intros N. apply Forall_forall. intros m H.
  apply finditer_origin in H. destruct H as (pre & c0 & R & E).
  apply no_comma_tail with c0; [ | exact E].
  intros x I. apply N. rewrite R, in_app_iff. now right.
Qed.

Lemma finditer_tokens s :
  count_dq s <= 1 ->
  List.map payload (finditer _re_arg_splitter s) =
  List.map Some (tokens is_delim s []).
Proof.
  intros Q. unfold finditer, scan_all.
  now rewrite scan_tokens by (simpl; auto).
Qed.

Lemma count_dq_0 s : ~ In dq s -> count_dq s = 0.
Proof. intros H. now apply count_occ_not_In. Qed.

(** ** The unescaping pattern needs a double quote *)

Lemma Matches_lit x c e c' e' :
  Matches (Lit x) c e c' e' -> e' = e /\ advances c [x] c'.
Proof.
  intros M. inv M.
  match goal with H : (_ =? _)%N = true |- _ => apply N.eqb_eq in H; subst end.
  split; [reflexivity | apply advances_step].
Qed.

Lemma unescape_needs_dq c m :
  match_at _re_remove_escaped_quote c = Some m -> In dq (rest c).
Proof.
  intros H. apply match_at_sound in H. destruct H as [_ M].
  unfold _re_remove_escaped_quote in M. inv M.
  match goal with H : Matches (Cat (Lit bs) (Lit dq)) _ _ _ _ |- _ => inv H end.
  repeat match goal with H : Matches (Lit _) _ _ _ _ |- _ =>
    apply Matches_lit in H; destruct H as (_ & ?A) end.
  match goal with H : Matches (Group _ _) _ _ _ _ |- _ =>
    destruct (Matches_advances H) as (g & Ag) end.
  assert (A1 : advances c (g ++ [bs] ++ [dq]) (m_end m)) by chain.
  destruct A1 as [R _]. rewrite R. apply in_or_app; left.
  apply in_or_app; right. apply in_or_app; right. now left.
Qed.

Lemma unescape_progress c m :
  match_at _re_remove_escaped_quote c = Some m ->
  (pos (m_end m) =? pos c) = false.
Proof.
  intros H. apply match_at_sound in H. destruct H as [_ M].
  unfold _re_remove_escaped_quote in M. inv M.
  match goal with H : Matches (Cat (Lit bs) (Lit dq)) _ _ _ _ |- _ => inv H end.
  repeat match goal with H : Matches (Lit _) _ _ _ _ |- _ =>
    apply Matches_lit in H; destruct H as (_ & ?A) end.
  match goal with H : Matches (Group _ _) _ _ _ _ |- _ =>
    destruct (Matches_advances H) as (g & Ag) end.
  assert (A1 : advances c (g ++ [bs] ++ [dq]) (m_end m)) by chain.
  destruct A1 as [_ P]. apply Nat.eqb_neq. rewrite P, !length_app. simpl. lia.
Qed.

Lemma scan_no_match r : forall fuel c,
  length (rest c) < fuel ->
  (forall c0 m, match_at r c0 = Some m -> exists x, In x (rest c0) /\ ~ In x (rest c)) ->
  scan r fuel c = List.map Skipped (rest c).
Proof.
  induction fuel as [ | fuel IH]; intros c L H; [lia | ].
  cbn [scan]. destruct (match_at r c) as [m | ] eqn:E.
  - apply H in E. destruct E as (x & I & NI). contradiction.
  - destruct c as [i [ | x t]]; cbn [rest pos] in *; [reflexivity | ].
    rewrite IH; [reflexivity | simpl in *; lia | ].
    intros c0 m E0. destruct (H c0 m E0) as (y & I & NI).
    exists y. split; [exact I | ]. cbn [rest]. intros J. apply NI. now right.
Qed.

Lemma re_sub_no_dq s :
  ~ In dq s -> re_sub _re_remove_escaped_quote quote_template s = s.
Proof.
  intros N. unfold re_sub, scan_all. rewrite scan_no_match.
  - cbn [rest]. induction s as [ | x s IH]; [reflexivity | ].
    simpl. f_equal. apply IH. intros I. apply N. now right.
  - simpl. lia.
  - intros c0 m E. exists dq. split; [ | exact N].
    now apply unescape_needs_dq with m.
Qed.

Lemma resolve_escapes_no_dq s :
  ~ In dq s -> resolve_escapes s = replace2 bs bs [bs] s.
Proof. intros N. unfold resolve_escapes. now rewrite re_sub_no_dq. Qed.

Lemma split_args_whitespace_mode s b l :
  comma_separated_after b (finditer _re_arg_splitter s) false = Some false ->
  List.map payload (finditer _re_arg_splitter s) = List.map Some l ->
  split_args s b = Some (List.map resolve_escapes l).
Proof.
  intros C P. unfold split_args. cbv zeta. rewrite C, P. apply resolve_all_some.
Qed.

Lemma no_comma_delims s x : no_comma s -> In x s -> is_delim x = is_space x.
Proof.
  intros N I. unfold is_delim. rewrite (N x I). apply orb_false_r.
Qed.

Lemma map_ext_Forall (f g : str -> str) l :
  Forall (fun s => f s = g s) l -> List.map f l = List.map g l.
Proof. induction 1; simpl; congruence. Qed.

(** ** What the scan skips *)

Lemma splitter_nonempty c m :
  match_at _re_arg_splitter c = Some m ->
  exists x w, group0 m = x :: w /\ advances c (x :: w) (m_end m).
Proof.
  intros E. destruct (match_at_advances _ _ E) as (g & A & G).
  destruct (splitter_shape _ E) as (_ & w & u & tl & A' & _ & U & _).
  rewrite <- (advances_inj A' A) in *.
  assert (Nu : u <> []) by (destruct U as [(_ & _ & Nu & _) | (_ & q & _ & ->)];
                            [exact Nu | discriminate]).
  destruct (w ++ u ++ tl) as [ | x r] eqn:W.
  - apply app_eq_nil in W. destruct W as [_ W].
    apply app_eq_nil in W. destruct W as [W _]. contradiction.
  - now exists x, r.
Qed.

Lemma splitter_progress c m :
  match_at _re_arg_splitter c = Some m -> (pos (m_end m) =? pos c) = false.
Proof.
  intros E. destruct (splitter_nonempty _ E) as (x & w & _ & [_ P]).
  apply Nat.eqb_neq. rewrite P. simpl. lia.
Qed.

Lemma scan_skips : forall fuel c,
  Forall skips_only_delims (scan _re_arg_splitter fuel c).
Proof.
  induction fuel as [ | fuel IH]; intros c; [constructor | ].
  cbn [scan]. destruct (match_at _re_arg_splitter c) as [m | ] eqn:E.
  - rewrite (splitter_progress _ E). constructor; [exact I | apply IH].
  - destruct c as [i [ | x t]]; cbn [rest pos] in *; [constructor | ].
    constructor; [ | apply IH]. simpl.
    destruct (is_delim x) eqn:D; [reflexivity | ].
    exfalso. revert E. apply splitter_succeeds with x t; [reflexivity | ].
    unfold text_char. fold (is_delim x). now rewrite D.
Qed.

(** ** [split_args] always returns *)

Lemma splitter_well_formed c m :
  match_at _re_arg_splitter c = Some m -> well_formed m.
Proof.
  intros E.
  destruct (splitter_shape _ E) as (_ & w & u & tl & _ & _ & U & T & _).
  split; [now exists tl | ]. unfold payload.
  destruct U as [(Ut & Uq & Nu & Fu) | (Ut & q & Uq & ->)]; rewrite Ut.
  - split; [now exists u | ]. destruct u; [contradiction | discriminate].
  - rewrite Uq. split; [now exists q | now exists q].
Qed.

Lemma finditer_well_formed s : Forall well_formed (finditer _re_arg_splitter s).
Proof.
  apply Forall_forall. intros m H. apply finditer_origin in H.
  destruct H as (pre & c0 & _ & E). now apply splitter_well_formed with c0.
Qed.

Lemma found_length : forall fuel c,
  length (found (scan _re_arg_splitter fuel c)) <= length (rest c).
Proof.
  induction fuel as [ | fuel IH]; intros c; [simpl; lia | ].
  cbn [scan]. destruct (match_at _re_arg_splitter c) as [m | ] eqn:E.
  - rewrite (splitter_progress _ E). cbn [found length].
    destruct (splitter_nonempty _ E) as (x & w & _ & [R _]).
    specialize (IH (m_end m)). rewrite R. simpl. rewrite length_app. lia.
  - destruct c as [i [ | x t]]; cbn [rest pos] in *; [simpl; lia | ].
    cbn [found]. specialize (IH (Cursor (S i) t)). simpl in *. lia.
Qed.

Lemma comma_separated_returns b ms : forall acc,
  Forall well_formed ms -> exists r, comma_separated_after b ms acc = Some r.
Proof.
  induction ms as [ | m ms IH]; intros acc F; simpl; [now exists acc | ].
  inv F. destruct acc; [now apply IH | ]. destruct b; [now apply IH | ].
  match goal with H : well_formed m |- _ => destruct H as ((tl & T) & _) end.
  unfold has_comma_tail. rewrite T. destruct tl; now apply IH.
Qed.

Lemma resolve_all_returns ret :
  Forall is_some ret ->
  exists l, resolve_all ret = Some l /\ length l = length ret.
Proof.
  induction 1 as [ | o ret (s & ->) _ (l & E & L)]; simpl.
  - now exists [].
  - rewrite E. exists (resolve_escapes s :: l). simpl. now rewrite L.
Qed.

Lemma combine_loop_returns ms : forall combine ret,
  Forall well_formed ms -> Forall well_formed combine -> Forall is_some ret ->
  exists ret' combine',
    combine_loop ms combine ret = Some (ret', combine') /\
    Forall is_some ret' /\ Forall well_formed combine' /\
    length ret' + open_field combine' <=
    length ret + open_field combine + length ms.
Proof.
  induction ms as [ | m ms IH]; intros combine ret Fm Fc Fr; cbn [combine_loop].
  - exists ret, combine. repeat split; auto. simpl. lia.
  - inv Fm.
    match goal with H : well_formed m |- _ =>
      pose proof H as W; destruct H as (_ & _ & Q) end.
    assert (close : forall s,
      exists ret' combine',
        combine_loop ms [] (ret ++ [Some s]) = Some (ret', combine') /\
        Forall is_some ret' /\ Forall well_formed combine' /\
        length ret' + open_field combine' <=
        length ret + open_field combine + length (m :: ms)).
    { intros s. destruct (IH [] (ret ++ [Some s])) as (r' & c' & E & F1 & F2 & L).
      - assumption.
      - constructor.
      - apply Forall_app. split; [assumption | ]. repeat constructor. now exists s.
      - exists r', c'. repeat split; auto.
        rewrite length_app in L. simpl in *. lia. }
    destruct (ends_with_comma m).
    + destruct (truthy (group text m)) eqn:T.
      * destruct (group text m) as [t | ]; [apply close | discriminate].
      * destruct (Q eq_refl) as (q & ->). destruct combine; apply close.
    + destruct (IH (combine ++ [m]) ret) as (r' & c' & E & F1 & F2 & L);
        try assumption.
      * apply Forall_app. split; [assumption | ].
        constructor; [exact W | constructor].
      * exists r', c'. repeat split; auto.
        assert (open_field (combine ++ [m]) = 1) by (now destruct combine).
        simpl. lia.
Qed.

Lemma last_arg_returns combine :
  combine <> [] -> Forall well_formed combine ->
  exists a, last_arg combine = Some a.
Proof.
  intros N F. unfold last_arg.
  destruct (if length combine =? 1 then _ else _) as [q | ];
    [now exists q | ].
  assert (W : well_formed (last combine no_match)).
  { rewrite Forall_forall in F. apply F.
    destruct (exists_last N) as (l & a & ->). rewrite last_last.
    apply in_or_app. right. now left. }
  destruct W as (_ & (p & ->) & _). eexists. reflexivity.
Qed.

(** For every input and either flag [split_args] returns a list, without
    raising, and the list has at most as many arguments as the input has
    characters. *)
Lemma split_args_returns s b :
  exists l, split_args s b = Some l /\ length l <= length s.
Proof.
  unfold split_args. cbv zeta.
  pose proof (finditer_well_formed s) as W.
  assert (B : length (finditer _re_arg_splitter s) <= length s)
    by apply (found_length (S (length s)) (Cursor 0 s)).
  destruct (comma_separated_returns b false W) as ([ | ] & ->).
  - unfold comma_mode.
    destruct (combine_loop_returns (ret := []) W (Forall_nil _) (Forall_nil _))
      as (ret & combine & -> & Fr & Fc & L).
    simpl in L. destruct combine as [ | m0 combine].
    + destruct (resolve_all_returns Fr) as (l & -> & E).
      exists l. split; [reflexivity | simpl in L; lia].
    + destruct (last_arg_returns (combine := m0 :: combine)) as (a & ->);
        [discriminate | exact Fc | ].
      destruct (resolve_all_returns (ret := ret ++ [Some a])) as (l & -> & E).
      * apply Forall_app. split; [exact Fr | ]. repeat constructor. now exists a.
      * exists l. split; [reflexivity | ].
        rewrite E, length_app. simpl in *. lia.
  - destruct (resolve_all_returns (ret := List.map payload (finditer _re_arg_splitter s)))
      as (l & -> & E).
    + apply Forall_forall. intros o I. apply in_map_iff in I.
      destruct I as (m & <- & I). rewrite Forall_forall in W.
      destruct (W m I) as (_ & (p & ->) & _). now exists p.
    + exists l. split; [reflexivity | ]. rewrite E, length_map. exact B.
Qed.

(** ** The iteration bounds are never reached *)

Lemma rmatch_ext r : forall c e k k',
  (forall c' e' w, advances c w c' -> k c' e' = k' c' e') ->
  rmatch r c e k = rmatch r c e k'.
Proof.
  induction r as [ | p | r1 IH1 r2 IH2 | r1 IH1 r2 IH2 | r1 IH1 | g r1 IH1 | | ];
    intros c e k k' H.
  - simpl. apply H with []. apply advances_refl.
  - rewrite !rmatch_cls. destruct c as [i [ | x t]]; [reflexivity | ].
    cbn [rest pos]. destruct (p x); [ | reflexivity].
    apply H with [x]. apply advances_step.
  - rewrite !rmatch_cat. apply IH1. intros c1 e1 w1 A1.
    apply IH2. intros c2 e2 w2 A2. apply H with (w1 ++ w2).
    now apply advances_trans with c1.
  - rewrite !rmatch_alt, (IH1 c e k k' H), (IH2 c e k k' H). reflexivity.
  - rewrite !rmatch_star. generalize (length (rest c)). intros n.
    revert c e H. induction n as [ | n IHn]; intros c e H.
    + rewrite !star_loop_unfold.
      rewrite (IH1 c e _ (fun c' e' => k' c' e')).
      * now rewrite (H c e [] (advances_refl c)).
      * intros c1 e1 w1 A1. now apply H with w1.
    + rewrite !star_loop_unfold.
      match goal with
      | |- match rmatch r1 c e ?K with _ => _ end = match rmatch r1 c e ?K' with _ => _ end =>
          rewrite (IH1 c e K K')
      end.
      * now rewrite (H c e [] (advances_refl c)).
      * intros c1 e1 w1 A1. cbv beta. destruct (pos c1 =? pos c).
        -- now apply H with w1.
        -- apply IHn. intros c2 e2 w2 A2. apply H with (w1 ++ w2).
           now apply advances_trans with c1.
  - rewrite !rmatch_group. apply IH1. intros c1 e1 w1 A1. now apply H with w1.
  - simpl. destruct (pos c =? 0); [ | reflexivity].
    apply H with []. apply advances_refl.
  - simpl. destruct (rest c) as [ | x [ | y t]]; try reflexivity.
    + apply H with []. apply advances_refl.
    + destruct (x =? nl)%N; [ | reflexivity]. apply H with []. apply advances_refl.
Qed.

Lemma advances_length c w c' :
  advances c w c' -> length (rest c) = length w + length (rest c').
Proof. intros [R _]. now rewrite R, length_app. Qed.

Lemma advances_pos c w c' :
  advances c w c' -> (pos c' =? pos c) = false -> w <> [].
Proof.
  intros [_ P] Q ->. apply Nat.eqb_neq in Q. simpl in P. lia.
Qed.

Lemma star_loop_fuel r k : forall n m c e,
  length (rest c) <= n -> length (rest c) <= m ->
  star_loop (rmatch r) n c e k = star_loop (rmatch r) m c e k.
Proof.
  induction n as [ | n IH]; intros m c e Ln Lm; rewrite !star_loop_unfold.
  - match goal with
    | |- match rmatch r c e ?K with _ => _ end = match rmatch r c e ?K' with _ => _ end =>
        rewrite (@rmatch_ext r c e K K'); [reflexivity | ]
    end.
    intros c1 e1 w1 A1. destruct m as [ | m]; [reflexivity | ].
    destruct (pos c1 =? pos c) eqn:Q; [reflexivity | ].
    pose proof (advances_pos A1 Q). pose proof (advances_length A1).
    destruct w1; [contradiction | simpl in *; lia].
  - match goal with
    | |- match rmatch r c e ?K with _ => _ end = match rmatch r c e ?K' with _ => _ end =>
        rewrite (@rmatch_ext r c e K K'); [reflexivity | ]
    end.
    intros c1 e1 w1 A1. destruct (pos c1 =? pos c) eqn:Q.
    + destruct m; reflexivity.
    + pose proof (advances_pos A1 Q). pose proof (advances_length A1).
      destruct w1; [contradiction | ].
      destruct m as [ | m]; [simpl in *; lia | ].
      apply IH; simpl in *; lia.
Qed.

Lemma scan_fuel r : forall n m c,
  length (rest c) < n -> length (rest c) < m -> scan r n c = scan r m c.
Proof.
  induction n as [ | n IH]; intros m c Ln Lm; [lia | ].
  destruct m as [ | m]; [lia | ]. cbn [scan].
  assert (step : forall x t, rest c = x :: t ->
            scan r n (Cursor (S (pos c)) t) = scan r m (Cursor (S (pos c)) t)).
  { intros x t R. rewrite R in *. apply IH; simpl in *; lia. }
  destruct (match_at r c) as [m0 | ] eqn:E.
  - f_equal. destruct (pos (m_end m0) =? pos c) eqn:Q.
    + destruct (rest c) as [ | x t] eqn:R; [reflexivity | ].
      f_equal. now apply step with x.
    + destruct (match_at_advances _ _ E) as (w & A & _).
      pose proof (advances_pos A Q). pose proof (advances_length A).
      destruct w; [contradiction | ]. apply IH; simpl in *; lia.
  - destruct (rest c) as [ | x t] eqn:R; [reflexivity | ].
    f_equal. now apply step with x.
Qed.

Lemma no_commas_spec s : no_commas s = true -> no_comma s.
Proof.
  unfold no_commas. rewrite forallb_forall. intros H x I.
  apply negb_true_iff. now apply H.
Qed.

Lemma no_quotes_spec s : no_quotes s = true -> ~ In dq s.
Proof.
  unfold no_quotes. rewrite forallb_forall. intros H I.
  specialize (H dq I). discriminate.
Qed.

(** ** The match of a quoted unit with plain content *)

Lemma rmatch_lit_fails x c e k :
  match rest c with [] => True | y :: _ => (x =? y)%N = false end ->
  rmatch (Lit x) c e k = None.
Proof.
  intros H. unfold Lit. rewrite rmatch_cls.
  destruct (rest c); [reflexivity | now rewrite H].
Qed.

Lemma rmatch_lit_ok x i t e k :
  rmatch (Lit x) (Cursor i (x :: t)) e k = k (Cursor (S i) t) e.
Proof. unfold Lit. rewrite rmatch_cls. cbn [rest pos]. now rewrite N.eqb_refl. Qed.

Lemma backslash_pairs_skip n c e k :
  match rest c with [] => True | y :: _ => (bs =? y)%N = false end ->
  star_loop (rmatch (Cat (Lit bs) (Lit bs))) n c e k = k c e.
Proof.
  intros H. rewrite star_loop_unfold, rmatch_cat, rmatch_lit_fails by exact H.
  reflexivity.
Qed.

Lemma quoted_body_plain k x : forall q i n e r,
  forallb plain q = true -> length (q ++ dq :: r) <= n ->
  (forall c' e', match rest c' with [] => True | y :: _ => (dq =? y)%N = false end ->
                 k c' e' = None) ->
  k (Cursor (i + length q) (dq :: r)) e = Some x ->
  star_loop (rmatch quoted_item) n (Cursor i (q ++ dq :: r)) e k = Some x.
Proof.
  induction q as [ | a q IH]; intros i n e r F L C K.
  - rewrite star_loop_unfold. unfold quoted_item at 1.
    rewrite rmatch_alt. unfold backslash_pairs at 1.
    rewrite rmatch_star, backslash_pairs_skip by reflexivity.
    cbn [app pos]. rewrite Nat.eqb_refl.
    simpl in K. rewrite Nat.add_0_r in K.
    destruct n; rewrite K; reflexivity.
  - simpl in F. apply andb_prop in F. destruct F as [Fa F].
    unfold plain in Fa. apply andb_prop in Fa. destruct Fa as [Fd Fb].
    unfold not_dq in Fd. unfold not_bs in Fb.
    apply negb_true_iff in Fd, Fb.
    destruct n as [ | n]; [simpl in L; lia | ].
    rewrite star_loop_unfold. unfold quoted_item at 1.
    rewrite rmatch_alt. unfold backslash_pairs at 1.
    rewrite rmatch_star, backslash_pairs_skip
      by (cbn [rest app]; now rewrite N.eqb_sym).
    cbn [pos]. rewrite Nat.eqb_refl.
    rewrite C by (cbn [rest app]; now rewrite N.eqb_sym).
    rewrite rmatch_alt, rmatch_cat.
    rewrite rmatch_lit_fails by (cbn [rest app]; now rewrite N.eqb_sym).
    rewrite rmatch_cls. cbn [rest app pos].
    unfold not_dq at 1. rewrite Fd. cbn [negb].
    replace (S i =? i) with false by (symmetry; apply Nat.eqb_neq; lia).
    rewrite (IH (S i) n e r F); [reflexivity | simpl in L; lia | exact C | ].
    now replace (S i + length q) with (i + length (a :: q)) by (simpl; lia).
Qed.

Lemma star_cls_value p k : forall w i n e r,
  forallb p w = true ->
  match r with [] => True | y :: _ => p y = false end ->
  length (w ++ r) <= n ->
  k (Cursor (i + length w) r) e <> None ->
  star_loop (rmatch (Cls p)) n (Cursor i (w ++ r)) e k
  = k (Cursor (i + length w) r) e.
Proof.
  intros w i n e r F E L K.
  destruct (k (Cursor (i + length w) r) e) as [x | ] eqn:V; [ | contradiction].
  now apply star_cls_greedy with w r.
Qed.

Lemma tail_comma_value i a x b r e :
  forallb is_space a = true -> is_comma x = true -> forallb is_space b = true ->
  match r with [] => True | y :: _ => is_space y = false end ->
  rmatch tail_part (Cursor i (a ++ x :: b ++ r)) e final
  = Some (Cursor (i + length (a ++ x :: b)) r, set_group tail (a ++ x :: b) e).
Proof.
  intros Fa Cx Fb E. set (c := Cursor i (a ++ x :: b ++ r)).
  set (c' := Cursor (i + length (a ++ x :: b)) r).
  assert (A : advances c (a ++ x :: b) c').
  { split; cbn [rest pos]; [now rewrite <- app_assoc | reflexivity]. }
  assert (Sx : is_space x = false) by now apply comma_not_space.
  unfold tail_part. rewrite rmatch_group, rmatch_alt.
  assert (E1 : forall k, rmatch Eol c e k = None).
  { intros k. simpl. destruct a as [ | y a]; simpl.
    - destruct (b ++ r); [ | reflexivity].
      destruct (N.eqb_spec x nl); [subst x; discriminate | reflexivity].
    - destruct a; simpl; reflexivity. }
  rewrite E1, rmatch_alt, rmatch_cat, rmatch_star.
  unfold c at 2. unfold ws.
  rewrite star_cls_value; cbn [rest pos]; auto.
  - rewrite rmatch_cat, rmatch_cls. cbn [rest pos]. rewrite Cx, rmatch_star.
    cbn [rest]. rewrite star_cls_value; cbn [rest pos]; auto.
    + unfold final.
      replace (S (i + length a) + length b) with (i + length (a ++ x :: b))
        by (rewrite length_app; simpl; lia).
      fold c'. now rewrite (advances_span A).
    + unfold final. discriminate.
  - rewrite rmatch_cat, rmatch_cls. cbn [rest pos]. rewrite Cx, rmatch_star.
    apply star_loop_succeeds. unfold final. discriminate.
Qed.

Lemma scan_at_end r fuel i :
  match_at r (Cursor i []) = None -> scan r fuel (Cursor i []) = [].
Proof. intros H. destruct fuel; [reflexivity | ]. cbn [scan]. now rewrite H. Qed.

Lemma splitter_at_end i : match_at _re_arg_splitter (Cursor i []) = None.
Proof. reflexivity. Qed.

Lemma replace2_no_bs s :
  forallb not_bs s = true -> replace2 bs bs [bs] s = s.
Proof.
  induction s as [ | a s IH]; [reflexivity | ].
  intros F. simpl in F. apply andb_prop in F. destruct F as [Fa F].
  unfold not_bs in Fa. apply negb_true_iff in Fa.
  cbn [replace2]. destruct s as [ | b t]; [reflexivity | ].
  rewrite Fa. cbn [andb]. now rewrite IH.
Qed.

Lemma scan_found r fuel c m :
  match_at r c = Some m -> (pos (m_end m) =? pos c) = false ->
  scan r (S fuel) c = Found m :: scan r fuel (m_end m).
Proof. intros E P. cbn [scan]. now rewrite E, P. Qed.

Lemma first_stop_unique (p : char -> bool) : forall a x t1 w y t2,
  a ++ x :: t1 = w ++ y :: t2 ->
  forallb p a = true -> p x = false -> forallb p w = true -> p y = false ->
  a = w /\ x = y /\ t1 = t2.
Proof.
  induction a as [ | a0 a IH]; intros x t1 w y t2 E Fa Px Fw Py.
  - destruct w as [ | w0 w]; simpl in *.
    + injection E as -> ->. auto.
    + injection E as -> _. apply andb_prop in Fw. destruct Fw as [Fw _]. congruence.
  - destruct w as [ | w0 w]; simpl in *.
    + injection E as -> _. apply andb_prop in Fa. destruct Fa as [Fa _]. congruence.
    + injection E as -> E. apply andb_prop in Fa, Fw.
      destruct Fa as [_ Fa], Fw as [_ Fw].
      destruct (IH x t1 w y t2 E Fa Px Fw Py) as (-> & -> & ->). auto.
Qed.

Lemma comma_alternative_fails c e k w y r :
  rest c = w ++ y :: r -> forallb is_space w = true ->
  is_space y = false -> is_comma y = false ->
  rmatch (Cat (Star ws) (Cat (Cls is_comma) (Star ws))) c e k = None.
Proof.
  intros R Fw Sy Cy.
  destruct (rmatch _ c e k) as [x | ] eqn:E; [exfalso | reflexivity].
  apply rmatch_sound in E. destruct E as (c' & e' & M & _).
  inv M.
  match goal with H : Matches (Star ws) _ _ _ _ |- _ =>
    apply Matches_star_cls in H; destruct H as (_ & a & [Ra _] & Fa) end.
  match goal with H : Matches (Cat _ _) _ _ _ _ |- _ => inv H end.
  match goal with H : Matches (Cls is_comma) _ _ _ _ |- _ => inv H end.
  cbn [rest] in Ra. rewrite R in Ra.
  match goal with H : is_comma ?x = true |- _ =>
    destruct (first_stop_unique is_space a x _ w y r (eq_sym Ra) Fa
                (comma_not_space x H) Fw Sy) as (_ & -> & _);
    congruence
  end.
Qed.

Lemma tail_space_value i s0 w y r e :
  forallb is_space (s0 :: w) = true -> text_char y = true ->
  rmatch tail_part (Cursor i (s0 :: w ++ y :: r)) e final
  = Some (Cursor (i + length (s0 :: w)) (y :: r), set_group tail (s0 :: w) e).
Proof.
  intros F T. pose proof F as F'. simpl in F'. apply andb_prop in F'.
  destruct F' as [F0 Fw].
  assert (Sy : is_space y = false /\ is_comma y = false).
  { unfold text_char in T. apply negb_true_iff in T. now apply orb_false_iff in T. }
  destruct Sy as [Sy Cy].
  set (c := Cursor i (s0 :: w ++ y :: r)).
  set (c' := Cursor (i + length (s0 :: w)) (y :: r)).
  assert (A : advances c (s0 :: w) c') by (split; reflexivity).
  unfold tail_part. rewrite rmatch_group, rmatch_alt.
  assert (E1 : forall k, rmatch Eol c e k = None)
    by (intros k; simpl; destruct w; reflexivity).
  rewrite E1, rmatch_alt.
  rewrite (@comma_alternative_fails c e _ (s0 :: w) y r eq_refl F Sy Cy).
  unfold Plus, ws. rewrite rmatch_cat, rmatch_cls. unfold c at 1 2.
  cbn [rest pos]. rewrite F0, rmatch_star. cbn [rest].
  rewrite star_cls_value; auto.
  - unfold final.
    replace (S i + length w) with (i + length (s0 :: w)) by (simpl; lia).
    fold c'. now rewrite (advances_span A).
  - unfold final. discriminate.
Qed.

Lemma quoted_unit_match i q t x :
  forallb plain q = true ->
  rmatch tail_part (Cursor (S (S i + length q)) t)
    (set_group quoted_text q no_groups) final = Some x ->
  match_at _re_arg_splitter (Cursor i (dq :: q ++ dq :: t))
  = Some (Match (Cursor i (dq :: q ++ dq :: t)) (fst x) (snd x)).
Proof.
  intros Fq V. unfold match_at, _re_arg_splitter.
  rewrite rmatch_cat, rmatch_star. unfold ws.
  rewrite star_cls_fails by reflexivity.
  rewrite rmatch_cat, rmatch_alt. unfold quoted_unit.
  rewrite rmatch_cat, rmatch_lit_ok, rmatch_cat, rmatch_group.
  unfold quoted_body. rewrite rmatch_star. cbn [rest].
  rewrite quoted_body_plain with (x := x).
  - now destruct x.
  - exact Fq.
  - reflexivity.
  - intros c' e' H. now apply rmatch_lit_fails.
  - rewrite rmatch_lit_ok.
    assert (A : advances (Cursor (S i) (q ++ dq :: t)) q
                  (Cursor (S i + length q) (dq :: t)))
      by (split; reflexivity).
    now rewrite (advances_span A).
Qed.

Lemma text_unit_match i y u t x :
  forallb text_char (y :: u) = true -> (dq =? y)%N = false ->
  match t with [] => True | z :: _ => text_char z = false end ->
  rmatch tail_part (Cursor (S i + length u) t)
    (set_group text (y :: u) no_groups) final = Some x ->
  match_at _re_arg_splitter (Cursor i (y :: u ++ t))
  = Some (Match (Cursor i (y :: u ++ t)) (fst x) (snd x)).
Proof.
  intros F D E V. pose proof F as F'. simpl in F'. apply andb_prop in F'.
  destruct F' as [Ty Tu].
  assert (Sy : is_space y = false).
  { unfold text_char in Ty. apply negb_true_iff in Ty.
    now apply orb_false_iff in Ty. }
  unfold match_at, _re_arg_splitter.
  rewrite rmatch_cat, rmatch_star. unfold ws.
  rewrite star_cls_fails by exact Sy.
  rewrite rmatch_cat, rmatch_alt. unfold quoted_unit at 1.
  rewrite rmatch_cat, rmatch_lit_fails by exact D.
  unfold text_unit, Plus.
  rewrite rmatch_group, rmatch_cat, rmatch_cls. cbn [rest pos]. rewrite Ty.
  rewrite rmatch_star. cbn [rest].
  assert (A : advances (Cursor i (y :: u ++ t)) (y :: u) (Cursor (S i + length u) t)).
  { split; cbn [rest pos length]; [reflexivity | lia]. }
  rewrite star_cls_value; [ | exact Tu | exact E | apply Nat.le_refl | ].
  - rewrite (advances_span A), V. now destruct x.
  - rewrite (advances_span A), V. discriminate.
Qed.

Lemma tail_end_value i e :
  rmatch tail_part (Cursor i []) e final = Some (Cursor i [], set_group tail [] e).
Proof.
  unfold tail_part. rewrite rmatch_group, rmatch_alt. cbn [rmatch rest].
  unfold final, span. cbn [rest]. now rewrite firstn_nil.
Qed.

Lemma unescape_needs_bs c m :
  match_at _re_remove_escaped_quote c = Some m -> In bs (rest c).
Proof.
  intros H. apply match_at_sound in H. destruct H as [_ M].
  unfold _re_remove_escaped_quote in M. inv M.
  match goal with H : Matches (Cat (Lit bs) (Lit dq)) _ _ _ _ |- _ => inv H end.
  repeat match goal with H : Matches (Lit _) _ _ _ _ |- _ =>
    apply Matches_lit in H; destruct H as (_ & ?A) end.
  match goal with H : Matches (Group _ _) _ _ _ _ |- _ =>
    destruct (Matches_advances H) as (g & Ag) end.
  assert (A1 : advances c (g ++ [bs] ++ [dq]) (m_end m)) by chain.
  destruct A1 as [R _]. rewrite R. apply in_or_app; left.
  apply in_or_app; right. now left.
Qed.

Lemma resolve_escapes_no_bs s : forallb not_bs s = true -> resolve_escapes s = s.
Proof.
  intros F.
  assert (N : ~ In bs s).
  { rewrite forallb_forall in F. intros I. specialize (F bs I). discriminate. }
  unfold resolve_escapes, re_sub, scan_all. rewrite scan_no_match.
  - cbn [rest]. replace (concat _) with s; [now apply replace2_no_bs | ].
    clear. induction s as [ | x s IH]; [reflexivity | ]. simpl. now f_equal.
  - simpl. lia.
  - intros c0 m E. exists bs. split; [ | exact N].
    now apply unescape_needs_bs with m.
Qed.

Lemma plain_not_bs q : forallb plain q = true -> forallb not_bs q = true.
Proof.
  apply forallb_impl. intros x H. unfold plain in H. now apply andb_prop in H.
Qed.

Lemma group0_value c w c' e : advances c w c' -> group0 (Match c c' e) = w.
Proof. apply advances_span. Qed.

(** ** The work of the search *)

Lemma star_loop_cost_unfold body n c e k :
  star_loop_cost body n c e k =
  match body c e (fun c' e' =>
                    match n with
                    | S n' => if pos c' =? pos c then k c' e'
                              else star_loop_cost body n' c' e' k
                    | O => k c' e'
                    end) with
  | (Some x, t) => (Some x, t)
  | (None, t) => after t (k c e)
  end.
Proof. destruct n; reflexivity. Qed.

Lemma rmatch_cost_cls p c e k :
  rmatch_cost (Cls p) c e k =
  match rest c with
  | x :: t => if p x then after 1 (k (Cursor (S (pos c)) t) e) else (None, 1)
  | [] => (None, 1)
  end.
Proof. reflexivity. Qed.

Lemma rmatch_cost_cat r1 r2 c e k :
  rmatch_cost (Cat r1 r2) c e k =
  rmatch_cost r1 c e (fun c' e' => rmatch_cost r2 c' e' k).
Proof. reflexivity. Qed.

Lemma rmatch_cost_alt r1 r2 c e k :
  rmatch_cost (Alt r1 r2) c e k =
  match rmatch_cost r1 c e k with
  | (Some x, t) => (Some x, t)
  | (None, t) => after t (rmatch_cost r2 c e k)
  end.
Proof. reflexivity. Qed.

Lemma rmatch_cost_star r c e k :
  rmatch_cost (Star r) c e k =
  star_loop_cost (rmatch_cost r) (length (rest c)) c e k.
Proof. reflexivity. Qed.

Lemma rmatch_cost_group g r c e k :
  rmatch_cost (Group g r) c e k =
  rmatch_cost r c e (fun c' e' => k c' (set_group g (span c c') e')).
Proof. reflexivity. Qed.

(** The counting search finds what [rmatch] finds. *)
Lemma rmatch_cost_result r : forall c e k,
  fst (rmatch_cost r c e k) = rmatch r c e (fun c' e' => fst (k c' e')).
Proof.
  induction r as [ | p | r1 IH1 r2 IH2 | r1 IH1 r2 IH2 | r1 IH1 | g r1 IH1 | | ];
    intros c e k.
  - reflexivity.
  - rewrite rmatch_cost_cls, rmatch_cls.
    destruct (rest c) as [ | x t]; [reflexivity | ].
    destruct (p x); reflexivity.
  - rewrite rmatch_cost_cat, rmatch_cat, IH1.
    apply rmatch_ext. intros c1 e1 w1 _. apply IH2.
  - rewrite rmatch_cost_alt, rmatch_alt, <- IH1, <- IH2.
    destruct (rmatch_cost r1 c e k) as [[x | ] t]; reflexivity.
  - rewrite rmatch_cost_star, rmatch_star.
    generalize (length (rest c)). intros n. revert c e.
    induction n as [ | n IHn]; intros c e;
      rewrite star_loop_cost_unfold, star_loop_unfold.
    + match goal with
      | |- fst (match rmatch_cost r1 c e ?K with _ => _ end) = _ =>
          pose proof (IH1 c e K) as H; destruct (rmatch_cost r1 c e K) as [[x | ] t]
      end; cbn [fst] in H; rewrite <- H; reflexivity.
    + match goal with
      | |- fst (match rmatch_cost r1 c e ?K with _ => _ end) = _ =>
          pose proof (IH1 c e K) as H; destruct (rmatch_cost r1 c e K) as [[x | ] t]
      end; cbn [fst] in H.
      * erewrite rmatch_ext; [rewrite <- H; reflexivity | ].
        intros c1 e1 w1 _. cbv beta.
        destruct (pos c1 =? pos c); [reflexivity | symmetry; apply IHn].
      * erewrite rmatch_ext; [rewrite <- H; reflexivity | ].
        intros c1 e1 w1 _. cbv beta.
        destruct (pos c1 =? pos c); [reflexivity | symmetry; apply IHn].
  - rewrite rmatch_cost_group, rmatch_group. apply IH1.
  - simpl. destruct (pos c =? 0); reflexivity.
  - simpl. destruct (rest c) as [ | x [ | y t]]; try reflexivity.
    destruct (x =? nl)%N; reflexivity.
Qed.

Lemma match_cost_result r c :
  fst (rmatch_cost r c no_groups final_cost) = rmatch r c no_groups final.
Proof. apply rmatch_cost_result. Qed.

(** With a rest of the pattern that fails wherever it is tried, the search
    fails. *)
Lemma rmatch_cost_fails r : forall c e k,
  (forall c' e' w, advances c w c' -> fst (k c' e') = None) ->
  fst (rmatch_cost r c e k) = None.
Proof.
  induction r as [ | p | r1 IH1 r2 IH2 | r1 IH1 r2 IH2 | r1 IH1 | g r1 IH1 | | ];
    intros c e k H.
  - simpl. apply H with []. apply advances_refl.
  - rewrite rmatch_cost_cls. destruct c as [i [ | x t]]; [reflexivity | ].
    cbn [rest pos]. destruct (p x); [ | reflexivity].
    cbn [after fst]. apply H with [x]. apply advances_step.
  - rewrite rmatch_cost_cat. apply IH1. intros c1 e1 w1 A1.
    apply IH2. intros c2 e2 w2 A2. apply H with (w1 ++ w2).
    now apply advances_trans with c1.
  - rewrite rmatch_cost_alt. pose proof (IH1 c e k H) as F1.
    destruct (rmatch_cost r1 c e k) as [[x | ] t]; [discriminate | ].
    cbn [after fst]. now apply IH2.
  - rewrite rmatch_cost_star. generalize (length (rest c)). intros n.
    revert c e H. induction n as [ | n IHn]; intros c e H;
      rewrite star_loop_cost_unfold.
    + match goal with
      | |- fst (match rmatch_cost r1 c e ?K with _ => _ end) = _ =>
          assert (F1 : fst (rmatch_cost r1 c e K) = None)
            by (apply IH1; intros c1 e1 w1 A1; now apply H with w1);
          destruct (rmatch_cost r1 c e K) as [[x | ] t]; [discriminate | ]
      end.
      cbn [after fst]. apply H with []. apply advances_refl.
    + match goal with
      | |- fst (match rmatch_cost r1 c e ?K with _ => _ end) = _ =>
          assert (F1 : fst (rmatch_cost r1 c e K) = None);
          [ | destruct (rmatch_cost r1 c e K) as [[x | ] t]; [discriminate | ] ]
      end.
      * apply IH1. intros c1 e1 w1 A1. cbv beta.
        destruct (pos c1 =? pos c); [now apply H with w1 | ].
        apply IHn. intros c2 e2 w2 A2. apply H with (w1 ++ w2).
        now apply advances_trans with c1.
      * cbn [after fst]. apply H with []. apply advances_refl.
  - rewrite rmatch_cost_group. apply IH1. intros c1 e1 w1 A1. now apply H with w1.
  - simpl. destruct (pos c =? 0); [ | reflexivity].
    cbn [after fst]. apply H with []. apply advances_refl.
  - simpl. destruct (rest c) as [ | x [ | y t]]; try reflexivity.
    + cbn [after fst]. apply H with []. apply advances_refl.
    + destruct (x =? nl)%N; [ | reflexivity].
      cbn [after fst]. apply H with []. apply advances_refl.
Qed.

Lemma star_loop_cost_fails r n c e k :
  (forall c' e' w, advances c w c' -> fst (k c' e') = None) ->
  fst (star_loop_cost (rmatch_cost r) n c e k) = None.
Proof.
  revert c e. induction n as [ | n IHn]; intros c e H;
    rewrite star_loop_cost_unfold.
  - match goal with
    | |- fst (match rmatch_cost r c e ?K with _ => _ end) = _ =>
        assert (F1 : fst (rmatch_cost r c e K) = None)
          by (apply rmatch_cost_fails; intros c1 e1 w1 A1; now apply H with w1);
        destruct (rmatch_cost r c e K) as [[x | ] t]; [discriminate | ]
    end.
    cbn [after fst]. apply H with []. apply advances_refl.
  - match goal with
    | |- fst (match rmatch_cost r c e ?K with _ => _ end) = _ =>
        assert (F1 : fst (rmatch_cost r c e K) = None);
        [ | destruct (rmatch_cost r c e K) as [[x | ] t]; [discriminate | ] ]
    end.
    + apply rmatch_cost_fails. intros c1 e1 w1 A1. cbv beta.
      destruct (pos c1 =? pos c); [now apply H with w1 | ].
      apply IHn. intros c2 e2 w2 A2. apply H with (w1 ++ w2).
      now apply advances_trans with c1.
    + cbn [after fst]. apply H with []. apply advances_refl.
Qed.

(** The steps of a repetition include those of the first try of its body,
    and on failure those of the rest of the pattern tried in its place. *)
Lemma star_loop_cost_body body n c e k :
  snd (body c e (fun c' e' =>
                   match n with
                   | S n' => if pos c' =? pos c then k c' e'
                             else star_loop_cost body n' c' e' k
                   | O => k c' e'
                   end))
  <= snd (star_loop_cost body n c e k).
Proof.
  rewrite star_loop_cost_unfold.
  match goal with |- snd ?b <= _ => destruct b as [[x | ] t] end;
    cbn [after snd]; lia.
Qed.

Lemma star_loop_cost_rest body n c e k :
  fst (star_loop_cost body n c e k) = None ->
  snd (k c e) <= snd (star_loop_cost body n c e k).
Proof.
  rewrite star_loop_cost_unfold.
  match goal with |- fst (match ?b with _ => _ end) = _ -> _ =>
    destruct b as [[x | ] t] end;
    cbn [after fst snd]; [discriminate | lia].
Qed.

Lemma alt_cost_left r1 r2 c e k :
  snd (rmatch_cost r1 c e k) <= snd (rmatch_cost (Alt r1 r2) c e k).
Proof.
  rewrite rmatch_cost_alt.
  destruct (rmatch_cost r1 c e k) as [[x | ] t]; cbn [after snd]; lia.
Qed.

Lemma alt_cost_both r1 r2 c e k :
  fst (rmatch_cost r1 c e k) = None ->
  snd (rmatch_cost (Alt r1 r2) c e k) =
  snd (rmatch_cost r1 c e k) + snd (rmatch_cost r2 c e k).
Proof.
  rewrite rmatch_cost_alt.
  destruct (rmatch_cost r1 c e k) as [[x | ] t]; cbn [after fst snd];
    [discriminate | reflexivity].
Qed.

Lemma advances_repeat c w c' x n :
  rest c = repeat x n -> advances c w c' ->
  exists m, rest c' = repeat x m /\ m <= n.
Proof.
  intros R [A _]. rewrite R in A. exists (length (rest c')).
  assert (L : length (repeat x n) = length w + length (rest c'))
    by (now rewrite A, length_app).
  rewrite repeat_length in L. split; [ | lia].
  assert (F : Forall (eq x) (w ++ rest c')).
  { rewrite <- A. apply Forall_forall. intros y I.
    now apply repeat_spec in I. }
  apply Forall_app in F. destruct F as [_ F].
  apply Forall_eq_repeat. revert F. apply Forall_impl. auto.
Qed.

(** The quoted body over a run of [n] backslashes that no closing quote
    follows: every way of cutting the run into pairs and single
    backslashes is tried. *)
Lemma quoted_body_backslashes_cost : forall n fuel c e k,
  rest c = repeat bs n -> n <= fuel ->
  (forall c' e' w, advances c w c' ->
     fst (k c' e') = None /\ 1 <= snd (k c' e')) ->
  2 ^ (n / 2) <= snd (star_loop_cost (rmatch_cost quoted_item) fuel c e k).
Proof.
  induction n as [n IH] using lt_wf_ind. intros fuel c e k R L K.
  assert (KF : forall c' e' w, advances c w c' -> fst (k c' e') = None)
    by (intros c' e' w A; now destruct (K c' e' w A)).
  destruct n as [ | [ | n]].
  - etransitivity; [ | apply star_loop_cost_rest].
    + apply (K c e []). apply advances_refl.
    + now apply star_loop_cost_fails.
  - etransitivity; [ | apply star_loop_cost_rest].
    + apply (K c e []). apply advances_refl.
    + now apply star_loop_cost_fails.
  - destruct fuel as [ | fuel]; [lia | ].
    destruct c as [i s]. cbn [rest] in R. subst s.
    set (c0 := Cursor i (repeat bs (S (S n)))) in *.
    set (c1 := Cursor (S i) (repeat bs (S n))).
    set (c2 := Cursor (S (S i)) (repeat bs n)).
    assert (A1 : advances c0 [bs] c1) by apply advances_step.
    assert (A2 : advances c0 [bs; bs] c2).
    { change [bs; bs] with ([bs] ++ [bs]). apply advances_trans with c1; [exact A1 | ].
      apply advances_step. }
    assert (K1 : forall c' e' w, advances c1 w c' ->
              fst (k c' e') = None /\ 1 <= snd (k c' e')).
    { intros c' e' w A. apply K with ([bs] ++ w). now apply advances_trans with c1. }
    assert (K2 : forall c' e' w, advances c2 w c' ->
              fst (k c' e') = None /\ 1 <= snd (k c' e')).
    { intros c' e' w A. apply K with ([bs; bs] ++ w). now apply advances_trans with c2. }
    pose proof (IH (S n) ltac:(lia) fuel c1 e k eq_refl ltac:(lia) K1) as B1.
    pose proof (IH n ltac:(lia) fuel c2 e k eq_refl ltac:(lia) K2) as B2.
    etransitivity; [ | apply star_loop_cost_body].
    set (K0 := fun c' e' => if pos c' =? pos c0 then k c' e'
                            else star_loop_cost (rmatch_cost quoted_item) fuel c' e' k).
    assert (F0 : forall c' e' w, advances c0 w c' -> fst (K0 c' e') = None).
    { intros c' e' w A. unfold K0. destruct (pos c' =? pos c0); [now apply KF with w | ].
      apply star_loop_cost_fails. intros c'' e'' w' A'. apply KF with (w ++ w').
      now apply advances_trans with c'. }
    change (2 ^ (S (S n) / 2) <= snd (rmatch_cost quoted_item c0 e K0)).
    unfold quoted_item.
    rewrite alt_cost_both by (now apply rmatch_cost_fails).
    rewrite alt_cost_both by (now apply rmatch_cost_fails).
    (* the pairs first *)
    assert (P : snd (star_loop_cost (rmatch_cost quoted_item) fuel c2 e k)
                <= snd (rmatch_cost backslash_pairs c0 e K0)).
    { unfold backslash_pairs. rewrite rmatch_cost_star.
      etransitivity; [ | apply star_loop_cost_body].
      rewrite rmatch_cost_cat. unfold Lit. rewrite rmatch_cost_cls.
      cbn [rest pos c0 repeat]. rewrite N.eqb_refl. cbn [after snd].
      rewrite rmatch_cost_cls. cbn [rest pos]. rewrite N.eqb_refl.
      cbn [after snd length]. rewrite repeat_length.
      replace (S (S i) =? i) with false by (symmetry; apply Nat.eqb_neq; lia).
      fold c2.
      match goal with |- _ <= 1 + (1 + snd ?x) => assert (Q : snd (K0 c2 e) <= snd x) end.
      { apply star_loop_cost_rest. apply star_loop_cost_fails.
        intros c' e' w A. apply F0 with ([bs; bs] ++ w).
        now apply advances_trans with c2. }
      unfold K0 at 1 in Q. cbn [pos c2 c0] in Q.
      replace (S (S i) =? i) with false in Q by (symmetry; apply Nat.eqb_neq; lia).
      fold c2 in Q. lia. }
    (* then the single backslash *)
    assert (Q : snd (star_loop_cost (rmatch_cost quoted_item) fuel c1 e k)
                <= snd (rmatch_cost (Cls not_dq) c0 e K0)).
    { rewrite rmatch_cost_cls. cbn [rest pos c0 repeat].
      change (not_dq bs) with true. cbn [after snd]. unfold K0.
      change (Cursor (S i) (bs :: repeat bs n)) with c1.
      change (pos c1 =? pos c0) with (S i =? i).
      replace (S i =? i) with false by (symmetry; apply Nat.eqb_neq; lia).
      lia. }
    assert (E : 2 ^ (S (S n) / 2) = 2 * 2 ^ (n / 2)).
    { replace (S (S n)) with (n + 1 * 2) by lia.
      rewrite Nat.div_add by lia. rewrite Nat.add_1_r. apply Nat.pow_succ_r'. }
    assert (Mn : 2 ^ (n / 2) <= 2 ^ (S n / 2)).
    { apply Nat.pow_le_mono_r; [lia | ]. apply Nat.Div0.div_le_mono. lia. }
    lia.
Qed.

(** One attempt of the splitter at a double quote that only backslashes
    follow. *)
Lemma splitter_backslashes_cost i n :
  2 ^ (n / 2) <= match_cost _re_arg_splitter (Cursor i (dq :: repeat bs n)).
Proof.
  unfold match_cost, _re_arg_splitter.
  rewrite rmatch_cost_cat, rmatch_cost_star, star_loop_cost_unfold.
  unfold ws at 1. rewrite rmatch_cost_cls.
  cbn [rest]. change (is_space dq) with false. cbn [after snd].
  rewrite rmatch_cost_cat.
  etransitivity; [ | apply Nat.le_add_l].
  etransitivity; [ | apply alt_cost_left]. unfold quoted_unit.
  rewrite rmatch_cost_cat. unfold Lit at 1. rewrite rmatch_cost_cls.
  cbn [rest pos]. rewrite N.eqb_refl. cbn [after snd].
  rewrite rmatch_cost_cat, rmatch_cost_group. unfold quoted_body.
  rewrite rmatch_cost_star.
  etransitivity; [apply quoted_body_backslashes_cost | apply Nat.le_add_l ].
  - reflexivity.
  - cbn [rest]. now rewrite repeat_length.
  - intros c' e' w A.
    destruct (@advances_repeat (Cursor (S i) (repeat bs n)) w c' bs n eq_refl A)
      as (m & R & _).
    unfold Lit. rewrite rmatch_cost_cls, R.
    destruct m; [now split | ]. cbn [repeat].
    change (dq =? bs)%N with false. now split.
Qed.

Lemma finditer_backslashes_cost n :
  2 ^ (n / 2) <= finditer_cost _re_arg_splitter (dq :: repeat bs n).
Proof.
  unfold finditer_cost, finditer_attempts. cbn [scan_attempts List.map snd list_sum].
  etransitivity; [apply (splitter_backslashes_cost 0 n) | apply Nat.le_add_r].
Qed.

Lemma pow2_gt n : n < 2 ^ n.
Proof. apply Nat.pow_gt_lin_r. lia. Qed.

(** Any linear bound is passed. *)
Lemma pow2_half_beats_linear a b : exists n, a * S n + b < 2 ^ (n / 2).
Proof.
  exists (2 * (2 * (4 * a + b + 1))).
  replace (2 * (2 * (4 * a + b + 1)) / 2) with (2 * (4 * a + b + 1))
    by (symmetry; rewrite Nat.mul_comm; apply Nat.div_mul; lia).
  set (k := 4 * a + b + 1).
  replace (2 * k) with (k + k) by lia. rewrite Nat.pow_add_r.
  pose proof (pow2_gt k). nia.
Qed.

(** ** A bound on the work *)

Lemma star_loop_cost_le body n c e k :
  snd (star_loop_cost body n c e k) <=
  snd (body c e (fun c' e' =>
                   match n with
                   | S n' => if pos c' =? pos c then k c' e'
                             else star_loop_cost body n' c' e' k
                   | O => k c' e'
                   end)) + snd (k c e).
Proof.
  rewrite star_loop_cost_unfold.
  match goal with |- snd (match ?b with _ => _ end) <= _ =>
    destruct b as [[x | ] t] end;
    cbn [after snd]; lia.
Qed.

Lemma alt_cost_le r1 r2 c e k :
  snd (rmatch_cost (Alt r1 r2) c e k) <=
  snd (rmatch_cost r1 c e k) + snd (rmatch_cost r2 c e k).
Proof.
  rewrite rmatch_cost_alt.
  destruct (rmatch_cost r1 c e k) as [[x | ] t]; cbn [after snd]; lia.
Qed.

Lemma advances_rest_le c w c' n :
  advances c w c' -> length (rest c) <= n -> length (rest c') <= n.
Proof. intros A L. pose proof (advances_length A). lia. Qed.

(** If what follows [r] takes at most [b] steps wherever it is tried, [r]
    and what follows take at most [budget r n * (1 + b)] steps together. *)
Lemma rmatch_cost_budget n r : forall c e k b,
  length (rest c) <= n ->
  (forall c' e' w, advances c w c' -> snd (k c' e') <= b) ->
  snd (rmatch_cost r c e k) <= budget r n * (1 + b).
Proof.
  induction r as [ | p | r1 IH1 r2 IH2 | r1 IH1 r2 IH2 | r1 IH1 | g r1 IH1 | | ];
    intros c e k b L K.
  - simpl. pose proof (K c e [] (advances_refl c)). lia.
  - rewrite rmatch_cost_cls. destruct c as [i [ | x t]]; cbn [rest pos budget].
    + cbn [snd]. lia.
    + destruct (p x); cbn [after snd]; [ | lia].
      pose proof (K (Cursor (S i) t) e [x] (advances_step i x t)). lia.
  - rewrite rmatch_cost_cat. cbn [budget].
    etransitivity.
    + apply (IH1 c e _ (budget r2 n * (1 + b)) L).
      intros c1 e1 w1 A1. apply IH2; [now apply advances_rest_le with c w1 | ].
      intros c2 e2 w2 A2. apply K with (w1 ++ w2).
      now apply advances_trans with c1.
    + nia.
  - etransitivity; [apply alt_cost_le | ]. cbn [budget].
    pose proof (IH1 c e k b L K). pose proof (IH2 c e k b L K). nia.
  - rewrite rmatch_cost_star. cbn [budget].
    assert (Loop : forall m c e,
              length (rest c) <= n ->
              (forall c' e' w, advances c w c' -> snd (k c' e') <= b) ->
              S (snd (star_loop_cost (rmatch_cost r1) m c e k))
              <= (1 + budget r1 n) ^ S m * (1 + b)).
    { clear c e L K. induction m as [ | m IHm]; intros c e L K.
      - pose proof (star_loop_cost_le (rmatch_cost r1) 0 c e k) as H.
        pose proof (IH1 c e (fun c' e' => k c' e') b L
                      (fun c' e' w A => K c' e' w A)) as H1.
        pose proof (K c e [] (advances_refl c)).
        cbv beta iota in H. rewrite Nat.pow_1_r. nia.
      - pose proof (star_loop_cost_le (rmatch_cost r1) (S m) c e k) as H.
        cbv beta iota in H.
        set (Q := (1 + budget r1 n) ^ S m * (1 + b)).
        assert (HQ : 1 + b <= Q).
        { unfold Q. assert (1 <= (1 + budget r1 n) ^ S m)
            by (apply Nat.neq_0_lt_0, Nat.pow_nonzero; lia). nia. }
        match type of H with _ <= snd (rmatch_cost r1 c e ?K0) + _ =>
          assert (H1 : snd (rmatch_cost r1 c e K0) <= budget r1 n * (1 + (Q - 1))) end.
        { apply IH1; [exact L | ]. intros c1 e1 w1 A1. cbv beta.
          destruct (pos c1 =? pos c).
          - pose proof (K c1 e1 w1 A1). lia.
          - assert (S (snd (star_loop_cost (rmatch_cost r1) m c1 e1 k)) <= Q); [ | lia].
            apply IHm; [now apply advances_rest_le with c w1 | ].
            intros c2 e2 w2 A2. apply K with (w1 ++ w2).
            now apply advances_trans with c1. }
        pose proof (K c e [] (advances_refl c)).
        replace ((1 + budget r1 n) ^ S (S m) * (1 + b))
          with ((1 + budget r1 n) * Q)
          by (unfold Q; rewrite (Nat.pow_succ_r' _ (S m)); ring).
        replace (1 + (Q - 1)) with Q in H1 by lia. nia. }
    pose proof (Loop (length (rest c)) c e L K) as H.
    assert (M : (1 + budget r1 n) ^ S (length (rest c)) <= (1 + budget r1 n) ^ S n)
      by (apply Nat.pow_le_mono_r; lia).
    nia.
  - rewrite rmatch_cost_group. cbn [budget]. apply IH1; [exact L | ].
    intros c1 e1 w1 A1. now apply K with w1.
  - simpl. pose proof (K c e [] (advances_refl c)).
    destruct (pos c =? 0); cbn [after snd]; lia.
  - simpl. pose proof (K c e [] (advances_refl c)).
    destruct (rest c) as [ | x [ | y t]]; cbn [after snd]; try lia.
    destruct (x =? nl)%N; cbn [after snd]; lia.
Qed.

Lemma match_cost_budget r c n :
  length (rest c) <= n -> match_cost r c <= budget r n.
Proof.
  intros L. unfold match_cost.
  pose proof (@rmatch_cost_budget n r c no_groups final_cost 0 L
                (fun _ _ _ _ => Nat.le_refl 0)). lia.
Qed.

(** ** The attempts of the search loop *)

(** After an attempt the loop either stops or goes on strictly further
    right. *)
Lemma scan_attempts_next r fuel c :
  scan_attempts r (S fuel) c = [(pos c, match_cost r c)] \/
  exists w c', w <> [] /\ advances c w c' /\
    scan_attempts r (S fuel) c = (pos c, match_cost r c) :: scan_attempts r fuel c'.
Proof.
  cbn [scan_attempts].
  assert (step : forall x t, rest c = x :: t ->
            exists w c', w <> [] /\ advances c w c' /\
              (pos c, match_cost r c) :: scan_attempts r fuel (Cursor (S (pos c)) t) =
              (pos c, match_cost r c) :: scan_attempts r fuel c').
  { intros x t R. exists [x], (Cursor (S (pos c)) t).
    split; [discriminate | ]. split; [ | reflexivity].
    split; cbn [rest pos length]; [exact R | lia]. }
  destruct (match_at r c) as [m | ] eqn:E.
  - destruct (pos (m_end m) =? pos c) eqn:Q.
    + destruct (rest c) as [ | x t] eqn:R; [now left | right; now apply step with x].
    + right. destruct (match_at_advances _ _ E) as (w & A & _).
      exists w, (m_end m). split; [exact (advances_pos A Q) | now split].
  - destruct (rest c) as [ | x t] eqn:R; [now left | right; now apply step with x].
Qed.

Lemma scan_attempts_inside r n : forall fuel c,
  length (rest c) <= n ->
  Forall (fun a => pos c <= fst a <= pos c + length (rest c) /\
                   snd a <= budget r n)
    (scan_attempts r fuel c).
Proof.
  induction fuel as [ | fuel IH]; intros c L; [constructor | ].
  assert (H0 : pos c <= fst (pos c, match_cost r c) <= pos c + length (rest c) /\
               snd (pos c, match_cost r c) <= budget r n).
  { cbn [fst snd]. split; [lia | now apply match_cost_budget]. }
  destruct (scan_attempts_next r fuel c) as [-> | (w & c' & N & A & ->)].
  - now repeat constructor.
  - constructor; [exact H0 | ].
    pose proof (advances_length A) as AL. destruct A as [_ AP].
    assert (L' : length (rest c') <= n) by lia.
    specialize (IH c' L'). revert IH. apply Forall_impl.
    intros a ((P1 & P2) & B). split; [lia | exact B].
Qed.

Lemma scan_attempts_sorted r : forall fuel c,
  StronglySorted lt (List.map fst (scan_attempts r fuel c)).
Proof.
  induction fuel as [ | fuel IH]; intros c; [constructor | ].
  destruct (scan_attempts_next r fuel c) as [-> | (w & c' & N & A & ->)].
  - repeat constructor.
  - cbn [List.map fst]. constructor; [apply IH | ].
    pose proof (scan_attempts_inside r fuel c' (Nat.le_refl _)) as F.
    apply Forall_map. revert F. apply Forall_impl.
    intros a ((P1 & _) & _). destruct A as [_ AP].
    destruct w; [contradiction | ]. cbn [length] in AP. lia.
Qed.

Lemma scan_attempts_length r : forall fuel c,
  length (scan_attempts r fuel c) <= S (length (rest c)).
Proof.
  induction fuel as [ | fuel IH]; intros c; [simpl; lia | ].
  destruct (scan_attempts_next r fuel c) as [-> | (w & c' & N & A & ->)].
  - simpl. lia.
  - cbn [length]. specialize (IH c'). pose proof (advances_length A).
    destruct w; [contradiction | ]. cbn [length] in *. lia.
Qed.

Lemma list_sum_bound (l : list nat) b :
  Forall (fun x => x <= b) l -> list_sum l <= length l * b.
Proof.
  induction 1 as [ | x l H _ IH]; simpl; lia.
Qed.

Lemma finditer_cost_budget r s :
  finditer_cost r s <= S (length s) * budget r (length s).
Proof.
  unfold finditer_cost, finditer_attempts.
  pose proof (scan_attempts_length r (S (length s)) (Cursor 0 s)) as L.
  pose proof (scan_attempts_inside r (S (length s)) (Cursor 0 s) (Nat.le_refl _)) as F.
  cbn [rest] in L, F.
  etransitivity; [apply list_sum_bound with (b := budget r (length s)) | ].
  - apply Forall_map. revert F. apply Forall_impl. now intros a (_ & B).
  - rewrite length_map. now apply Nat.mul_le_mono_r.
Qed.

(** ** The iteration bounds are never reached in the count either *)

Lemma rmatch_cost_ext r : forall c e k k',
  (forall c' e' w, advances c w c' -> k c' e' = k' c' e') ->
  rmatch_cost r c e k = rmatch_cost r c e k'.
Proof.
  induction r as [ | p | r1 IH1 r2 IH2 | r1 IH1 r2 IH2 | r1 IH1 | g r1 IH1 | | ];
    intros c e k k' H.
  - simpl. apply H with []. apply advances_refl.
  - rewrite !rmatch_cost_cls. destruct c as [i [ | x t]]; [reflexivity | ].
    cbn [rest pos]. destruct (p x); [ | reflexivity].
    f_equal. apply H with [x]. apply advances_step.
  - rewrite !rmatch_cost_cat. apply IH1. intros c1 e1 w1 A1.
    apply IH2. intros c2 e2 w2 A2. apply H with (w1 ++ w2).
    now apply advances_trans with c1.
  - rewrite !rmatch_cost_alt, (IH1 c e k k' H), (IH2 c e k k' H). reflexivity.
  - rewrite !rmatch_cost_star. generalize (length (rest c)). intros n.
    revert c e H. induction n as [ | n IHn]; intros c e H;
      rewrite !star_loop_cost_unfold.
    + rewrite (IH1 c e _ (fun c' e' => k' c' e')).
      * now rewrite (H c e [] (advances_refl c)).
      * intros c1 e1 w1 A1. now apply H with w1.
    + match goal with
      | |- match rmatch_cost r1 c e ?K with _ => _ end
           = match rmatch_cost r1 c e ?K' with _ => _ end =>
          rewrite (IH1 c e K K')
      end.
      * now rewrite (H c e [] (advances_refl c)).
      * intros c1 e1 w1 A1. cbv beta. destruct (pos c1 =? pos c).
        -- now apply H with w1.
        -- apply IHn. intros c2 e2 w2 A2. apply H with (w1 ++ w2).
           now apply advances_trans with c1.
  - rewrite !rmatch_cost_group. apply IH1. intros c1 e1 w1 A1. now apply H with w1.
  - simpl. destruct (pos c =? 0); [ | reflexivity].
    f_equal. apply H with []. apply advances_refl.
  - simpl. destruct (rest c) as [ | x [ | y t]]; try reflexivity.
    + f_equal. apply H with []. apply advances_refl.
    + destruct (x =? nl)%N; [ | reflexivity].
      f_equal. apply H with []. apply advances_refl.
Qed.

Lemma star_loop_cost_fuel r k : forall n m c e,
  length (rest c) <= n -> length (rest c) <= m ->
  star_loop_cost (rmatch_cost r) n c e k = star_loop_cost (rmatch_cost r) m c e k.
Proof.
  induction n as [ | n IH]; intros m c e Ln Lm; rewrite !star_loop_cost_unfold.
  - match goal with
    | |- match rmatch_cost r c e ?K with _ => _ end
         = match rmatch_cost r c e ?K' with _ => _ end =>
        rewrite (@rmatch_cost_ext r c e K K'); [reflexivity | ]
    end.
    intros c1 e1 w1 A1. destruct m as [ | m]; [reflexivity | ].
    destruct (pos c1 =? pos c) eqn:Q; [reflexivity | ].
    pose proof (advances_pos A1 Q). pose proof (advances_length A1).
    destruct w1; [contradiction | simpl in *; lia].
  - match goal with
    | |- match rmatch_cost r c e ?K with _ => _ end
         = match rmatch_cost r c e ?K' with _ => _ end =>
        rewrite (@rmatch_cost_ext r c e K K'); [reflexivity | ]
    end.
    intros c1 e1 w1 A1. destruct (pos c1 =? pos c) eqn:Q.
    + destruct m; reflexivity.
    + pose proof (advances_pos A1 Q). pose proof (advances_length A1).
      destruct w1; [contradiction | ].
      destruct m as [ | m]; [simpl in *; lia | ].
      apply IH; simpl in *; lia.
Qed.

Lemma scan_attempts_fuel r : forall n m c,
  length (rest c) < n -> length (rest c) < m ->
  scan_attempts r n c = scan_attempts r m c.
Proof.
  induction n as [ | n IH]; intros m c Ln Lm; [lia | ].
  destruct m as [ | m]; [lia | ]. cbn [scan_attempts]. f_equal.
  assert (step : forall x t, rest c = x :: t ->
            scan_attempts r n (Cursor (S (pos c)) t)
            = scan_attempts r m (Cursor (S (pos c)) t)).
  { intros x t R. rewrite R in *. apply IH; simpl in *; lia. }
  destruct (match_at r c) as [m0 | ] eqn:E.
  - destruct (pos (m_end m0) =? pos c) eqn:Q.
    + destruct (rest c) as [ | x t] eqn:R; [reflexivity | ].
      now apply step with x.
    + destruct (match_at_advances _ _ E) as (w & A & _).
      pose proof (advances_pos A Q). pose proof (advances_length A).
      destruct w; [contradiction | ]. apply IH; simpl in *; lia.
  - destruct (rest c) as [ | x t] eqn:R; [reflexivity | ].
    now apply step with x.
Qed.

(** * The claims *)

(** ** C1 *)

(** C1, as stated, fails: in comma mode the field merged from the quoted unit
    [A] and the unquoted [B] is not [A B]. *)
Lemma split_args_merged_field_not_stripped :
  split_args ([dq] ++ lit "A" ++ [dq] ++ lit " B, C") false
  <> Some [lit "A B"; lit "C"].
Proof. vm_compute. discriminate. Qed.

(** C1, amended: in comma mode the quoted unit and the unquoted text after it
    merge into one field that keeps the raw text of the quoted unit, its two
    double quotes included; in whitespace mode the same input gives three
    separate fields, the quotes of the first stripped.  Stated for every
    quoted content [q] free of double quotes and backslashes; the input of
    the claim has [A] for [q]. *)
Theorem split_args_quoted_then_text q :
  forallb plain q = true ->
  split_args (dq :: q ++ dq :: lit " B, C") false
  = Some [dq :: q ++ dq :: lit " B"; lit "C"] /\
  split_args (dq :: q ++ dq :: lit " B, C") true
  = Some [q; lit "B"; lit "C"].
Proof.
  intros F.
  assert (Hf : finditer _re_arg_splitter (dq :: q ++ dq :: lit " B, C")
              = [Match (Cursor 0 (dq :: q ++ dq :: lit " B, C"))
                   (Cursor (S (S (length q)) + 1) (lit "B, C"))
                   (set_group tail (lit " ") (set_group quoted_text q no_groups));
                 Match (Cursor (S (S (length q)) + 1) (lit "B, C"))
                   (Cursor (S (S (length q)) + 4) (lit "C"))
                   (set_group tail (lit ", ") (set_group text (lit "B") no_groups));
                 Match (Cursor (S (S (length q)) + 4) (lit "C"))
                   (Cursor (S (S (length q)) + 5) [])
                   (set_group tail [] (set_group text (lit "C") no_groups))]).
  { unfold finditer, scan_all.
    rewrite (@scan_fuel _ _ (3 + length (dq :: q ++ dq :: lit " B, C")))
      by (cbn [rest]; lia).
    cbn [Nat.add].
    change (lit " B, C") with (32%N :: [] ++ 66%N :: lit ", C").
    rewrite (@scan_found _ _ _ _
               (quoted_unit_match 0 q _ F
                  (tail_space_value _ 32%N [] 66%N (lit ", C") _ eq_refl eq_refl))
               eq_refl).
    cbn [m_end fst length].
    change (66%N :: lit ", C") with (66%N :: [] ++ [] ++ 44%N :: [32%N] ++ lit "C").
    rewrite (@scan_found _ _ _ _
               (text_unit_match _ 66%N [] ([] ++ 44%N :: [32%N] ++ lit "C")
                  eq_refl eq_refl eq_refl
                  (tail_comma_value _ [] 44%N [32%N] (lit "C") _
                     eq_refl eq_refl eq_refl eq_refl)))
      by (apply Nat.eqb_neq; cbn [m_end fst pos length app]; lia).
    cbn [m_end fst length].
    change (lit "C") with (67%N :: [] ++ []).
    rewrite (@scan_found _ _ _ _
               (text_unit_match _ 67%N [] [] eq_refl eq_refl I
                  (tail_end_value _ _)))
      by (apply Nat.eqb_neq; cbn [m_end fst pos length app]; lia).
    cbn [m_end fst]. rewrite scan_at_end by apply splitter_at_end.
    cbn [found snd fst length app Nat.add]. repeat f_equal; lia. }
  unfold split_args. cbv zeta. rewrite Hf. split.
  - cbn -[resolve_escapes group0].
    rewrite (@group0_value _ (dq :: q ++ [dq; 32%N])).
    + rewrite resolve_escapes_no_bs.
      * cbn. now rewrite <- !app_assoc.
      * cbn [forallb app]. rewrite !forallb_app, (plain_not_bs q F). reflexivity.
    + split; cbn [rest pos].
      * cbn. now rewrite <- app_assoc.
      * cbn [length]. rewrite length_app. simpl. lia.
  - cbn -[resolve_escapes]. rewrite (resolve_escapes_no_bs q (plain_not_bs q F)).
    reflexivity.
Qed.

Lemma split_args_quoted_then_text_witness :
  forallb plain (lit "A") = true /\
  split_args (dq :: lit "A" ++ dq :: lit " B, C") false
  = Some [dq :: lit "A" ++ dq :: lit " B"; lit "C"] /\
  split_args (dq :: lit "A" ++ dq :: lit " B, C") true
  = Some [lit "A"; lit "B"; lit "C"].
Proof.
  split; [reflexivity | apply (split_args_quoted_then_text (lit "A")); reflexivity].
Defined.

(** ** C2 *)

(** C2, as stated, fails: with [treat_comma_as_space] a comma still separates
    arguments. *)
Lemma split_args_comma_still_separates :
  split_args (lit "A,B") true <> Some [lit "A,B"].
Proof. vm_compute. discriminate. Qed.

(** C2, amended: with [treat_comma_as_space] a comma is a delimiter exactly as
    whitespace is.  On an input without double quotes the arguments are the
    maximal runs of characters that are neither whitespace nor a comma, each
    with its backslash pairs collapsed. *)
Theorem split_args_comma_as_space s :
  no_quotes s = true ->
  split_args s true =
  Some (List.map (replace2 bs bs [bs]) (tokens is_delim s [])).
Proof.
  intros Q. apply no_quotes_spec in Q.
  rewrite (split_args_whitespace_mode s true (tokens is_delim s [])).
  - f_equal. apply map_ext_Forall.
    apply Forall_impl with (P := Forall (fun x => x <> dq)).
    + intros t F. apply resolve_escapes_no_dq. intros I.
      rewrite Forall_forall in F. now apply (F dq I).
    + apply tokens_Forall; [ | constructor].
      apply Forall_forall. intros x I ->. contradiction.
  - apply comma_separated_treat.
  - apply finditer_tokens. rewrite count_dq_0 by exact Q. lia.
Qed.

Lemma split_args_comma_as_space_witness :
  no_quotes (lit "A,B") = true /\
  split_args (lit "A,B") true
  = Some (List.map (replace2 bs bs [bs]) (tokens is_delim (lit "A,B") [])).
Proof.
  split; [reflexivity | apply (split_args_comma_as_space (lit "A,B")); reflexivity].
Defined.

(** ** C3 *)

(** C3, as stated, fails: the text from an unterminated quote on is not
    dropped. *)
Lemma split_args_unterminated_quote_kept :
  split_args (lit "A " ++ dq :: lit "B C") false <> Some [lit "A"].
Proof. vm_compute. discriminate. Qed.

(** C3, amended: the scan does not stop at an unterminated quote.  On an input
    without commas whose only double quote has no closing quote, that quote
    is read as an ordinary character of an unquoted unit and nothing is
    dropped: the arguments are the whitespace tokens of the whole input, with
    escapes resolved, for either value of the flag. *)
Theorem split_args_unterminated_quote pre t b :
  no_quotes pre = true -> no_quotes t = true ->
  no_commas (pre ++ dq :: t) = true ->
  split_args (pre ++ dq :: t) b =
  Some (List.map resolve_escapes (whitespace_tokens (pre ++ dq :: t))).
Proof.
  intros Qp Qt N.
  apply no_quotes_spec in Qp, Qt. apply no_commas_spec in N.
  unfold whitespace_tokens.
  rewrite (tokens_ext is_space is_delim (pre ++ dq :: t) [])
    by (intros x I; symmetry; now apply no_comma_delims with (pre ++ dq :: t)).
  apply split_args_whitespace_mode.
  - destruct b; [apply comma_separated_treat | ].
    apply comma_separated_none. now apply no_comma_tails.
  - apply finditer_tokens. rewrite count_dq_app.
    change (dq :: t) with ([dq] ++ t). rewrite count_dq_app.
    rewrite (count_dq_0 pre Qp), (count_dq_0 t Qt). reflexivity.
Qed.

Lemma split_args_unterminated_quote_witness :
  no_quotes (lit "A ") = true /\ no_quotes (lit "B C") = true /\
  no_commas (lit "A " ++ dq :: lit "B C") = true /\
  split_args (lit "A " ++ dq :: lit "B C") false
  = Some (List.map resolve_escapes
            (whitespace_tokens (lit "A " ++ dq :: lit "B C"))).
Proof.
  split; [reflexivity | ]. split; [reflexivity | ]. split; [reflexivity | ].
  apply (split_args_unterminated_quote (lit "A ") (lit "B C") false);
    reflexivity.
Defined.

(** ** C4 *)

(** C4, as stated, fails: the spans of the matches alone do not give back an
    input that begins with a comma. *)
Lemma match_spans_miss_skipped_text :
  concat (List.map group0 (finditer _re_arg_splitter (lit ",A"))) <> lit ",A".
Proof. vm_compute. discriminate. Qed.

(** C4, amended: the matches do not overlap and come in input order, and the
    input is given back exactly by concatenating, in order, the raw spans of
    the matches together with the characters the scanner stepped over
    between them; every such character is whitespace or a comma. *)
Theorem scan_covers_input s :
  concat (List.map raw (scan_all _re_arg_splitter s)) = s /\
  Forall skips_only_delims (scan_all _re_arg_splitter s).
Proof.
  split.
  - unfold scan_all. now rewrite scan_raw by (simpl; lia).
  - apply scan_skips.
Qed.

(** ** C5 *)

(** C5, as stated, fails: a pair of backslashes is one whitespace token, but
    [split_args] returns a single backslash. *)
Lemma split_args_collapses_backslash_pair :
  no_commas [bs; bs] = true /\ no_quotes [bs; bs] = true /\
  split_args [bs; bs] false <> Some (whitespace_tokens [bs; bs]).
Proof.
  split; [reflexivity | ]. split; [reflexivity | ]. vm_compute. discriminate.
Qed.

(** C5, amended: on an input with no comma and no double quote,
    [split_args(s, False)] is the output of a whitespace tokenizer on [s] in
    which every pair of consecutive backslashes of a token is replaced by one
    backslash. *)
Theorem split_args_no_comma_no_quote s :
  no_commas s = true -> no_quotes s = true ->
  split_args s false =
  Some (List.map (replace2 bs bs [bs]) (whitespace_tokens s)).
Proof.
  intros N Q. apply no_commas_spec in N. apply no_quotes_spec in Q.
  unfold whitespace_tokens.
  rewrite (tokens_ext is_space is_delim s [])
    by (intros x I; symmetry; now apply no_comma_delims with s).
  rewrite (split_args_whitespace_mode s false (tokens is_delim s [])).
  - f_equal. apply map_ext_Forall.
    apply Forall_impl with (P := Forall (fun x => x <> dq)).
    + intros t F. apply resolve_escapes_no_dq. intros I.
      rewrite Forall_forall in F. now apply (F dq I).
    + apply tokens_Forall; [ | constructor].
      apply Forall_forall. intros x I ->. contradiction.
  - apply comma_separated_none. now apply no_comma_tails.
  - apply finditer_tokens. rewrite count_dq_0 by exact Q. lia.
Qed.

Lemma split_args_no_comma_no_quote_witness :
  no_commas (lit "A  B C") = true /\ no_quotes (lit "A  B C") = true /\
  split_args (lit "A  B C") false
  = Some (List.map (replace2 bs bs [bs]) (whitespace_tokens (lit "A  B C"))).
Proof.
  split; [reflexivity | ]. split; [reflexivity | ].
  apply (split_args_no_comma_no_quote (lit "A  B C")); reflexivity.
Defined.

(** ** C6 *)

(** C6: on a field made of two adjacent escaped quotes the source replaces
    only the first, where the two steps of the claim give two bare quotes.
    The same happens inside [split_args] on the quoted unit holding that
    field. *)
Theorem resolve_escapes_adjacent_escaped_quotes :
  resolve_escapes [bs; dq; bs; dq] = [dq; bs; dq] /\
  spec_resolve_escapes [bs; dq; bs; dq] = [dq; dq] /\
  split_args [dq; bs; dq; bs; dq; dq] false = Some [[dq; bs; dq]].
Proof. repeat split; vm_compute; reflexivity. Qed.

(** ** C7 *)

(** C7: in comma mode a quoted field is not split at the commas it contains,
    and its quote delimiters are stripped.  Stated for every content [q] free
    of double quotes and backslashes; with [A, B] for [q] it is the equation
    of the claim. *)
Theorem split_args_quoted_comma q :
  forallb plain q = true ->
  split_args (dq :: q ++ dq :: lit " , C") false = Some [q; lit "C"].
Proof.
  intros F. unfold split_args, finditer, scan_all. cbv zeta.
  change (lit " , C") with ([32%N] ++ 44%N :: [32%N] ++ 67%N :: [] ++ []).
  rewrite (@scan_found _ _ _ _
             (quoted_unit_match 0 q _ F
                (tail_comma_value _ [32%N] 44%N [32%N] (67%N :: [] ++ []) _
                   eq_refl eq_refl eq_refl eq_refl))
             eq_refl).
  cbn [m_end fst length].
  rewrite (@scan_found _ _ _ _
             (text_unit_match _ 67%N [] [] eq_refl eq_refl I (tail_end_value _ _)))
    by (apply Nat.eqb_neq; cbn [m_end fst pos length app]; lia).
  cbn [m_end fst]. rewrite scan_at_end by apply splitter_at_end.
  cbn -[resolve_escapes].
  rewrite (resolve_escapes_no_bs q (plain_not_bs q F)). reflexivity.
Qed.

Lemma split_args_quoted_comma_witness :
  forallb plain (lit "A, B") = true /\
  split_args (dq :: lit "A, B" ++ dq :: lit " , C") false
  = Some [lit "A, B"; lit "C"].
Proof.
  split; [reflexivity | apply (split_args_quoted_comma (lit "A, B")); reflexivity].
Defined.

(** ** C8 *)

(** C8, as stated, fails: the scan of [split_args] is not a linear pass.
    On a double quote that only [n] backslashes follow, the attempt at the
    quote tries every way of cutting the run of backslashes into pairs and
    single ones before it gives the quoted reading up, which takes at least
    [2 ^ (n / 2)] steps; so no bound [a * len(args) + b] holds for the
    steps of [finditer] with the splitter. *)
Lemma finditer_cost_not_linear :
  (forall n, 2 ^ (n / 2) <= finditer_cost _re_arg_splitter (dq :: repeat bs n)) /\
  ~ exists a b, forall s,
      finditer_cost _re_arg_splitter s <= a * length s + b.
Proof.
  split; [exact finditer_backslashes_cost | ].
  intros (a & b & H). destruct (pow2_half_beats_linear a b) as (n & B).
  specialize (H (dq :: repeat bs n)). cbn [length] in H.
  rewrite repeat_length in H.
  pose proof (finditer_backslashes_cost n). lia.
Qed.

(** C8, amended: for every input and either flag [split_args] returns a
    list, of at most [len(args)] arguments, and its scan is a bounded pass
    over the input that ends by itself: allowed more than [len(args) + 1]
    iterations, the loop finds the same matches in the same attempts; the
    attempts start at strictly increasing positions of the input, so there
    are at most [len(args) + 1] of them; and the steps of each attempt, and
    of all of them together, are bounded by a function of [len(args)]
    alone. *)
Theorem split_args_bounded_scan s b :
  (exists l, split_args s b = Some l /\ length l <= length s) /\
  (forall fuel, length s < fuel ->
     scan _re_arg_splitter fuel (Cursor 0 s) = scan_all _re_arg_splitter s /\
     scan_attempts _re_arg_splitter fuel (Cursor 0 s)
     = finditer_attempts _re_arg_splitter s) /\
  StronglySorted lt (List.map fst (finditer_attempts _re_arg_splitter s)) /\
  Forall (fun a => fst a <= length s /\
                   snd a <= budget _re_arg_splitter (length s))
    (finditer_attempts _re_arg_splitter s) /\
  length (finditer_attempts _re_arg_splitter s) <= S (length s) /\
  finditer_cost _re_arg_splitter s
    <= S (length s) * budget _re_arg_splitter (length s).
Proof.
  split; [apply split_args_returns | ].
  split.
  { intros fuel L. split.
    - apply scan_fuel; cbn [rest]; lia.
    - apply scan_attempts_fuel; cbn [rest]; lia. }
  split; [apply scan_attempts_sorted | ].
  split; [ | split].
  - pose proof (scan_attempts_inside _re_arg_splitter (S (length s)) (Cursor 0 s)
                  (Nat.le_refl _)) as F.
    revert F. apply Forall_impl. cbn [pos rest]. intros a ((_ & P) & B).
    split; [lia | exact B].
  - apply (scan_attempts_length _re_arg_splitter (S (length s)) (Cursor 0 s)).
  - apply finditer_cost_budget.
Qed.

(** ** C9 *)

(** C9: an input made only of whitespace and commas, the empty input
    included, gives the empty list for either value of the flag. *)
Theorem split_args_only_delimiters s b :
  forallb is_delim s = true -> split_args s b = Some [].
Proof.
  intros F.
  assert (Q : ~ In dq s).
  { intros I. rewrite forallb_forall in F. specialize (F dq I). discriminate. }
  assert (T : tokens is_delim s [] = []).
  { rewrite <- (app_nil_r s). now rewrite tokens_delims. }
  assert (M : finditer _re_arg_splitter s = []).
  { apply map_eq_nil with (f := payload).
    rewrite finditer_tokens by (rewrite count_dq_0 by exact Q; lia).
    now rewrite T. }
  unfold split_args. cbv zeta. rewrite M. reflexivity.
Qed.

Lemma split_args_only_delimiters_witness :
  forallb is_delim (lit " , ") = true /\ split_args (lit " , ") false = Some [].
Proof.
  split; [reflexivity | apply (split_args_only_delimiters (lit " , ") false); reflexivity].
Defined.

(** ** C10 *)

(** C10: on an input without any comma, inside or outside quotes, the flag
    makes no difference. *)
Theorem split_args_flag_irrelevant s :
  no_commas s = true -> split_args s true = split_args s false.
Proof.
  intros N. apply no_commas_spec in N. unfold split_args. cbv zeta.
  rewrite comma_separated_treat.
  now rewrite comma_separated_none by now apply no_comma_tails.
Qed.

Lemma split_args_flag_irrelevant_witness :
  no_commas ([dq] ++ lit "A B" ++ [dq] ++ lit " C") = true /\
  split_args ([dq] ++ lit "A B" ++ [dq] ++ lit " C") true
  = split_args ([dq] ++ lit "A B" ++ [dq] ++ lit " C") false.
Proof.
  split; [reflexivity | ].
  apply (split_args_flag_irrelevant ([dq] ++ lit "A B" ++ [dq] ++ lit " C")).
  reflexivity.
Defined.

(** * Further properties *)

(** X1: every match found in any input is leading whitespace, a unit and a
    tail.  The unit is unquoted text, held by [text] (never empty, free of
    whitespace and commas, [quoted_text] unset), or a quoted span whose
    inside is held by [quoted_text] ([text] unset).  The tail always takes
    part: empty only at the end of the input or before a final line feed,
    otherwise whitespace around one comma, or a run of whitespace. *)
Theorem finditer_match_anatomy s :
  Forall match_anatomy (finditer _re_arg_splitter s).
Proof.
  apply Forall_forall. intros m H. apply finditer_origin in H.
  destruct H as (pre & c0 & _ & E).
  destruct (match_at_advances _ _ E) as (g & A & G).
  destruct (splitter_shape _ E) as (_ & w & u & tl & A' & Fw & U & T & S).
  exists w, u, tl. rewrite G, <- (advances_inj A' A). auto.
Qed.

Lemma quotes_escaped_weaken s : forall p,
  quotes_escaped p s = true -> quotes_escaped true s = true.
Proof.
  destruct s as [ | a t]; [reflexivity | ]. intros p. simpl.
  destruct (a =? dq)%N; [ | auto]. intros H. apply andb_prop in H. now destruct H.
Qed.

Lemma quotes_escaped_app w1 : forall p w2,
  quotes_escaped p w1 = true -> quotes_escaped false w2 = true ->
  quotes_escaped p (w1 ++ w2) = true.
Proof.
  induction w1 as [ | a w1 IH]; intros p w2 H1 H2; simpl in *.
  - destruct p; [now apply quotes_escaped_weaken with false | exact H2].
  - destruct (a =? dq)%N.
    + apply andb_prop in H1. destruct H1 as [-> H1]. simpl. auto.
    + auto.
Qed.

Lemma Matches_backslash_pairs c e c' e' :
  Matches backslash_pairs c e c' e' ->
  exists w, advances c w c' /\ forallb (N.eqb bs) w = true.
Proof.
  intros M. unfold backslash_pairs in M.
  remember (Star (Cat (Lit bs) (Lit bs))) as r eqn:E.
  induction M; inversion E; subst.
  - exists []. split; [apply advances_refl | reflexivity].
  - destruct (IHM2 eq_refl) as (w & A & F).
    inv M1.
    repeat match goal with H : Matches (Lit _) _ _ _ _ |- _ =>
      apply Matches_lit in H; destruct H as (_ & ?A) end.
    exists ([bs] ++ [bs] ++ w). split; [chain | ].
    simpl. exact F.
Qed.

Lemma all_bs_escaped w :
  forallb (N.eqb bs) w = true -> quotes_escaped false w = true.
Proof.
  intros F. assert (G : forall p, quotes_escaped p w = true); [ | apply G].
  induction w as [ | a w IH]; intros p; [reflexivity | ].
  cbn [forallb] in F. apply andb_prop in F. destruct F as [Fa F].
  apply N.eqb_eq in Fa. subst a. simpl. now apply IH.
Qed.

Lemma Matches_quoted_item c e c' e' :
  Matches quoted_item c e c' e' ->
  exists w, advances c w c' /\ quotes_escaped false w = true.
Proof.
  intros M. unfold quoted_item in M. inv M.
  - match goal with H : Matches backslash_pairs _ _ _ _ |- _ =>
      apply Matches_backslash_pairs in H; destruct H as (w & A & F) end.
    exists w. split; [exact A | now apply all_bs_escaped].
  - match goal with H : Matches (Alt _ _) _ _ _ _ |- _ => inv H end.
    + match goal with H : Matches (Cat _ _) _ _ _ _ |- _ => inv H end.
      repeat match goal with H : Matches (Lit _) _ _ _ _ |- _ =>
        apply Matches_lit in H; destruct H as (_ & ?A) end.
      exists ([bs] ++ [dq]). split; [chain | reflexivity].
    + match goal with H : Matches (Cls _) _ _ _ _ |- _ => inv H end.
      exists [x]. split; [apply advances_step | ].
      simpl. match goal with H : not_dq x = true |- _ =>
        unfold not_dq in H; apply negb_true_iff in H; now rewrite H end.
Qed.

Lemma Matches_quoted_body c e c' e' :
  Matches quoted_body c e c' e' ->
  exists w, advances c w c' /\ quotes_escaped false w = true.
Proof.
  intros M. unfold quoted_body in M.
  remember (Star quoted_item) as r eqn:E.
  induction M; inversion E; subst.
  - exists []. split; [apply advances_refl | reflexivity].
  - destruct (IHM2 eq_refl) as (w2 & A2 & F2).
    apply Matches_quoted_item in M1. destruct M1 as (w1 & A1 & F1).
    exists (w1 ++ w2). split; [chain | now apply quotes_escaped_app].
Qed.

Lemma splitter_quoted_text_escaped c m :
  match_at _re_arg_splitter c = Some m -> quoted_text_escaped m.
Proof.
  intros H. apply match_at_sound in H. destruct H as [S M].
  destruct m as [c0 c' e']. simpl in *. subst c0.
  unfold _re_arg_splitter in M. inv M.
  match goal with H : Matches (Star ws) _ _ _ _ |- _ =>
    apply Matches_star_cls in H; destruct H as (-> & w & Aw & Fw) end.
  match goal with H : Matches (Cat _ _) _ _ _ _ |- _ => inv H end.
  match goal with H : Matches tail_part _ _ _ _ |- _ =>
    apply Matches_tail in H; destruct H as (tl & At & St & ->) end.
  unfold quoted_text_escaped, group. cbn [m_groups].
  unfold set_group at 1. cbn [gname_eqb].
  match goal with H : Matches (Alt _ _) _ _ _ _ |- _ => inv H end.
  - match goal with H : Matches quoted_unit _ _ _ _ |- _ =>
      unfold quoted_unit in H; inv H end.
    match goal with H : Matches (Cat _ (Lit dq)) _ _ _ _ |- _ => inv H end.
    repeat match goal with H : Matches (Lit _) _ _ _ _ |- _ =>
      apply Matches_lit in H; destruct H as (-> & ?A) end.
    match goal with H : Matches (Group _ _) _ _ _ _ |- _ => inv H end.
    match goal with H : Matches quoted_body _ _ _ _ |- _ =>
      apply Matches_quoted_body in H; destruct H as (q & Aq & Fq) end.
    unfold set_group. cbn [gname_eqb]. now rewrite (advances_span Aq).
  - match goal with H : Matches text_unit _ _ _ _ |- _ =>
      apply Matches_text_unit in H; destruct H as (u & Au & Nu & Fu & ->) end.
    unfold set_group. cbn [gname_eqb]. exact I.
Qed.

(** X2: the inside of a quoted unit never holds a bare double quote: every
    double quote of [quoted_text] stands right after a backslash. *)
Theorem finditer_quoted_text_escaped s :
  Forall quoted_text_escaped (finditer _re_arg_splitter s).
Proof.
  apply Forall_forall. intros m H. apply finditer_origin in H.
  destruct H as (pre & c0 & _ & E). now apply splitter_quoted_text_escaped with c0.
Qed.

(** ** Escape resolution *)
Lemma unescape_shape c m :
  match_at _re_remove_escaped_quote c = Some m ->
  exists g, group group1 m = Some g /\ group0 m = g ++ [bs; dq].
Proof.
  intros H. apply match_at_sound in H. destruct H as [S M].
  destruct m as [c0 c' e']. simpl in *. subst c0.
  unfold _re_remove_escaped_quote in M. inv M.
  match goal with H : Matches (Cat (Lit bs) (Lit dq)) _ _ _ _ |- _ => inv H end.
  repeat match goal with H : Matches (Lit _) _ _ _ _ |- _ =>
    apply Matches_lit in H; destruct H as (-> & ?A) end.
  match goal with H : Matches (Group _ _) _ _ _ _ |- _ =>
    destruct (Matches_advances H) as (g & Ag); inv H end.
  exists g. split.
  - unfold group. cbn [m_groups]. unfold set_group. cbn [gname_eqb].
    now rewrite (advances_span Ag).
  - unfold group0. cbn [m_start m_end]. apply advances_span.
    change (g ++ [bs; dq]) with (g ++ [bs] ++ [dq]). chain.
Qed.

Lemma scan_items_origin r it : forall fuel c,
  In it (scan r fuel c) ->
  match it with
  | Found m => exists c0, match_at r c0 = Some m
  | Skipped _ => True
  end.
Proof.
  induction fuel as [ | fuel IH]; intros c H; [contradiction | ].
  cbn [scan] in H.
  assert (step : forall x t,
            In it (Skipped x :: scan r fuel (Cursor (S (pos c)) t)) ->
            match it with
            | Found m => exists c0, match_at r c0 = Some m
            | Skipped _ => True
            end).
  { intros x t [<- | I]; [exact Logic.I | now apply IH in I]. }
  destruct (match_at r c) as [m | ] eqn:E.
  - destruct H as [<- | H]; [now exists c | ].
    destruct (pos (m_end m) =? pos c).
    + destruct (rest c) as [ | x t]; [contradiction | now apply step with x t].
    + now apply IH in H.
  - destruct (rest c) as [ | x t]; [contradiction | now apply step with x t].
Qed.

Lemma substitute_drops_backslash it :
  match it with
  | Found m => exists c0, match_at _re_remove_escaped_quote c0 = Some m
  | Skipped _ => True
  end ->
  filter not_bs (substitute it) = filter not_bs (raw it) /\
  length (substitute it) <= length (raw it).
Proof.
  destruct it as [x | m]; [split; [reflexivity | apply Nat.le_refl] | ].
  intros (c0 & E). apply unescape_shape in E. destruct E as (g & G1 & G0).
  cbn [substitute raw]. unfold quote_template. rewrite G1, G0.
  rewrite !filter_app, !length_app. split; [reflexivity | simpl; lia].
Qed.

Lemma substitute_all_drops l :
  (forall it, In it l ->
     filter not_bs (substitute it) = filter not_bs (raw it) /\
     length (substitute it) <= length (raw it)) ->
  filter not_bs (concat (List.map substitute l))
  = filter not_bs (concat (List.map raw l)) /\
  length (concat (List.map substitute l)) <= length (concat (List.map raw l)).
Proof.
  induction l as [ | it l IH]; intros F.
  - split; [reflexivity | apply Nat.le_refl].
  - cbn [List.map concat]. rewrite !filter_app, !length_app.
    destruct (F it (or_introl eq_refl)) as [F1 F2].
    destruct IH as [I1 I2]; [intros j J; apply F; now right | ].
    split; [now rewrite F1, I1 | lia].
Qed.

Lemma re_sub_drops_backslashes s :
  filter not_bs (re_sub _re_remove_escaped_quote quote_template s)
  = filter not_bs s /\
  length (re_sub _re_remove_escaped_quote quote_template s) <= length s.
Proof.
  change (re_sub _re_remove_escaped_quote quote_template s)
    with (concat (List.map substitute (scan_all _re_remove_escaped_quote s))).
  pose proof (@scan_raw _re_remove_escaped_quote (S (length s)) (Cursor 0 s)
                (Nat.lt_succ_diag_r _)) as R.
  fold (scan_all _re_remove_escaped_quote s) in R. cbn [rest] in R.
  rewrite <- R at 2 4. apply substitute_all_drops.
  intros it I. apply substitute_drops_backslash.
  now apply scan_items_origin with (S (length s)) (Cursor 0 s).
Qed.

Lemma replace2_cons2 o1 o2 new a b t :
  replace2 o1 o2 new (a :: b :: t)
  = if ((a =? o1)%N && (b =? o2)%N)%bool then new ++ replace2 o1 o2 new t
    else a :: replace2 o1 o2 new (b :: t).
Proof. reflexivity. Qed.

Lemma replace2_drops_backslashes : forall n s,
  length s <= n ->
  filter not_bs (replace2 bs bs [bs] s) = filter not_bs s /\
  length (replace2 bs bs [bs] s) <= length s.
Proof.
  induction n as [ | n IH]; intros s L.
  - destruct s; [split; [reflexivity | apply Nat.le_refl] | simpl in L; lia].
  - destruct s as [ | a [ | b t]]; try (split; [reflexivity | apply Nat.le_refl]).
    rewrite replace2_cons2.
    destruct ((a =? bs)%N && (b =? bs)%N) eqn:E.
    + apply andb_prop in E. destruct E as [Ea Eb].
      apply N.eqb_eq in Ea, Eb. subst a b.
      destruct (IH t) as [F1 F2]; [simpl in L; lia | ].
      split; [simpl; exact F1 | simpl in *; lia].
    + destruct (IH (b :: t)) as [F1 F2]; [cbn [length] in *; lia | ].
      split.
      * change (a :: replace2 bs bs [bs] (b :: t))
          with ([a] ++ replace2 bs bs [bs] (b :: t)).
        change (a :: b :: t) with ([a] ++ b :: t).
        now rewrite !filter_app, F1.
      * cbn [length] in *. lia.
Qed.

Lemma resolve_escapes_drops s :
  filter not_bs (resolve_escapes s) = filter not_bs s /\
  length (resolve_escapes s) <= length s.
Proof.
  unfold resolve_escapes.
  destruct (re_sub_drops_backslashes s) as [S1 S2].
  destruct (@replace2_drops_backslashes _
              (re_sub _re_remove_escaped_quote quote_template s) (Nat.le_refl _))
    as [R1 R2].
  split; [now rewrite R1 | lia].
Qed.

(** X3: escape resolution only ever drops backslashes: the characters other
    than backslashes are kept, all of them and in order, and the field never
    gets longer. *)
Theorem resolve_escapes_only_drops_backslashes s :
  filter not_bs (resolve_escapes s) = filter not_bs s /\
  length (resolve_escapes s) <= length s.
Proof. apply resolve_escapes_drops. Qed.

(** ** Unquoted inputs, commas read as spaces *)
Lemma tokens_app_delim d x s2 : forall s1 cur,
  d x = true ->
  tokens d (s1 ++ x :: s2) cur = tokens d s1 cur ++ tokens d s2 [].
Proof.
  induction s1 as [ | a s1 IH]; intros cur D; simpl.
  - rewrite D. now destruct cur.
  - destruct (d a); [ | now apply IH].
    destruct cur; rewrite IH by exact D; reflexivity.
Qed.

Lemma text_char_delim x : text_char x = negb (is_delim x).
Proof. reflexivity. Qed.

Lemma tokens_bare s : forall cur,
  forallb text_char cur = true ->
  Forall bare_word (tokens is_delim s cur).
Proof.
  induction s as [ | x s IH]; intros cur F; simpl.
  - destruct cur; constructor; [ | constructor]. split; [discriminate | exact F].
  - destruct (is_delim x) eqn:D.
    + destruct cur; [now apply IH | ].
      constructor; [split; [discriminate | exact F] | now apply IH].
    + apply IH. rewrite forallb_app, F. simpl.
      now rewrite text_char_delim, D.
Qed.

Lemma replace2_In : forall n s x,
  length s <= n -> In x (replace2 bs bs [bs] s) -> In x s.
Proof.
  induction n as [ | n IH]; intros s x L I.
  - destruct s; [exact I | simpl in L; lia].
  - destruct s as [ | a [ | b t]]; try exact I.
    rewrite replace2_cons2 in I.
    destruct ((a =? bs)%N && (b =? bs)%N) eqn:E.
    + apply andb_prop in E. destruct E as [Ea Eb].
      apply N.eqb_eq in Ea, Eb. subst a b.
      destruct I as [<- | I]; [now left | ].
      right. right. apply (IH t); [simpl in L; lia | exact I].
    + destruct I as [<- | I]; [now left | ].
      right. apply (IH (b :: t)); [cbn [length] in *; lia | exact I].
Qed.

Lemma replace2_nonempty s : s <> [] -> replace2 bs bs [bs] s <> [].
Proof.
  destruct s as [ | a [ | b t]]; [contradiction | discriminate | ].
  intros _. rewrite replace2_cons2.
  destruct ((a =? bs)%N && (b =? bs)%N); discriminate.
Qed.

Lemma replace2_bare a : bare_word a -> bare_word (replace2 bs bs [bs] a).
Proof.
  intros [N F]. split; [now apply replace2_nonempty | ].
  apply forallb_forall. intros x I.
  apply (@replace2_In _ a x (Nat.le_refl _)) in I.
  rewrite forallb_forall in F. now apply F.
Qed.

Lemma no_quotes_app s t : no_quotes (s ++ t) = no_quotes s && no_quotes t.
Proof. apply forallb_app. Qed.

Lemma delim_not_dq x : is_delim x = true -> not_dq x = true.
Proof.
  intros D. unfold not_dq. destruct (N.eqb_spec x dq); [subst x; discriminate | reflexivity].
Qed.

Lemma split_args_unquoted_true s :
  no_quotes s = true ->
  split_args s true
  = Some (List.map (replace2 bs bs [bs]) (tokens is_delim s [])).
Proof.
  intros Qs. apply no_quotes_spec in Qs.
  rewrite (split_args_whitespace_mode s true (tokens is_delim s [])).
  - f_equal. apply map_ext_Forall.
    apply Forall_impl with (P := Forall (fun x => x <> dq)).
    + intros t F. apply resolve_escapes_no_dq. intros I.
      rewrite Forall_forall in F. now apply (F dq I).
    + apply tokens_Forall; [ | constructor].
      apply Forall_forall. intros y I ->. contradiction.
  - apply comma_separated_treat.
  - apply finditer_tokens. rewrite count_dq_0 by exact Qs. lia.
Qed.

(** X4: with commas read as spaces, splitting distributes over joining two
    unquoted inputs with a delimiter (a whitespace character or a comma):
    the arguments of the whole are those of the first part followed by those
    of the second. *)
Theorem split_args_append s1 s2 x :
  no_quotes s1 = true -> no_quotes s2 = true -> is_delim x = true ->
  exists l1 l2,
    split_args s1 true = Some l1 /\ split_args s2 true = Some l2 /\
    split_args (s1 ++ x :: s2) true = Some (l1 ++ l2).
Proof.
  intros Q1 Q2 D.
  assert (Q : no_quotes (s1 ++ x :: s2) = true).
  { rewrite no_quotes_app, Q1. cbn [no_quotes forallb]. fold (no_quotes s2).
    now rewrite (delim_not_dq x D), Q2. }
  exists (List.map (replace2 bs bs [bs]) (tokens is_delim s1 [])),
         (List.map (replace2 bs bs [bs]) (tokens is_delim s2 [])).
  rewrite !split_args_unquoted_true by assumption. repeat split.
  now rewrite tokens_app_delim, map_app.
Qed.

Lemma split_args_append_witness :
  no_quotes (lit "A B") = true /\ no_quotes (lit "C") = true /\
  is_delim comma = true /\
  exists l1 l2,
    split_args (lit "A B") true = Some l1 /\ split_args (lit "C") true = Some l2 /\
    split_args (lit "A B" ++ comma :: lit "C") true = Some (l1 ++ l2).
Proof.
  split; [reflexivity | ]. split; [reflexivity | ]. split; [reflexivity | ].
  apply (split_args_append (lit "A B") (lit "C") comma); reflexivity.
Defined.

(** X5: on an unquoted input, with commas read as spaces, every argument is
    a bare word: it is not empty and holds neither whitespace nor a comma. *)
Theorem split_args_unquoted_bare_words s :
  no_quotes s = true ->
  exists l, split_args s true = Some l /\ Forall bare_word l.
Proof.
  intros Q. rewrite split_args_unquoted_true by exact Q.
  eexists. split; [reflexivity | ].
  apply Forall_map. apply Forall_impl with (P := bare_word).
  - apply replace2_bare.
  - now apply tokens_bare.
Qed.

Lemma split_args_unquoted_bare_words_witness :
  no_quotes (lit " A,B  C ") = true /\
  exists l, split_args (lit " A,B  C ") true = Some l /\ Forall bare_word l.
Proof.
  split; [reflexivity | ].
  apply (split_args_unquoted_bare_words (lit " A,B  C ")). reflexivity.
Defined.

Lemma tokens_join d sep : forall l,
  sep <> [] -> forallb d sep = true ->
  Forall (fun a => a <> [] /\ forallb (fun x => negb (d x)) a = true) l ->
  tokens d (join sep l) [] = l.
Proof.
  intros l Ns Fs F. induction F as [ | a l [Na Fa] F IH]; [reflexivity | ].
  cbn [join]. destruct l as [ | b l].
  - rewrite <- (app_nil_r a) at 1. rewrite tokens_run by exact Fa. simpl.
    destruct a; [contradiction | reflexivity].
  - rewrite tokens_run by exact Fa. cbn [app].
    destruct sep as [ | y sep]; [contradiction | ].
    cbn [forallb] in Fs. apply andb_prop in Fs. destruct Fs as [Fy Fs].
    cbn [app tokens]. rewrite Fy.
    destruct a; [contradiction | ].
    now rewrite tokens_delims, IH.
Qed.

Lemma join_Forall (P : char -> Prop) sep : forall l,
  Forall P sep -> Forall (Forall P) l -> Forall P (join sep l).
Proof.
  intros l Fs F. induction F as [ | a l Fa F IH]; [constructor | ].
  cbn [join]. destruct l; [exact Fa | ].
  apply Forall_app. split; [exact Fa | ]. apply Forall_app. now split.
Qed.

Lemma forallb_Forall (p : char -> bool) l :
  forallb p l = true <-> Forall (fun x => p x = true) l.
Proof. rewrite forallb_forall, Forall_forall. reflexivity. Qed.

Lemma map_id_Forall (f : str -> str) l :
  Forall (fun a => f a = a) l -> List.map f l = l.
Proof. induction 1; simpl; congruence. Qed.

(** X6: splitting is stable under re-joining.  When an input without
    double quotes and without backslashes is split with commas read as
    spaces, joining the arguments with any non-empty separator made of
    whitespace and commas and splitting again gives the same arguments. *)
Theorem split_args_join_round_trip s sep :
  no_quotes s = true -> forallb not_bs s = true ->
  sep <> [] -> forallb is_delim sep = true ->
  exists l, split_args s true = Some l /\
            split_args (join sep l) true = Some l.
Proof.
  intros Q B Ns Fs.
  assert (T : Forall (Forall (fun x => not_dq x = true /\ not_bs x = true))
                (tokens is_delim s [])).
  { apply tokens_Forall; [ | constructor].
    apply Forall_forall. intros x I. unfold no_quotes in Q.
    rewrite forallb_forall in Q, B. split; auto. }
  assert (E : List.map (replace2 bs bs [bs]) (tokens is_delim s [])
              = tokens is_delim s []).
  { apply map_id_Forall. apply Forall_impl with (2 := T).
    intros a F. apply replace2_no_bs. apply forallb_Forall.
    apply Forall_impl with (2 := F). now intros x [_ H]. }
  exists (tokens is_delim s []).
  rewrite split_args_unquoted_true, E by exact Q.
  split; [reflexivity | ].
  assert (J : Forall (fun x => not_dq x = true /\ not_bs x = true)
                (join sep (tokens is_delim s []))).
  { apply join_Forall; [ | exact T]. apply Forall_forall. intros x I.
    rewrite forallb_forall in Fs. specialize (Fs x I).
    split; [now apply delim_not_dq | ].
    unfold not_bs. destruct (N.eqb_spec x bs); [subst x; discriminate | reflexivity]. }
  rewrite split_args_unquoted_true.
  - rewrite tokens_join; [ | exact Ns | exact Fs | ].
    + f_equal. exact E.
    + apply Forall_impl with (2 := tokens_bare s [] eq_refl).
      intros a [Na Fa]. split; [exact Na | ].
      apply forallb_impl with (p := text_char); [ | exact Fa].
      intros x H. now rewrite <- text_char_delim.
  - apply forallb_Forall. apply Forall_impl with (2 := J). now intros x [H _].
Qed.

Lemma split_args_join_round_trip_witness :
  no_quotes (lit " A,B  C ") = true /\ forallb not_bs (lit " A,B  C ") = true /\
  lit ", " <> [] /\ forallb is_delim (lit ", ") = true /\
  exists l, split_args (lit " A,B  C ") true = Some l /\
            split_args (join (lit ", ") l) true = Some l.
Proof.
  split; [reflexivity | ]. split; [reflexivity | ].
  split; [discriminate | ]. split; [reflexivity | ].
  apply (split_args_join_round_trip (lit " A,B  C ") (sep := lit ", "));
    [reflexivity | reflexivity | discriminate | reflexivity].
Defined.

(** X7: an input that is one quoted unit with plain content (no double quote,
    no backslash; spaces and commas allowed, the empty content too) gives
    exactly one argument, the content without its quotes, for either value
    of the flag. *)
Theorem split_args_single_quoted q b :
  forallb plain q = true ->
  split_args (dq :: q ++ [dq]) b = Some [q].
Proof.
  intros F. unfold split_args, finditer, scan_all. cbv zeta.
  rewrite (@scan_found _ _ _ _
             (quoted_unit_match 0 q [] F (tail_end_value _ _)) eq_refl).
  cbn [m_end fst]. rewrite scan_at_end by apply splitter_at_end.
  cbn [found].
  destruct b; cbn -[resolve_escapes];
    now rewrite (resolve_escapes_no_bs q (plain_not_bs q F)).
Qed.

Lemma split_args_single_quoted_witness :
  forallb plain (lit "A, B  C") = true /\
  split_args (dq :: lit "A, B  C" ++ [dq]) false = Some [lit "A, B  C"].
Proof.
  split; [reflexivity | ].
  apply (split_args_single_quoted (lit "A, B  C") false). reflexivity.
Defined.

(** X8: an input that is one run of characters other than whitespace and
    commas, and that does not begin with a double quote, gives exactly one
    argument, the run with its escapes resolved, even when it holds double
    quotes further on; for either value of the flag. *)
Theorem split_args_single_word y u b :
  forallb text_char (y :: u) = true -> (dq =? y)%N = false ->
  split_args (y :: u) b = Some [resolve_escapes (y :: u)].
Proof.
  intros F D.
  pose proof (text_unit_match 0 y u [] F D I (tail_end_value _ _)) as E.
  rewrite app_nil_r in E.
  unfold split_args, finditer, scan_all. cbv zeta.
  rewrite (@scan_found _ _ _ _ E eq_refl).
  cbn [m_end fst]. rewrite scan_at_end by apply splitter_at_end.
  cbn [found]. destruct b; cbn -[resolve_escapes]; reflexivity.
Qed.

Lemma split_args_single_word_witness :
  forallb text_char (lit "ab" ++ dq :: lit "cd") = true /\
  (dq =? 97)%N = false /\
  split_args (lit "ab" ++ dq :: lit "cd") false
  = Some [resolve_escapes (lit "ab" ++ dq :: lit "cd")].
Proof.
  split; [reflexivity | ]. split; [reflexivity | ].
  apply (split_args_single_word 97%N (lit "b" ++ dq :: lit "cd") false);
    reflexivity.
Defined.

(** ** Values of escape resolution *)
Lemma replace2_plain_prefix u : forall t,
  forallb not_bs u = true ->
  replace2 bs bs [bs] (u ++ t) = u ++ replace2 bs bs [bs] t.
Proof.
  induction u as [ | a u IH]; intros t F; [reflexivity | ].
  cbn [forallb] in F. apply andb_prop in F. destruct F as [Fa F].
  unfold not_bs in Fa. apply negb_true_iff in Fa.
  cbn [app]. destruct (u ++ t) as [ | b r] eqn:E.
  - destruct u; [ | discriminate]. simpl in E. subst t. reflexivity.
  - rewrite replace2_cons2, Fa. cbn [andb]. rewrite <- E, IH by exact F.
    reflexivity.
Qed.

Lemma replace2_backslash_run v : forall k n,
  n <= k -> forallb not_bs v = true ->
  replace2 bs bs [bs] (repeat bs n ++ v) = repeat bs ((n + 1) / 2) ++ v.
Proof.
  induction k as [ | k IH]; intros n L F.
  - assert (n = 0) by lia. subst n. simpl. now apply replace2_no_bs.
  - destruct n as [ | [ | n]].
    + simpl. now apply replace2_no_bs.
    + cbn [repeat app Nat.add]. change (2 / 2) with 1. cbn [repeat app].
      destruct v as [ | b t]; [reflexivity | ].
      rewrite replace2_cons2.
      pose proof F as F'. cbn [forallb] in F'. apply andb_prop in F'.
      destruct F' as [Fb _]. unfold not_bs in Fb. apply negb_true_iff in Fb.
      rewrite Fb, N.eqb_refl. cbn [andb]. now rewrite replace2_no_bs.
    + cbn [repeat app]. rewrite replace2_cons2, N.eqb_refl. cbn [andb app].
      rewrite IH by (auto; lia).
      replace (S (S n) + 1) with (n + 1 + 1 * 2) by lia.
      rewrite Nat.div_add by discriminate.
      now rewrite !Nat.add_1_r.
Qed.

(** X9: between plain characters (no double quote, no backslash) a run of
    [n] backslashes comes out of escape resolution as the same run halved,
    rounded up: pairs collapse and an odd backslash is kept. *)
Theorem resolve_escapes_backslash_run u v n :
  forallb plain u = true -> forallb plain v = true ->
  resolve_escapes (u ++ repeat bs n ++ v) = u ++ repeat bs ((n + 1) / 2) ++ v.
Proof.
  intros Fu Fv.
  assert (P : forall w, forallb plain w = true -> ~ In dq w).
  { intros w F I. rewrite forallb_forall in F. specialize (F dq I). discriminate. }
  rewrite resolve_escapes_no_dq.
  - rewrite replace2_plain_prefix by now apply plain_not_bs.
    rewrite (@replace2_backslash_run v n n) by (auto using plain_not_bs).
    reflexivity.
  - intros I. apply in_app_or in I. destruct I as [I | I]; [now apply (P u) | ].
    apply in_app_or in I. destruct I as [I | I]; [ | now apply (P v)].
    apply repeat_spec in I. discriminate.
Qed.

Lemma resolve_escapes_backslash_run_witness :
  forallb plain (lit "a") = true /\ forallb plain (lit "b") = true /\
  resolve_escapes (lit "a" ++ repeat bs 3 ++ lit "b")
  = lit "a" ++ repeat bs ((3 + 1) / 2) ++ lit "b".
Proof.
  split; [reflexivity | ]. split; [reflexivity | ].
  apply (resolve_escapes_backslash_run (lit "a") (lit "b") 3); reflexivity.
Defined.

(** ** An isolated escaped quote *)
Lemma pairs_body_fails r e k i :
  match r with
  | a :: b :: _ => ((bs =? a)%N && (bs =? b)%N) = false
  | _ => True
  end ->
  rmatch (Cat (Lit bs) (Lit bs)) (Cursor i r) e k = None.
Proof.
  intros H. rewrite rmatch_cat. unfold Lit. rewrite rmatch_cls. cbn [rest pos].
  destruct r as [ | a [ | b t]]; [reflexivity | | ].
  - destruct (bs =? a)%N; reflexivity.
  - destruct (bs =? a)%N; [ | reflexivity].
    rewrite rmatch_cls. cbn [rest pos]. cbn [andb] in H. now rewrite H.
Qed.

Lemma star_pairs_greedy K x r : forall k i fuel e,
  match r with
  | a :: b :: _ => ((bs =? a)%N && (bs =? b)%N) = false
  | _ => True
  end ->
  length (repeat bs (k + k) ++ r) <= fuel ->
  K (Cursor (i + (k + k)) r) e = Some x ->
  star_loop (rmatch (Cat (Lit bs) (Lit bs))) fuel
    (Cursor i (repeat bs (k + k) ++ r)) e K = Some x.
Proof.
  induction k as [ | k IH]; intros i fuel e H L V.
  - rewrite star_loop_unfold. cbn [Nat.add repeat app].
    rewrite pairs_body_fails by exact H.
    now rewrite Nat.add_0_r in V.
  - rewrite Nat.add_succ_r in *. cbn [Nat.add repeat app] in *.
    destruct fuel as [ | fuel]; [cbn [length] in L; lia | ].
    rewrite star_loop_unfold, rmatch_cat, !rmatch_lit_ok. cbn [pos].
    replace (S (S i) =? i) with false by (symmetry; apply Nat.eqb_neq; lia).
    rewrite (IH (S (S i)) fuel e H); [reflexivity | cbn [length] in L; lia | ].
    now replace (S (S i) + (k + k)) with (i + S (S (k + k))) by lia.
Qed.

Lemma unescape_tail_value j r e :
  rmatch (Cat (Lit bs) (Lit dq)) (Cursor j (bs :: dq :: r)) e final
  = Some (Cursor (S (S j)) r, e).
Proof. now rewrite rmatch_cat, !rmatch_lit_ok. Qed.

Lemma unescape_match_after_char i x k r :
  not_bs x = true ->
  match_at _re_remove_escaped_quote
    (Cursor i (x :: repeat bs (k + k) ++ bs :: dq :: r)) <> None.
Proof.
  intros Nx. unfold match_at, _re_remove_escaped_quote.
  rewrite rmatch_cat, rmatch_group, rmatch_cat, rmatch_alt, rmatch_cls.
  cbn [rest pos]. rewrite Nx. unfold backslash_pairs. rewrite rmatch_star.
  cbn [rest].
  match goal with
  | |- context [star_loop ?b ?f ?c ?e ?K] =>
      assert (V : exists y, star_loop b f c e K = Some y);
      [ | destruct V as ([c' e'] & ->); discriminate]
  end.
  eexists. apply star_pairs_greedy;
    [reflexivity | apply Nat.le_refl | apply unescape_tail_value].
Qed.

Lemma unescape_match_at_start k r :
  match_at _re_remove_escaped_quote
    (Cursor 0 (repeat bs (k + k) ++ bs :: dq :: r)) <> None.
Proof.
  unfold match_at, _re_remove_escaped_quote.
  rewrite rmatch_cat, rmatch_group, rmatch_cat, rmatch_alt, rmatch_cls.
  cbn [rest pos].
  assert (H : exists t, repeat bs (k + k) ++ bs :: dq :: r = bs :: t).
  { destruct k; [now exists (dq :: r) | ]. cbn [Nat.add repeat app]. eauto. }
  destruct H as (t & H). rewrite H. cbn -[star_loop rmatch]. rewrite <- H.
  cbn [rmatch pos Nat.eqb]. fold backslash_pairs.
  unfold backslash_pairs. rewrite rmatch_star. cbn [rest].
  match goal with
  | |- context [star_loop ?b ?f ?c ?e ?K] =>
      assert (V : exists y, star_loop b f c e K = Some y);
      [ | destruct V as ([c' e'] & ->); discriminate]
  end.
  eexists. apply star_pairs_greedy;
    [reflexivity | apply Nat.le_refl | apply unescape_tail_value].
Qed.

Lemma substitute_skipped l : concat (List.map substitute (List.map Skipped l)) = l.
Proof. induction l as [ | x l IH]; [reflexivity | ]. simpl. now f_equal. Qed.

Lemma count_dq_none s : count_dq s = 0 -> ~ In dq s.
Proof. intros H. now apply count_occ_not_In in H. Qed.

Lemma scan_unescape_one_quote : forall fuel c,
  length (rest c) < fuel -> count_dq (rest c) <= 1 ->
  (concat (List.map substitute (scan _re_remove_escaped_quote fuel c)) = rest c /\
   forall pre c0, rest c = pre ++ rest c0 -> pos c0 = pos c + length pre ->
                  match_at _re_remove_escaped_quote c0 = None)
  \/ (exists pre g post,
        rest c = pre ++ g ++ [bs; dq] ++ post /\
        concat (List.map substitute (scan _re_remove_escaped_quote fuel c))
        = pre ++ g ++ [dq] ++ post).
Proof.
  induction fuel as [ | fuel IH]; intros c L Q; [lia | ].
  cbn [scan]. destruct (match_at _re_remove_escaped_quote c) as [m | ] eqn:E.
  - right. rewrite (unescape_progress _ E).
    destruct (unescape_shape _ E) as (g & G1 & G0).
    destruct (match_at_advances _ _ E) as (w & [R P] & G). rewrite G0 in G. subst w.
    assert (N : ~ In dq (rest (m_end m))).
    { apply count_dq_none. rewrite R, !count_dq_app in Q.
      change (count_dq [bs; dq]) with 1 in Q. lia. }
    exists [], g, (rest (m_end m)). split; [now rewrite R, <- app_assoc | ].
    rewrite scan_no_match.
    + cbn [List.map concat substitute app]. unfold quote_template. rewrite G1.
      now rewrite substitute_skipped, <- app_assoc.
    + rewrite R, !length_app in L. simpl in L. lia.
    + intros c0 m0 E0. exists dq. split; [ | exact N].
      now apply unescape_needs_dq with m0.
  - destruct c as [i [ | x t]]; cbn [rest pos] in *.
    + left. split; [reflexivity | ]. intros pre c0 R P.
      destruct pre; [ | discriminate]. destruct c0 as [j r]. simpl in *.
      subst r. now replace j with i by lia.
    + destruct (IH (Cursor (S i) t)) as [[HS N] | (pre & g & post & R & HS)].
      * simpl in *. lia.
      * cbn [rest]. unfold count_dq in *. simpl in Q.
        destruct (N.eq_dec x dq); lia.
      * left. cbn [List.map concat substitute]. cbn [rest] in HS. rewrite HS.
        split; [reflexivity | ]. intros pre c0 R P.
        destruct pre as [ | y pre].
        -- destruct c0 as [j r]. simpl in *. subst r.
           now replace j with i by lia.
        -- injection R as -> R. apply (N pre c0 R). cbn [pos length] in *. lia.
      * right. exists (x :: pre), g, post. cbn [rest] in R.
        split; [now rewrite R | ].
        cbn [List.map concat substitute]. now rewrite HS.
Qed.

Lemma repeat_snoc (x : char) n : repeat x (S n) = repeat x n ++ [x].
Proof.
  replace (S n) with (n + 1) by lia. now rewrite repeat_app.
Qed.

Lemma plain_no_dq w : forallb plain w = true -> forallb not_dq w = true.
Proof.
  apply forallb_impl. intros x H. unfold plain in H. now apply andb_prop in H.
Qed.

Lemma count_dq_forallb w : forallb not_dq w = true -> count_dq w = 0.
Proof.
  intros F. apply count_occ_not_In. intros I.
  rewrite forallb_forall in F. specialize (F dq I). discriminate.
Qed.

Lemma forallb_count_dq w : count_dq w = 0 -> forallb not_dq w = true.
Proof.
  intros C. apply forallb_forall. intros x I. unfold not_dq.
  destruct (N.eqb_spec x dq); [subst x | reflexivity].
  exfalso. now apply (count_dq_none w C).
Qed.

Lemma last_or_nil (u : str) : u = [] \/ exists u' x, u = u' ++ [x].
Proof.
  destruct u as [ | a u]; [now left | right].
  destruct (@exists_last _ (a :: u)) as (u' & x & E); [discriminate | ].
  now exists u', x.
Qed.

(** X10: an escaped quote that stands alone decodes as documented.  When a
    run of [n] backslashes and a double quote stand between plain text (no
    other double quote, no other backslash), escape resolution leaves the
    quote and half of the backslashes, rounded down: an odd run gives up its
    last backslash to unescape the quote, and the pairs collapse. *)
Theorem resolve_escapes_escaped_quote u v n :
  forallb plain u = true -> forallb plain v = true ->
  resolve_escapes (u ++ repeat bs n ++ dq :: v)
  = u ++ repeat bs (n / 2) ++ dq :: v.
Proof.
  intros Fu Fv.
  assert (Cu := count_dq_forallb u (plain_no_dq u Fu)).
  assert (Cv := count_dq_forallb v (plain_no_dq v Fv)).
  assert (Cr : count_dq (repeat bs n) = 0).
  { apply count_occ_not_In. intros I. apply repeat_spec in I. discriminate. }
  assert (Q : count_dq (u ++ repeat bs n ++ dq :: v) = 1).
  { change (dq :: v) with ([dq] ++ v). rewrite !count_dq_app, Cu, Cv, Cr.
    reflexivity. }
  assert (B : forallb not_bs (dq :: v) = true).
  { cbn [forallb]. now rewrite (plain_not_bs v Fv). }
  assert (R2 : forall k,
            replace2 bs bs [bs] (u ++ repeat bs k ++ dq :: v)
            = u ++ repeat bs ((k + 1) / 2) ++ dq :: v).
  { intros k. rewrite replace2_plain_prefix by now apply plain_not_bs.
    now rewrite (@replace2_backslash_run (dq :: v) k k) by auto. }
  unfold resolve_escapes.
  change (re_sub _re_remove_escaped_quote quote_template (u ++ repeat bs n ++ dq :: v))
    with (concat (List.map substitute
                    (scan _re_remove_escaped_quote
                       (S (length (u ++ repeat bs n ++ dq :: v)))
                       (Cursor 0 (u ++ repeat bs n ++ dq :: v))))).
  destruct (@scan_unescape_one_quote
              (S (length (u ++ repeat bs n ++ dq :: v)))
              (Cursor 0 (u ++ repeat bs n ++ dq :: v)))
    as [[HS N] | (pre & g & post & R & HS)].
  - cbn [rest]. lia.
  - cbn [rest]. lia.
  - rewrite HS. cbn [rest pos] in *. rewrite R2.
    destruct (Nat.Even_or_Odd n) as [[m ->] | [m ->]].
    + replace (2 * m + 1) with (m * 2 + 1) by lia.
      rewrite Nat.div_add_l by discriminate.
      replace (2 * m) with (m * 2) by lia. rewrite Nat.div_mul by discriminate.
      change (1 / 2) with 0. now rewrite Nat.add_0_r.
    + exfalso.
      assert (E : repeat bs (2 * m + 1) ++ dq :: v
                  = repeat bs (m + m) ++ bs :: dq :: v).
      { replace (2 * m + 1) with (S (m + m)) by lia.
        now rewrite repeat_snoc, <- app_assoc. }
      destruct (last_or_nil u) as [-> | (u' & x & ->)].
      * apply (unescape_match_at_start m v).
        apply (N [] (Cursor 0 (repeat bs (m + m) ++ bs :: dq :: v)));
          [cbn [rest app]; exact E | reflexivity].
      * assert (Nx : not_bs x = true).
        { apply plain_not_bs in Fu. rewrite forallb_app in Fu.
          apply andb_prop in Fu. destruct Fu as [_ Fu]. simpl in Fu.
          now rewrite andb_true_r in Fu. }
        apply (@unescape_match_after_char (length u') x m v Nx).
        apply (N u' (Cursor (length u') (x :: repeat bs (m + m) ++ bs :: dq :: v)));
          [ | reflexivity].
        cbn [rest]. now rewrite <- app_assoc, E.
  - rewrite HS. cbn [rest] in R.
    assert (C : count_dq pre = 0 /\ count_dq g = 0 /\ count_dq post = 0).
    { rewrite R, !count_dq_app in Q. change (count_dq [bs; dq]) with 1 in Q. lia. }
    destruct C as (Cp & Cg & Cq).
    destruct (@first_stop_unique not_dq (pre ++ g ++ [bs]) dq post
                (u ++ repeat bs n) dq v) as (E & _ & ->).
    + rewrite <- !app_assoc. cbn [app]. cbn [app] in R. now rewrite <- R.
    + rewrite !forallb_app, (forallb_count_dq pre Cp), (forallb_count_dq g Cg).
      reflexivity.
    + reflexivity.
    + rewrite forallb_app, (plain_no_dq u Fu). apply forallb_count_dq. exact Cr.
    + reflexivity.
    + destruct n as [ | n].
      * exfalso. cbn [repeat] in E. rewrite app_nil_r in E.
        apply plain_not_bs in Fu. rewrite <- E, !forallb_app in Fu.
        simpl in Fu. rewrite !andb_false_r in Fu. discriminate.
      * rewrite repeat_snoc, !app_assoc in E. apply app_inj_tail in E.
        destruct E as [E _].
        replace (pre ++ g ++ [dq] ++ v) with ((pre ++ g) ++ dq :: v)
          by now rewrite <- app_assoc.
        rewrite E, <- app_assoc, R2. now rewrite Nat.add_1_r.
Qed.

Lemma resolve_escapes_escaped_quote_witness :
  forallb plain (lit "B") = true /\ forallb plain (lit "C") = true /\
  resolve_escapes (lit "B" ++ repeat bs 1 ++ dq :: lit "C")
  = lit "B" ++ repeat bs (1 / 2) ++ dq :: lit "C".
Proof.
  split; [reflexivity | ]. split; [reflexivity | ].
  apply (resolve_escapes_escaped_quote (lit "B") (lit "C") 1); reflexivity.
Defined.

(** ** Unquoted inputs, either mode *)
Lemma resolve_escapes_nonempty a : a <> [] -> resolve_escapes a <> [].
Proof.
  intros N E.
  destruct (resolve_escapes_drops a) as [F _].
  rewrite E in F. cbn [filter] in F.
  assert (B : forall x, In x a -> x = bs).
  { intros x I. destruct (N.eqb_spec x bs) as [-> | D]; [reflexivity | exfalso].
    assert (J : In x (filter not_bs a)).
    { apply filter_In. split; [exact I | ]. unfold not_bs.
      now apply negb_true_iff, N.eqb_neq. }
    now rewrite <- F in J. }
  rewrite resolve_escapes_no_dq in E.
  - now apply (replace2_nonempty N).
  - intros I. apply B in I. discriminate.
Qed.

Lemma resolve_escapes_comma_free a : comma_free a -> comma_free (resolve_escapes a).
Proof.
  intros C x I. destruct (is_comma x) eqn:Cx; [exfalso | reflexivity].
  assert (J : In x (filter not_bs (resolve_escapes a))).
  { apply filter_In. split; [exact I | ]. unfold not_bs.
    destruct (N.eqb_spec x bs); [subst x; discriminate | reflexivity]. }
  destruct (resolve_escapes_drops a) as [F _].
  rewrite F in J. apply filter_In in J. destruct J as [J _].
  rewrite (C x J) in Cx. discriminate.
Qed.

Lemma comma_free_app a b : comma_free a -> comma_free b -> comma_free (a ++ b).
Proof. intros A B x I. apply in_app_or in I. destruct I; auto. Qed.

Lemma space_comma_free w : forallb is_space w = true -> comma_free w.
Proof.
  intros F x I. rewrite forallb_forall in F. specialize (F x I).
  destruct (is_comma x) eqn:C; [ | reflexivity].
  now rewrite (comma_not_space x C) in F.
Qed.

Lemma text_comma_free u : forallb text_char u = true -> comma_free u.
Proof.
  intros F x I. rewrite forallb_forall in F. specialize (F x I).
  unfold text_char in F. apply negb_true_iff in F. now apply orb_false_iff in F.
Qed.

Lemma unquoted_match_open m :
  unquoted_match m -> ends_with_comma m = false -> comma_free (group0 m).
Proof.
  intros (w & u & tl & G & Fw & _ & _ & Fu & _ & T & S) E.
  rewrite G. apply comma_free_app; [now apply space_comma_free | ].
  apply comma_free_app; [now apply text_comma_free | ].
  unfold ends_with_comma in E. rewrite T in E.
  destruct S as [_ | a x b Fa Cx Fb | t Ht].
  - intros x [].
  - exfalso. assert (I : isspace (a ++ x :: b) = false).
    { unfold isspace. destruct (a ++ x :: b) eqn:Eq; [reflexivity | ].
      rewrite <- Eq, forallb_app. cbn [forallb].
      now rewrite (comma_not_space x Cx), andb_false_r. }
    rewrite I in E. destruct (a ++ x :: b) eqn:Eq; [now destruct a | discriminate].
  - apply space_comma_free. unfold isspace in Ht. now destruct t.
Qed.

Lemma finditer_unquoted s :
  no_quotes s = true -> Forall unquoted_match (finditer _re_arg_splitter s).
Proof.
  intros Q. apply no_quotes_spec in Q.
  apply Forall_forall. intros m H. apply finditer_origin in H.
  destruct H as (pre & c0 & R & E).
  destruct (match_at_advances _ _ E) as (g & [Rg Pg] & G).
  destruct (splitter_shape _ E) as (_ & w & u & tl & A' & Fw & U & T & S).
  pose proof (advances_inj A' (conj Rg Pg)) as Eg.
  destruct U as [(Ut & Uq & Nu & Fu) | (_ & q & _ & ->)].
  - exists w, u, tl. rewrite G, <- Eg. repeat split; auto.
  - exfalso. apply Q. rewrite R, Rg, <- Eg.
    apply in_or_app; right. apply in_or_app; left.
    apply in_or_app; right. apply in_or_app; left. now left.
Qed.

Lemma join_group0_comma_free combine :
  Forall (fun m => comma_free (group0 m)) combine ->
  comma_free (join_group0 combine).
Proof.
  unfold join_group0. induction 1 as [ | m l H _ IH]; cbn [List.map concat].
  - intros x [].
  - now apply comma_free_app.
Qed.

Lemma combine_loop_unquoted ms : forall combine ret,
  Forall unquoted_match ms ->
  Forall (fun m => unquoted_match m /\ comma_free (group0 m)) combine ->
  Forall (fun o => exists a, o = Some a /\ comma_free_field a) ret ->
  exists ret' combine',
    combine_loop ms combine ret = Some (ret', combine') /\
    Forall (fun m => unquoted_match m /\ comma_free (group0 m)) combine' /\
    Forall (fun o => exists a, o = Some a /\ comma_free_field a) ret'.
Proof.
  induction ms as [ | m ms IH]; intros combine ret Fm Fc Fr; cbn [combine_loop].
  - now exists ret, combine.
  - inv Fm.
    match goal with H : unquoted_match m |- _ => pose proof H as W end.
    destruct W as (w & u & tl & G & Fw & Tu & Nu & Fu & Tq & T & S).
    destruct (ends_with_comma m) eqn:E.
    + rewrite Tu. destruct u as [ | y u]; [contradiction | ]. cbn [truthy].
      apply IH; [assumption | constructor | ].
      apply Forall_app. split; [exact Fr | ]. constructor; [ | constructor].
      eexists. split; [reflexivity | ]. split.
      * destruct (join_group0 combine); discriminate.
      * apply comma_free_app; [ | now apply text_comma_free].
        apply join_group0_comma_free. apply Forall_impl with (2 := Fc).
        now intros m0 [_ H].
    + apply IH; [assumption | | exact Fr].
      apply Forall_app. split; [exact Fc | ]. constructor; [ | constructor].
      split; [assumption | now apply unquoted_match_open].
Qed.

Lemma last_arg_unquoted combine :
  combine <> [] ->
  Forall (fun m => unquoted_match m /\ comma_free (group0 m)) combine ->
  exists a, last_arg combine = Some a /\ comma_free_field a.
Proof.
  intros N F. destruct (exists_last N) as (l & m & ->).
  apply Forall_app in F. destruct F as [Fl Fm]. inv Fm.
  match goal with H : unquoted_match m /\ _ |- _ => destruct H as [W _] end.
  destruct W as (w & u & tl & G & Fw & Tu & Nu & Fu & Tq & T & S).
  unfold last_arg. rewrite last_last, removelast_last.
  assert (Q : (if length (l ++ [m]) =? 1
               then group quoted_text (hd no_match (l ++ [m])) else None) = None).
  { destruct (length (l ++ [m]) =? 1) eqn:L; [ | reflexivity].
    destruct l as [ | m0 l]; [exact Tq | ].
    rewrite length_app in L. simpl in L. apply Nat.eqb_eq in L. lia. }
  rewrite Q. unfold payload. rewrite Tu.
  eexists. split; [reflexivity | ]. split.
  - destruct (join_group0 l); [now destruct u | discriminate].
  - apply comma_free_app; [ | now apply text_comma_free].
    apply join_group0_comma_free. apply Forall_impl with (2 := Fl).
    now intros m0 [_ H].
Qed.

Lemma resolve_all_fields ret :
  Forall (fun o => exists a, o = Some a /\ comma_free_field a) ret ->
  exists l, resolve_all ret = Some l /\ Forall comma_free_field l.
Proof.
  induction 1 as [ | o ret (a & -> & Na & Ca) _ (l & E & F)]; cbn [resolve_all].
  - now exists [].
  - rewrite E. eexists. split; [reflexivity | ].
    constructor; [ | exact F].
    split; [now apply resolve_escapes_nonempty | now apply resolve_escapes_comma_free].
Qed.

(** X11: on an unquoted input, for either value of the flag, no argument is
    empty and no argument holds a comma: commas always separate, and the
    empty fields between them are dropped. *)
Theorem split_args_unquoted_fields s b :
  no_quotes s = true ->
  exists l, split_args s b = Some l /\ Forall comma_free_field l.
Proof.
  intros Q. pose proof (finditer_unquoted s Q) as U.
  unfold split_args. cbv zeta.
  destruct (comma_separated_returns b false (finditer_well_formed s))
    as ([ | ] & ->).
  - unfold comma_mode.
    destruct (combine_loop_unquoted (combine := []) (ret := []) U
                (Forall_nil _) (Forall_nil _))
      as (ret & combine & -> & Fc & Fr).
    destruct combine as [ | m0 combine]; [now apply resolve_all_fields | ].
    destruct (@last_arg_unquoted (m0 :: combine)) as (a & -> & Fa);
      [discriminate | exact Fc | ].
    apply resolve_all_fields. apply Forall_app. split; [exact Fr | ].
    constructor; [now exists a | constructor].
  - apply resolve_all_fields. apply Forall_forall. intros o I.
    apply in_map_iff in I. destruct I as (m & <- & I).
    rewrite Forall_forall in U.
    destruct (U m I) as (w & u & tl & G & Fw & Tu & Nu & Fu & _).
    unfold payload. rewrite Tu. exists u. split; [reflexivity | ].
    split; [exact Nu | now apply text_comma_free].
Qed.

Lemma split_args_unquoted_fields_witness :
  no_quotes (lit " A B,, C D ,") = true /\
  exists l, split_args (lit " A B,, C D ,") false = Some l /\
            Forall comma_free_field l.
Proof.
  split; [reflexivity | ].
  apply (split_args_unquoted_fields (lit " A B,, C D ,") false). reflexivity.
Defined.

(** ** Comma-separated fields of plain words *)
Lemma plain_word_inv w :
  plain_word w = true ->
  exists y u, w = y :: u /\ forallb text_char (y :: u) = true /\
              (dq =? y)%N = false /\ forallb not_bs (y :: u) = true.
Proof.
  destruct w as [ | y u]; [discriminate | ]. unfold plain_word. intros F.
  exists y, u. split; [reflexivity | ].
  assert (G : forall x, In x (y :: u) -> text_char x = true /\ plain x = true).
  { intros x I. rewrite forallb_forall in F. specialize (F x I).
    now apply andb_prop in F. }
  split; [apply forallb_forall; intros x I; now apply G | ].
  split.
  - destruct (G y (or_introl eq_refl)) as [_ P]. unfold plain in P.
    apply andb_prop in P. destruct P as [P _]. unfold not_dq in P.
    apply negb_true_iff in P. now rewrite N.eqb_sym.
  - apply forallb_forall. intros x I. destruct (G x I) as [_ P].
    unfold plain in P. now apply andb_prop in P.
Qed.

Lemma stream_ok_head l :
  stream_ok l -> exists y r, render l = y :: r /\ text_char y = true.
Proof.
  intros H. assert (G : exists w t l', l = (w, t) :: l' /\ plain_word w = true)
    by (destruct H; eauto).
  destruct G as (w & t & l' & -> & W).
  destruct (plain_word_inv w W) as (y & u & -> & F & _).
  exists y, (u ++ t ++ render l'). split.
  - unfold render. cbn [List.map concat fst snd app]. now rewrite <- app_assoc.
  - cbn [forallb] in F. now apply andb_prop in F.
Qed.

Lemma describes_value c c' w t :
  advances c (w ++ t) c' ->
  describes (Match c c' (set_group tail t (set_group text w no_groups))) (w, t).
Proof.
  intros A. repeat split. now apply group0_value.
Qed.

(** The match on a word followed by a space or by a comma and a space, and
    on the last word. *)
Lemma match_word i w t r :
  plain_word w = true ->
  (t = [] /\ r = []
   \/ (t = space_sep \/ t = comma_sep) /\ exists y r', r = y :: r' /\ text_char y = true) ->
  exists m, match_at _re_arg_splitter (Cursor i (w ++ t ++ r)) = Some m /\
            describes m (w, t) /\ m_end m = Cursor (i + length (w ++ t)) r.
Proof.
  intros W H. destruct (plain_word_inv w W) as (y & u & -> & F & D & _).
  unfold space_sep, comma_sep in *.
  assert (A : forall t', advances (Cursor i ((y :: u) ++ t' ++ r)) ((y :: u) ++ t')
                           (Cursor (i + length ((y :: u) ++ t')) r)).
  { intros t'. split; cbn [rest pos]; [now rewrite app_assoc | reflexivity]. }
  destruct H as [[-> ->] | [[-> | ->] (y' & r' & -> & T)]].
  - pose proof (text_unit_match i y u [] F D I (tail_end_value _ _)) as E.
    cbn [fst snd] in E. eexists. split; [exact E | ].
    split; [ | cbn [m_end]; f_equal; rewrite app_nil_r; cbn [length]; lia].
    apply describes_value. rewrite !app_nil_r.
    split; cbn [rest pos length]; [now rewrite app_nil_r | lia].
  - assert (T' : is_space y' = false /\ is_comma y' = false).
    { unfold text_char in T. apply negb_true_iff in T. now apply orb_false_iff in T. }
    pose proof (text_unit_match i y u (32%N :: [] ++ y' :: r') F D eq_refl
                  (tail_space_value _ 32%N [] y' r' _ eq_refl T)) as E.
    cbn [fst snd] in E. eexists. split; [exact E | ].
    split; [ | cbn [m_end app length]; f_equal; rewrite ?length_app; cbn [length]; lia].
    apply describes_value. split; cbn [rest pos].
    + now rewrite <- app_assoc.
    + cbn [app length]. rewrite ?length_app. cbn [length]. lia.
  - assert (T' : is_space y' = false).
    { unfold text_char in T. apply negb_true_iff in T. now apply orb_false_iff in T. }
    pose proof (text_unit_match i y u ([] ++ comma :: [32%N] ++ y' :: r') F D eq_refl
                  (tail_comma_value _ [] comma [32%N] (y' :: r') _
                     eq_refl eq_refl eq_refl T')) as E.
    cbn [fst snd] in E. eexists. split; [exact E | ].
    split; [ | cbn [m_end app length]; f_equal; rewrite ?length_app; cbn [length]; lia].
    apply describes_value. split; cbn [rest pos].
    + now rewrite <- app_assoc.
    + cbn [app length]. rewrite ?length_app. cbn [length]. lia.
Qed.

Lemma render_cons w t l : render ((w, t) :: l) = w ++ t ++ render l.
Proof. unfold render. cbn [List.map concat fst snd]. now rewrite <- app_assoc. Qed.

Lemma scan_stream l :
  stream_ok l ->
  forall i fuel, length (render l) < fuel ->
  exists ms, found (scan _re_arg_splitter fuel (Cursor i (render l))) = ms /\
             Forall2 describes ms l.
Proof.
  induction 1 as [w W | w t l W T H IH]; intros i fuel L.
  - rewrite render_cons in *. change (render []) with (@nil char) in *.
    destruct (@match_word i w [] [] W) as (m & E & D & End); [now left | ].
    destruct (plain_word_inv w W) as (y & u & -> & _).
    destruct fuel as [ | fuel]; [lia | ].
    rewrite (@scan_found _ _ _ _ E)
      by (rewrite End; apply Nat.eqb_neq; cbn [pos app length]; lia).
    rewrite End, scan_at_end by apply splitter_at_end.
    exists [m]. split; [reflexivity | ]. constructor; [exact D | constructor].
  - rewrite render_cons in *.
    destruct (stream_ok_head H) as (y' & r' & R & Ty).
    destruct (@match_word i w t (render l) W) as (m & E & D & End).
    { right. split; [exact T | ]. now exists y', r'. }
    destruct (plain_word_inv w W) as (y & u & -> & _).
    destruct fuel as [ | fuel]; [lia | ].
    rewrite (@scan_found _ _ _ _ E)
      by (rewrite End; apply Nat.eqb_neq; cbn [pos app length]; lia).
    rewrite End.
    destruct (IH (i + length ((y :: u) ++ t)) fuel) as (ms & <- & F).
    { rewrite !length_app in L. cbn [length] in L. lia. }
    eexists. split; [reflexivity | ]. now constructor.
Qed.

(** The loops of [split_args] on such matches. *)
Lemma has_comma_tail_described m w t :
  describes m (w, t) -> t = [] \/ t = space_sep \/ t = comma_sep ->
  has_comma_tail m = Some (match t with x :: _ => is_comma x | [] => false end)
  /\ ends_with_comma m = match t with x :: _ => is_comma x | [] => false end.
Proof.
  intros (_ & _ & _ & T) H. unfold has_comma_tail, ends_with_comma.
  cbn [snd] in T. rewrite T.
  destruct H as [-> | [-> | ->]]; split; reflexivity.
Qed.

Lemma comma_separated_true b ms : comma_separated_after b ms true = Some true.
Proof. induction ms; simpl; auto. Qed.

Lemma stream_ok_tails l :
  stream_ok l -> Forall (fun p => snd p = [] \/ snd p = space_sep \/ snd p = comma_sep) l.
Proof.
  induction 1 as [w W | w t l W T H IH]; constructor; cbn [snd]; auto.
Qed.

Lemma comma_separated_stream ms l : forall acc,
  Forall2 describes ms l ->
  Forall (fun p => snd p = [] \/ snd p = space_sep \/ snd p = comma_sep) l ->
  comma_separated_after false ms acc
  = Some (acc || existsb (fun p => match snd p with x :: _ => is_comma x | [] => false end) l).
Proof.
  intros acc F. revert acc.
  induction F as [ | m [w t] ms l D F IH]; intros acc T; cbn [comma_separated_after existsb].
  - now rewrite orb_false_r.
  - inv T. destruct acc; [apply comma_separated_true | ].
    match goal with H : snd (w, t) = [] \/ _ |- _ =>
      destruct (has_comma_tail_described D H) as [-> _] end.
    cbn [snd orb]. now rewrite IH.
Qed.

Lemma join_group0_snoc combine m :
  join_group0 (combine ++ [m]) = join_group0 combine ++ group0 m.
Proof.
  unfold join_group0. rewrite map_app, concat_app. cbn [List.map concat].
  now rewrite app_nil_r.
Qed.

Lemma finish_step_open m ms combine ret :
  ends_with_comma m = false ->
  finish (m :: ms) combine ret = finish ms (combine ++ [m]) ret.
Proof. intros E. unfold finish. cbn [combine_loop]. now rewrite E. Qed.

Lemma finish_step_close m ms combine ret y u :
  ends_with_comma m = true -> group text m = Some (y :: u) ->
  finish (m :: ms) combine ret
  = finish ms [] (ret ++ [Some (join_group0 combine ++ y :: u)]).
Proof. intros E T. unfold finish. cbn [combine_loop]. now rewrite E, T. Qed.

Lemma finish_last m combine ret w :
  ends_with_comma m = false -> group text m = Some w ->
  Forall (fun m => group quoted_text m = None) (combine ++ [m]) ->
  finish [m] combine ret = Some (ret ++ [Some (join_group0 combine ++ w)]).
Proof.
  intros E T Q. unfold finish. cbn [combine_loop]. rewrite E.
  destruct (combine ++ [m]) as [ | m0 cmb] eqn:C; [now destruct combine | ].
  rewrite <- C in *. unfold last_arg. rewrite last_last, removelast_last.
  assert (Hq : (if length (combine ++ [m]) =? 1
                then group quoted_text (hd no_match (combine ++ [m])) else None)
               = None).
  { destruct (length (combine ++ [m]) =? 1); [ | reflexivity].
    destruct (combine ++ [m]); [reflexivity | now inv Q]. }
  rewrite Hq. unfold payload. now rewrite T.
Qed.

Lemma finish_stream l :
  stream_ok l ->
  forall ms combine ret,
    Forall2 describes ms l ->
    Forall (fun m => group quoted_text m = None) combine ->
    finish ms combine ret
    = Some (ret ++ List.map Some (collect l (join_group0 combine))).
Proof.
  induction 1 as [w W | w t l W T H IH]; intros ms combine ret F Q.
  - inversion F as [ | m p ms' l' D F']; subst. inversion F'; subst.
    pose proof D as (G0 & Gt & Gq & Gl). cbn [fst snd] in *.
    destruct (has_comma_tail_described D (or_introl eq_refl)) as [_ E].
    rewrite (@finish_last m combine ret w E Gt).
    + reflexivity.
    + apply Forall_app. split; [exact Q | constructor; [exact Gq | constructor]].
  - inversion F as [ | m p ms' l' D F']; subst.
    pose proof D as (G0 & Gt & Gq & Gl). cbn [fst snd] in *.
    destruct T as [-> | ->].
    + destruct (has_comma_tail_described D (or_intror (or_introl eq_refl))) as [_ E].
      rewrite (@finish_step_open m ms' combine ret E), IH.
      * now rewrite join_group0_snoc, G0.
      * assumption.
      * apply Forall_app. split; [exact Q | constructor; [exact Gq | constructor]].
    + destruct (has_comma_tail_described D (or_intror (or_intror eq_refl))) as [_ E].
      destruct (plain_word_inv w W) as (y & u & -> & _).
      rewrite (@finish_step_close m ms' combine ret y u E Gt), IH; [ | assumption | constructor].
      cbn [collect comma_sep]. change (is_comma comma) with true. cbn iota.
      now rewrite <- app_assoc.
Qed.

(** From fields to the stream of their words. *)
Lemma render_app l1 l2 : render (l1 ++ l2) = render l1 ++ render l2.
Proof. unfold render. now rewrite map_app, concat_app. Qed.

Lemma plain_field_inv f :
  plain_field f = true ->
  exists w f', f = w :: f' /\ plain_word w = true /\ forallb plain_word f' = true.
Proof.
  destruct f as [ | w f']; [discriminate | ]. unfold plain_field.
  cbn [forallb]. intros H. apply andb_prop in H. destruct H. now exists w, f'.
Qed.

Lemma field_stream_render w : forall f t,
  render (field_stream (w :: f) t) = join space_sep (w :: f) ++ t.
Proof.
  intros f. revert w. induction f as [ | w2 f IH]; intros w t.
  - cbn [field_stream join]. rewrite render_cons. change (render []) with (@nil char).
    now rewrite app_nil_r.
  - change (field_stream (w :: w2 :: f) t)
      with ((w, space_sep) :: field_stream (w2 :: f) t).
    change (join space_sep (w :: w2 :: f))
      with (w ++ space_sep ++ join space_sep (w2 :: f)).
    now rewrite render_cons, IH, <- !app_assoc.
Qed.

Lemma stream_of_render fields :
  forallb plain_field fields = true ->
  render (stream_of fields) = join comma_sep (List.map (join space_sep) fields).
Proof.
  induction fields as [ | f fs IH]; [reflexivity | ].
  cbn [forallb]. intros H. apply andb_prop in H. destruct H as [Pf Pfs].
  destruct (plain_field_inv f Pf) as (w & f' & -> & _).
  destruct fs as [ | g fs].
  - cbn [stream_of List.map join]. now rewrite field_stream_render, app_nil_r.
  - change (stream_of ((w :: f') :: g :: fs))
      with (field_stream (w :: f') comma_sep ++ stream_of (g :: fs)).
    rewrite render_app, field_stream_render, IH by exact Pfs.
    cbn [List.map join]. now rewrite <- app_assoc.
Qed.

Lemma field_stream_ok w : forall f t l,
  plain_word w = true -> forallb plain_word f = true ->
  (t = [] /\ l = [] \/ (t = space_sep \/ t = comma_sep) /\ stream_ok l) ->
  stream_ok (field_stream (w :: f) t ++ l).
Proof.
  intros f. revert w. induction f as [ | w2 f IH]; intros w t l W F H.
  - cbn [field_stream app].
    destruct H as [[-> ->] | [T L]]; [now constructor | now constructor].
  - cbn [forallb] in F. apply andb_prop in F. destruct F as [W2 F].
    change (field_stream (w :: w2 :: f) t ++ l)
      with ((w, space_sep) :: (field_stream (w2 :: f) t ++ l)).
    constructor; [exact W | now left | now apply IH].
Qed.

Lemma stream_of_ok fields :
  fields <> [] -> forallb plain_field fields = true -> stream_ok (stream_of fields).
Proof.
  induction fields as [ | f fs IH]; [contradiction | ].
  intros _. cbn [forallb]. intros H. apply andb_prop in H. destruct H as [Pf Pfs].
  destruct (plain_field_inv f Pf) as (w & f' & -> & W & F).
  destruct fs as [ | g fs].
  - cbn [stream_of]. rewrite <- (app_nil_r (field_stream _ _)).
    apply field_stream_ok; auto.
  - change (stream_of ((w :: f') :: g :: fs))
      with (field_stream (w :: f') comma_sep ++ stream_of (g :: fs)).
    apply field_stream_ok; auto. right. split; [now right | ].
    apply IH; [discriminate | exact Pfs].
Qed.

Lemma field_stream_collect w : forall f l acc,
  collect (field_stream (w :: f) comma_sep ++ l) acc
  = (acc ++ join space_sep (w :: f)) :: collect l [] /\
  collect (field_stream (w :: f) []) acc = [acc ++ join space_sep (w :: f)].
Proof.
  intros f. revert w. induction f as [ | w2 f IH]; intros w l acc.
  - split; reflexivity.
  - change (field_stream (w :: w2 :: f) comma_sep ++ l)
      with ((w, space_sep) :: (field_stream (w2 :: f) comma_sep ++ l)).
    change (field_stream (w :: w2 :: f) [])
      with ((w, space_sep) :: field_stream (w2 :: f) []).
    change (join space_sep (w :: w2 :: f))
      with (w ++ space_sep ++ join space_sep (w2 :: f)).
    cbn [collect space_sep]. change (is_comma 32%N) with false. cbn iota.
    destruct (IH w2 l (acc ++ w ++ space_sep)) as [-> ->].
    now rewrite <- !app_assoc.
Qed.

Lemma stream_of_collect fields :
  forallb plain_field fields = true ->
  collect (stream_of fields) [] = List.map (join space_sep) fields.
Proof.
  induction fields as [ | f fs IH]; [reflexivity | ].
  cbn [forallb]. intros H. apply andb_prop in H. destruct H as [Pf Pfs].
  destruct (plain_field_inv f Pf) as (w & f' & -> & _).
  destruct fs as [ | g fs].
  - cbn [stream_of List.map]. now destruct (field_stream_collect w f' [] []) as [_ ->].
  - change (stream_of ((w :: f') :: g :: fs))
      with (field_stream (w :: f') comma_sep ++ stream_of (g :: fs)).
    destruct (field_stream_collect w f' (stream_of (g :: fs)) []) as [-> _].
    rewrite IH by exact Pfs. reflexivity.
Qed.

Lemma field_stream_has_comma w f l :
  existsb (fun p => match snd p with x :: _ => is_comma x | [] => false end)
    (field_stream (w :: f) comma_sep ++ l) = true.
Proof.
  revert w. induction f as [ | w2 f IH]; intros w; [reflexivity | ].
  change (field_stream (w :: w2 :: f) comma_sep ++ l)
    with ((w, space_sep) :: (field_stream (w2 :: f) comma_sep ++ l)).
  cbn [existsb]. rewrite IH. apply orb_true_r.
Qed.

Lemma join_not_bs sep l :
  forallb not_bs sep = true -> Forall (fun a => forallb not_bs a = true) l ->
  forallb not_bs (join sep l) = true.
Proof.
  intros S F. induction F as [ | a l Fa F IH]; [reflexivity | ].
  cbn [join]. destruct l; [exact Fa | ].
  now rewrite !forallb_app, Fa, S, IH.
Qed.

Lemma plain_word_not_bs w : plain_word w = true -> forallb not_bs w = true.
Proof.
  intros W. destruct (plain_word_inv w W) as (y & u & -> & _ & _ & B). exact B.
Qed.

Lemma plain_field_not_bs f :
  plain_field f = true -> forallb not_bs (join space_sep f) = true.
Proof.
  intros P. destruct (plain_field_inv f P) as (w & f' & -> & W & F).
  apply join_not_bs; [reflexivity | ].
  constructor; [now apply plain_word_not_bs | ].
  apply Forall_forall. intros a I. apply plain_word_not_bs.
  rewrite forallb_forall in F. now apply F.
Qed.

(** X12: comma mode keeps the spaces inside a field.  For two or more fields,
    each a non-empty list of words joined by single spaces, the fields being
    joined by a comma and a space, [split_args] with the flag false returns
    exactly the fields. *)
Theorem split_args_comma_fields fields :
  forallb plain_field fields = true -> 2 <= length fields ->
  split_args (join comma_sep (List.map (join space_sep) fields)) false
  = Some (List.map (join space_sep) fields).
Proof.
  intros P L.
  assert (N : fields <> []) by (intros ->; simpl in L; lia).
  pose proof (stream_of_ok N P) as K.
  rewrite <- stream_of_render by exact P.
  destruct (@scan_stream _ K 0 (S (length (render (stream_of fields))))
              (Nat.lt_succ_diag_r _)) as (ms & HS & F).
  unfold split_args. cbv zeta. unfold finditer, scan_all. rewrite HS.
  rewrite (comma_separated_stream false F (stream_ok_tails K)).
  assert (C : existsb (fun p => match snd p with x :: _ => is_comma x | [] => false end)
                (stream_of fields) = true).
  { destruct fields as [ | f [ | g fs]]; try (simpl in L; lia).
    cbn [forallb] in P. apply andb_prop in P. destruct P as [Pf _].
    destruct (plain_field_inv f Pf) as (w & f' & -> & _).
    apply field_stream_has_comma. }
  rewrite C. cbn [orb].
  change (comma_mode ms) with (finish ms [] []).
  rewrite (@finish_stream _ K ms [] [] F (Forall_nil _)).
  cbn [app join_group0 List.map concat].
  rewrite stream_of_collect, resolve_all_some by exact P.
  f_equal. apply map_id_Forall. apply Forall_forall. intros a I.
  apply in_map_iff in I. destruct I as (f & <- & I).
  apply resolve_escapes_no_bs. apply plain_field_not_bs.
  rewrite forallb_forall in P. now apply P.
Qed.

Lemma split_args_comma_fields_witness :
  forallb plain_field [[lit "A"; lit "B"]; [lit "C"; lit "D"]] = true /\
  2 <= length [[lit "A"; lit "B"]; [lit "C"; lit "D"]] /\
  split_args (join comma_sep
                (List.map (join space_sep) [[lit "A"; lit "B"]; [lit "C"; lit "D"]]))
    false
  = Some (List.map (join space_sep) [[lit "A"; lit "B"]; [lit "C"; lit "D"]]).
Proof.
  split; [reflexivity | ]. split; [simpl; lia | ].
  apply (split_args_comma_fields [[lit "A"; lit "B"]; [lit "C"; lit "D"]]);
    [reflexivity | simpl; lia].
Defined.

Lemma stream_tokens l :
  stream_ok l -> tokens is_delim (render l) [] = List.map fst l.
Proof.
  assert (B : forall w, plain_word w = true ->
            w <> [] /\ forallb (fun x => negb (is_delim x)) w = true).
  { intros w W. destruct (plain_word_inv w W) as (y & u & -> & F & _).
    split; [discriminate | exact F]. }
  induction 1 as [w W | w t l W T H IH].
  - rewrite render_cons. change (render []) with (@nil char).
    destruct (B w W) as [N F].
    rewrite tokens_run by exact F. cbn [app].
    rewrite <- (app_nil_r []) at 1. now rewrite tokens_close by auto.
  - rewrite render_cons. destruct (B w W) as [N F].
    rewrite tokens_run by exact F. cbn [app].
    rewrite tokens_close, IH; auto.
    + destruct T as [-> | ->]; reflexivity.
    + left. destruct T as [-> | ->]; discriminate.
Qed.

Lemma field_stream_words w : forall f t,
  List.map fst (field_stream (w :: f) t) = w :: f.
Proof.
  intros f. revert w. induction f as [ | w2 f IH]; intros w t; [reflexivity | ].
  change (field_stream (w :: w2 :: f) t)
    with ((w, space_sep) :: field_stream (w2 :: f) t).
  cbn [List.map fst]. now rewrite IH.
Qed.

Lemma stream_of_words fields :
  forallb plain_field fields = true ->
  List.map fst (stream_of fields) = concat fields.
Proof.
  induction fields as [ | f fs IH]; [reflexivity | ].
  cbn [forallb]. intros H. apply andb_prop in H. destruct H as [Pf Pfs].
  destruct (plain_field_inv f Pf) as (w & f' & -> & _).
  destruct fs as [ | g fs].
  - cbn [stream_of concat]. now rewrite field_stream_words, app_nil_r.
  - change (stream_of ((w :: f') :: g :: fs))
      with (field_stream (w :: f') comma_sep ++ stream_of (g :: fs)).
    rewrite map_app, field_stream_words, IH by exact Pfs. reflexivity.
Qed.

Lemma stream_no_quotes l : stream_ok l -> no_quotes (render l) = true.
Proof.
  assert (B : forall w, plain_word w = true -> no_quotes w = true).
  { intros w W. destruct w as [ | y u]; [reflexivity | ]. unfold plain_word in W.
    apply forallb_impl with (2 := W). intros x H. apply andb_prop in H.
    destruct H as [_ H]. unfold plain in H. now apply andb_prop in H. }
  induction 1 as [w W | w t l W T H IH]; rewrite render_cons.
  - change (render []) with (@nil char). rewrite !app_nil_r. now apply B.
  - rewrite !no_quotes_app, (B w W), IH. destruct T as [-> | ->]; reflexivity.
Qed.

(** X13: with the flag true the same comma-separated text gives the words
    of all the fields, one argument per word. *)
Theorem split_args_comma_fields_as_space fields :
  fields <> [] -> forallb plain_field fields = true ->
  split_args (join comma_sep (List.map (join space_sep) fields)) true
  = Some (concat fields).
Proof.
  intros N P. pose proof (stream_of_ok N P) as K.
  rewrite <- stream_of_render by exact P.
  rewrite split_args_unquoted_true by now apply stream_no_quotes.
  rewrite stream_tokens, stream_of_words by assumption.
  f_equal. apply map_id_Forall. apply Forall_forall. intros w I.
  apply replace2_no_bs, plain_word_not_bs.
  apply in_concat in I. destruct I as (f & If & Iw).
  rewrite forallb_forall in P. specialize (P f If).
  destruct (plain_field_inv f P) as (w0 & f' & -> & W & F).
  destruct Iw as [<- | Iw]; [exact W | ].
  rewrite forallb_forall in F. now apply F.
Qed.

Lemma split_args_comma_fields_as_space_witness :
  [[lit "A"; lit "B"]; [lit "C"; lit "D"]] <> [] /\
  forallb plain_field [[lit "A"; lit "B"]; [lit "C"; lit "D"]] = true /\
  split_args (join comma_sep
                (List.map (join space_sep) [[lit "A"; lit "B"]; [lit "C"; lit "D"]]))
    true
  = Some (concat [[lit "A"; lit "B"]; [lit "C"; lit "D"]]).
Proof.
  split; [discriminate | ]. split; [reflexivity | ].
  apply (split_args_comma_fields_as_space (fields := [[lit "A"; lit "B"]; [lit "C"; lit "D"]]));
    [discriminate | reflexivity].
Defined.

(** ** Delimiters before the first unit *)
Lemma after_delims d : forall t p y q,
  d ++ t = p ++ y :: q -> forallb is_delim d = true -> is_delim y = false ->
  exists t1, t = t1 ++ y :: q.
Proof.
  induction d as [ | a d IH]; intros t p y q E F Y.
  - now exists p.
  - cbn [forallb] in F. apply andb_prop in F. destruct F as [Fa F].
    destruct p as [ | b p]; simpl in E; injection E as -> E.
    + congruence.
    + now apply IH with p.
Qed.

Lemma leading_delims_tails d t :
  forallb is_delim d = true -> no_comma t ->
  Forall (fun m => has_comma_tail m = Some false)
    (finditer _re_arg_splitter (d ++ t)).
Proof.
  intros F N. apply Forall_forall. intros m H.
  apply finditer_origin in H. destruct H as (pre & c0 & R & E).
  destruct (splitter_shape _ E) as (_ & w & u & tl & [Rc _] & Fw & U & T & S).
  unfold has_comma_tail. rewrite T.
  destruct S as [_ | a x b Fa Cx Fb | s Hs]; [reflexivity | exfalso | ].
  - assert (Y : exists y u', u = y :: u' /\ is_delim y = false).
    { destruct U as [(_ & _ & Nu & Fu) | (_ & q & _ & ->)].
      - destruct u as [ | y u']; [contradiction | ]. exists y, u'.
        split; [reflexivity | ]. cbn [forallb] in Fu. apply andb_prop in Fu.
        destruct Fu as [Fy _]. now apply negb_true_iff in Fy.
      - exists dq, (q ++ [dq]). split; reflexivity. }
    destruct Y as (y & u' & -> & Y).
    destruct (@after_delims d t (pre ++ w) y (u' ++ (a ++ x :: b) ++ rest (m_end m)))
      as (t1 & ->); [ | exact F | exact Y | ].
    + rewrite R, Rc, <- !app_assoc. reflexivity.
    + rewrite (N x) in Cx; [discriminate | ].
      apply in_or_app; right. right. apply in_or_app; right.
      apply in_or_app; left. apply in_or_app; right. now left.
  - rewrite Hs. now destruct s.
Qed.

(** X14: delimiters before the first unit are ignored, commas included: a
    comma that no unit precedes does not switch to comma mode.  When the text
    after the leading whitespace and commas has no comma and no double quote,
    the result, for either flag, is that of the text alone. *)
Theorem split_args_leading_delimiters d t b :
  forallb is_delim d = true -> no_commas t = true -> no_quotes t = true ->
  split_args (d ++ t) b = split_args t false.
Proof.
  intros F N Q. apply no_commas_spec in N.
  assert (Qd : ~ In dq (d ++ t)).
  { intros I. apply in_app_or in I. destruct I as [I | I].
    - rewrite forallb_forall in F. specialize (F dq I). discriminate.
    - now apply (no_quotes_spec t Q). }
  rewrite (split_args_whitespace_mode (d ++ t) b (tokens is_delim (d ++ t) [])).
  - rewrite tokens_delims by exact F.
    rewrite (split_args_whitespace_mode t false (tokens is_delim t [])).
    + reflexivity.
    + apply comma_separated_none. now apply no_comma_tails.
    + apply finditer_tokens. rewrite count_dq_0 by now apply no_quotes_spec. lia.
  - destruct b; [apply comma_separated_treat | ].
    apply comma_separated_none. now apply leading_delims_tails.
  - apply finditer_tokens. rewrite count_dq_0 by exact Qd. lia.
Qed.

Lemma split_args_leading_delimiters_witness :
  forallb is_delim (lit " ,, ") = true /\ no_commas (lit "A B") = true /\
  no_quotes (lit "A B") = true /\
  split_args (lit " ,, " ++ lit "A B") false = split_args (lit "A B") false.
Proof.
  split; [reflexivity | ]. split; [reflexivity | ]. split; [reflexivity | ].
  apply (split_args_leading_delimiters (lit " ,, ") (lit "A B") false); reflexivity.
Defined.

(** X15: a field without backslashes comes out of escape resolution
    unchanged, whatever else it holds, double quotes included. *)
Theorem resolve_escapes_without_backslash s :
  forallb not_bs s = true -> resolve_escapes s = s.
Proof. apply resolve_escapes_no_bs. Qed.

Lemma resolve_escapes_without_backslash_witness :
  forallb not_bs (dq :: lit "A" ++ dq :: lit " B") = true /\
  resolve_escapes (dq :: lit "A" ++ dq :: lit " B") = dq :: lit "A" ++ dq :: lit " B".
Proof.
  split; [reflexivity | ].
  apply (resolve_escapes_without_backslash (dq :: lit "A" ++ dq :: lit " B")).
  reflexivity.
Defined.
